(** * canvas-gui: the view tree of [drawer2.js]

    A shallow embedding of the classes [View], [Label], [Container],
    [LayoutManager], [FlowLayoutManager] and of the event routing of
    [Drawer], together with the properties of placement, ownership,
    flow layout and hit-testing that the project documentation states.

    Modelling conventions.
    - JavaScript objects live in a heap: a finite map from object
      identities ([ref]) to view objects.  Two references are the same
      object exactly when they are equal, as with [===] on objects.
    - Coordinates and sizes are JavaScript numbers: IEEE 754 binary64
      values ([float]), with the additions, subtractions and
      comparisons of the source written in the order the source has
      them and rounded as the source rounds them.
    - The canvas context is an external collaborator.  Painting calls
      ([fillRect], [strokeRect], [save], [restore], [fillText]) and
      background painters write to the canvas only and never touch a
      view object, so they do not appear in the heap transformers
      below; the one value read back from the context, the measured
      width of a label's text, is a field of the label.
    - A method returns [None] when it runs on a heap in which the
      JavaScript call could not be written (a reference to no object, a
      container method on a plain view) or, for [draw], when the
      recursion budget is used up. *)

From Stdlib Require Import ZArith String Floats.
From stdpp Require Import base option list gmap.

Local Open Scope float_scope.

(** ** Data model *)

(** Object identity. *)
Definition ref := nat.

(** The object literal [{x: .., y: ..}] stored in [relativePoints]. *)
Module Point.
Record t := mk { x : float; y : float }.
End Point.

(** [LayoutManager] and its subclass [FlowLayoutManager]. *)
Inductive LayoutManager :=
| BaseLayoutManager
| FlowLayoutManager (horizonSpace verticalSpace : float).

(** The fields a [Label] adds to a view.  [textWidth] stands for
    [Math.ceil(context.measureText(this.text).width)] under the label's
    font. *)
Module Label.
Record t := mk { textWidth : float; padding : float; fontSize : float }.
End Label.

(** The fields a [Container] adds to a view. *)
Module Container.
Record t := mk {
  views : list ref;
  layoutManager : option LayoutManager;
  relativePoints : gmap ref Point.t;
  paddingLeft : float;
  paddingTop : float;
  paddingRight : float;
  paddingBottom : float
}.

Definition with_views (l : list ref) (c : t) : t :=
  mk l (layoutManager c) (relativePoints c)
     (paddingLeft c) (paddingTop c) (paddingRight c) (paddingBottom c).

Definition with_relativePoints (m : gmap ref Point.t) (c : t) : t :=
  mk (views c) (layoutManager c) m
     (paddingLeft c) (paddingTop c) (paddingRight c) (paddingBottom c).
End Container.

(** The class of an object: [View], [Label] or [Container]. *)
Inductive Kind :=
| KView
| KLabel (l : Label.t)
| KContainer (c : Container.t).

(** A view object.  [parent] is [None] for JavaScript's [null]. *)
Module View.
Record t := mk {
  x : float;
  y : float;
  width : float;
  height : float;
  parent : option ref;
  kind : Kind
}.

Definition with_x (z : float) (v : t) : t :=
  mk z (y v) (width v) (height v) (parent v) (kind v).
Definition with_y (z : float) (v : t) : t :=
  mk (x v) z (width v) (height v) (parent v) (kind v).
Definition with_width (z : float) (v : t) : t :=
  mk (x v) (y v) z (height v) (parent v) (kind v).
Definition with_height (z : float) (v : t) : t :=
  mk (x v) (y v) (width v) z (parent v) (kind v).
Definition with_parent (p : option ref) (v : t) : t :=
  mk (x v) (y v) (width v) (height v) p (kind v).
Definition with_kind (k : Kind) (v : t) : t :=
  mk (x v) (y v) (width v) (height v) (parent v) k.
End View.

(** The heap of view objects. *)
Abbreviation Heap := (gmap ref View.t).

(** The container fields of an object, when it is a [Container]. *)
Definition asContainer (v : View.t) : option Container.t :=
  match View.kind v with
  | KContainer c => Some c
  | _ => None
  end.

Definition getContainer (s : Heap) (r : ref) : option Container.t :=
  s !! r ≫= asContainer.

(** ** View *)

(** [View.isIntersect(x, y)]. *)
Definition isIntersect (v : View.t) (px py : float) : bool :=
  (View.x v <=? px) && (View.y v <=? py) &&
  (px <=? View.x v + View.width v) && (py <=? View.y v + View.height v).

(** [measure(context)]: a no-op in [View] (inherited by [Container]),
    overridden in [Label]. *)
Definition measure (v : View.t) : View.t :=
  match View.kind v with
  | KLabel l =>
    View.with_height (Label.fontSize l + Label.padding l)
      (View.with_width (Label.textWidth l + Label.padding l) v)
  | _ => v
  end.


(** Apply a change to the container fields of an object; other objects
    are left as they are. *)
Definition onContainer (f : Container.t → Container.t) (v : View.t) : View.t :=
  match View.kind v with
  | KContainer c => View.with_kind (KContainer (f c)) v
  | _ => v
  end.

(** [for (let r of l) { body }] and [l.forEach(body)] over a heap
    transformer that may fail. *)
Fixpoint forEachM {S : Type} (body : S → ref → option S) (l : list ref) (s : S)
  : option S :=
  match l with
  | [] => Some s
  | r :: l' => body s r ≫= forEachM body l'
  end.

(** ** Container: ownership *)

(** How a call ends: normally, or by a thrown [Error] with its message;
    both carry the heap as it is at that moment. *)
Inductive Completion :=
| Normal (s : Heap)
| Throw (message : string) (s : Heap).

(** [this.views.push(view)]. *)
Definition pushView (view : ref) (c : Container.t) : Container.t :=
  Container.with_views (Container.views c ++ [view]) c.

(** [Container.addChild(view)]. *)
Definition addChild (this view : ref) (s : Heap) : option Completion :=
  _ ← getContainer s this;
  v ← s !! view;
  match View.parent v with
  | Some _ => Some (Throw "the view has related a container." s)
  | None =>
    let s1 := alter (View.with_parent (Some this)) view s in
    Some (Normal (alter (onContainer (pushView view)) this s1))
  end.

(** [Array.prototype.indexOf] on references: the first index holding the
    object, [None] for [-1]. *)
Definition indexOf (l : list ref) (r : ref) : option nat :=
  fst <$> list_find (λ r', r' = r) l.

(** [this.views.splice(index, 1)]. *)
Definition spliceView (index : nat) (c : Container.t) : Container.t :=
  Container.with_views (delete index (Container.views c)) c.

(** [Container.removeChild(view)]. *)
Definition removeChild (this view : ref) (s : Heap) : option Heap :=
  c ← getContainer s this;
  match indexOf (Container.views c) view with
  | Some index =>
    let s1 := alter (View.with_parent None) view s in
    Some (alter (onContainer (spliceView index)) this s1)
  | None => Some s
  end.

(** ** Layout managers *)

(** One turn of the loop of [FlowLayoutManager.layout]; the loop state
    is the cursor [(x, y)] and the heap. *)
Definition flowStep (horizonSpace verticalSpace availableWidth : float)
    (st : float * float * Heap) (view : ref) : option (float * float * Heap) :=
  let '(x, y, s) := st in
  v ← s !! view;
  let v1 := measure v in
  let viewOccupyWidth := horizonSpace + View.width v1 in
  let '(x1, y1) :=
    if availableWidth <? viewOccupyWidth + x
    then (0, y + (View.height v1 + verticalSpace))
    else (x, y) in
  Some (x1 + (viewOccupyWidth + horizonSpace), y1,
        <[view := View.with_y y1 (View.with_x x1 v1)]> s).

(** The loop of [FlowLayoutManager.layout] from a given cursor. *)
Definition flowLoop (horizonSpace verticalSpace availableWidth : float)
    (l : list ref) (st : float * float * Heap) : option (float * float * Heap) :=
  forEachM (flowStep horizonSpace verticalSpace availableWidth) l st.

(** [layoutManager.layout(container, context)], by the class of the
    manager. *)
Definition layout (lm : LayoutManager) (container : ref) (s : Heap)
  : option Heap :=
  match lm with
  | BaseLayoutManager => Some s
  | FlowLayoutManager horizonSpace verticalSpace =>
    t ← s !! container;
    c ← asContainer t;
    let availableWidth :=
      View.width t - (Container.paddingLeft c + Container.paddingRight c) in
    snd <$> flowLoop horizonSpace verticalSpace availableWidth
              (Container.views c) (0, 0, s)
  end.

(** ** Container: drawing *)

(** [this.relativePoints.set(view, point)]. *)
Definition setRelativePoint (view : ref) (point : Point.t) (c : Container.t)
  : Container.t :=
  Container.with_relativePoints (<[view := point]> (Container.relativePoints c)) c.

(** The first half of the body of the [forEach] in [Container.draw]:
    look up or capture the relative origin of [view], then assign
    [view.x] and [view.y]. *)
Definition placeChild (this : ref) (s : Heap) (view : ref) : option Heap :=
  c ← getContainer s this;
  v ← s !! view;
  let '(point, s1) :=
    match Container.relativePoints c !! view with
    | Some point => (point, s)
    | None =>
      let point := Point.mk (View.x v) (View.y v) in
      (point, alter (onContainer (setRelativePoint view point)) this s)
    end in
  t1 ← s1 !! this;
  c1 ← asContainer t1;
  let s2 :=
    alter (View.with_x (Container.paddingLeft c1 + View.x t1 + Point.x point))
          view s1 in
  t2 ← s2 !! this;
  c2 ← asContainer t2;
  Some (alter (View.with_y (Container.paddingTop c2 + View.y t2 + Point.y point))
              view s2).

(** The body of the [forEach] in [Container.draw]: place the child, then
    [view.draw(context)], dynamically dispatched, between [save] and
    [restore]. *)
Definition drawChild (drawView : ref → Heap → option Heap) (this : ref)
    (s : Heap) (view : ref) : option Heap :=
  placeChild this s view ≫= drawView view.

(** [draw(context)], dispatched on the class of [this]: [View.draw] and
    [Label.draw] only paint; [Container.draw] lays out, places and draws
    the children.  [fuel] bounds the depth of the recursion. *)
Fixpoint draw (fuel : nat) (this : ref) (s : Heap) : option Heap :=
  match fuel with
  | O => None
  | S fuel' =>
    t ← s !! this;
    match View.kind t with
    | KContainer c =>
      s1 ← match Container.layoutManager c with
           | Some lm => layout lm this s
           | None => Some s
           end;
      c1 ← getContainer s1 this;
      forEachM (drawChild (draw fuel') this) (Container.views c1) s1
    | _ => Some s
    end
  end.

(** [n] consecutive calls of [draw] on the same object. *)
Fixpoint drawTimes (fuel : nat) (n : nat) (this : ref) (s : Heap)
  : option Heap :=
  match n with
  | O => Some s
  | S n' => draw fuel this s ≫= drawTimes fuel n' this
  end.

(** ** Drawer: event routing *)

(** The event object [{x, y, type}] built by the mouse listeners. *)
Module Event.
Record t := mk { x : float; y : float; type : string }.
End Event.

(** An event handler: an external callback, which may change views. *)
Definition Handler := Event.t → Heap → Heap.

(** [Map.prototype.set] on the insertion-ordered [registerViews]: an
    existing key keeps its place and takes the new value, a new key goes
    to the end. *)
Fixpoint mapSet (m : list (ref * Handler)) (view : ref) (h : Handler)
  : list (ref * Handler) :=
  match m with
  | [] => [(view, h)]
  | (k, h') :: m' =>
    if decide (k = view) then (k, h) :: m' else (k, h') :: mapSet m' view h
  end.

(** [Drawer.registerMouseEvent(view, eventHandle)]. *)
Definition registerMouseEvent (registerViews : list (ref * Handler))
    (view : ref) (eventHandle : Handler) : list (ref * Handler) :=
  mapSet registerViews view eventHandle.

(** The callback of the [forEach] in [Drawer.handleEvent]; the state is
    the heap and the log of the handlers called so far, each entry
    naming the registered view whose handler ran and the event passed. *)
Definition handleEntry (event : Event.t) (st : Heap * list (ref * Event.t))
    (entry : ref * Handler) : option (Heap * list (ref * Event.t)) :=
  let '(s, calls) := st in
  let '(view, eventHandle) := entry in
  v ← s !! view;
  if isIntersect v (Event.x event) (Event.y event)
  then Some (eventHandle event s, calls ++ [(view, event)])
  else Some (s, calls).

(** [Drawer.handleEvent(event)]. *)
Fixpoint handleEvent (registerViews : list (ref * Handler)) (event : Event.t)
    (st : Heap * list (ref * Event.t)) : option (Heap * list (ref * Event.t)) :=
  match registerViews with
  | [] => Some st
  | entry :: rest => handleEntry event st entry ≫= handleEvent rest event
  end.

(** ** Observations on a heap *)

(** The absolute position [(x, y)] of an object. *)
Definition position (s : Heap) (r : ref) : option (float * float) :=
  (λ v, (View.x v, View.y v)) <$> s !! r.

(** The owner of an object: [Some None] for a view owned by nobody. *)
Definition owner (s : Heap) (r : ref) : option (option ref) :=
  View.parent <$> s !! r.

(** The child sequence of a container ([[]] for anything else). *)
Definition children (s : Heap) (r : ref) : list ref :=
  match getContainer s r with
  | Some c => Container.views c
  | None => []
  end.

(** [container.relativePoints.get(view)]. *)
Definition relativePoint (s : Heap) (container view : ref) : option Point.t :=
  getContainer s container ≫= λ c, Container.relativePoints c !! view.

(** The heap after the layout pass at the head of [Container.draw]. *)
Definition layoutPass (this : ref) (s : Heap) : option Heap :=
  c ← getContainer s this;
  match Container.layoutManager c with
  | Some lm => layout lm this s
  | None => Some s
  end.

(** ** Well-formed view trees *)

(** What [draw] and [layout] never change in an object: its owner, its
    class, and for a container its child sequence, layout manager and
    padding. *)
Definition skeletonKind (k : Kind) : Kind :=
  match k with
  | KContainer c => KContainer (Container.with_relativePoints ∅ c)
  | _ => k
  end.

Definition skeleton (v : View.t) : View.t :=
  View.mk 0 0 0 0 (View.parent v) (skeletonKind (View.kind v)).

Definition sameShape (s s' : Heap) : Prop :=
  skeleton <$> s = skeleton <$> s'.

(** The heaps that [addChild] and [removeChild] build, when no container
    is put inside itself: every child is an object whose [parent] is the
    container holding it, and the containment order is well founded
    ([rank] decreases from a container to its children). *)
Record wellFormed (rank : ref → nat) (s : Heap) : Prop := {
  wf_parent : ∀ p v, v ∈ children s p → owner s v = Some (Some p);
  wf_rank : ∀ p v, v ∈ children s p → (rank v < rank p)%nat
}.

(** What neither [measure] nor a layout pass changes in an object. *)
Definition fixedPart (v : View.t) : option ref * Kind :=
  (View.parent v, View.kind v).

(** The cursor and heap when the flow loop of a container reaches the
    child after the prefix [pre] of its child sequence. *)
Definition flowCursor (hs vs : float) (t : View.t) (c : Container.t)
    (pre : list ref) (s : Heap) : option (float * float * Heap) :=
  flowLoop hs vs
    (View.width t - (Container.paddingLeft c + Container.paddingRight c))
    pre (0, 0, s).

(** Whether the bounds of the object [view] contain the point of the
    event, in the heap [s]. *)
Definition hit (s : Heap) (event : Event.t) (view : ref) : bool :=
  match s !! view with
  | Some v => isIntersect v (Event.x event) (Event.y event)
  | None => false
  end.

(** The heap after the handlers of the pairs [entries] have run on it,
    one after the other, each with the event. *)
Definition runHandlers (event : Event.t) (entries : list (ref * Handler))
    (s : Heap) : Heap :=
  foldl (λ a entry, entry.2 event a) s entries.

(** The order of JavaScript numbers as [<=] and [>=] decide it: it holds
    of no pair with a [NaN], and takes [-0] and [0] for equal. *)
Definition numLe (a b : float) : Prop := (a <=? b) = true.

(** [a > b] as the source's comparison decides it: false when one of
    the two is a [NaN]. *)
Definition numGt (a b : float) : Prop := (b <? a) = true.

(** [p] lies in the closed interval from [lo] to [hi]. *)
Definition inClosed (lo hi p : float) : Prop := numLe lo p ∧ numLe p hi.

(** The bounds of a view object. *)
Definition geometry (v : View.t) : float * float * float * float :=
  (View.x v, View.y v, View.width v, View.height v).

(** The position of an object as a point [{x, y}]. *)
Definition pointAt (s : Heap) (view : ref) : option Point.t :=
  (λ v, Point.mk (View.x v) (View.y v)) <$> s !! view.

(** The corner of the content box of a container:
    [(paddingLeft + x, paddingTop + y)]. *)
Definition contentOrigin (s : Heap) (this : ref) : option (float * float) :=
  t ← s !! this;
  c ← asContainer t;
  Some (Container.paddingLeft c + View.x t, Container.paddingTop c + View.y t).

Definition offsetBy (o : float * float) (p : Point.t) : float * float :=
  (o.1 + Point.x p, o.2 + Point.y p).

(** [r] is no child of a container at or below [d] in the containment
    order. *)
Definition outside (rank : ref → nat) (s : Heap) (d r : ref) : Prop :=
  ∀ p, r ∈ children s p → (rank d < rank p)%nat.

(** What a [draw] of [d] leaves alone: the shape of the heap, the
    position of every object outside [d], the relative origins of every
    container above [d], and every relative origin already recorded. *)
Definition keeps (rank : ref → nat) (d : ref) (s s' : Heap) : Prop :=
  sameShape s s' ∧
  (∀ r, outside rank s d r → position s' r = position s r) ∧
  (∀ e k, (rank d < rank e)%nat → relativePoint s' e k = relativePoint s e k) ∧
  (∀ e k q, relativePoint s e k = Some q → relativePoint s' e k = Some q).

(** A decision procedure for [wellFormed] on a given heap. *)
Definition wellFormedb (rank : ref → nat) (s : Heap) : bool :=
  forallb
    (λ entry : ref * View.t,
       match asContainer entry.2 with
       | Some c =>
         forallb
           (λ v, match s !! v with
                 | Some vv =>
                   bool_decide (View.parent vv = Some entry.1) &&
                   (rank v <? rank entry.1)%nat
                 | None => false
                 end)
           (Container.views c)
       | None => true
       end)
    (map_to_list s).

(** The relative origin [Container.draw] uses for a child: the recorded
    one, or else the child's current position. *)
Definition originFor (s : Heap) (this view : ref) : option Point.t :=
  match relativePoint s this view with
  | Some p => Some p
  | None => pointAt s view
  end.

(** The ownership discipline of [addChild] and [removeChild]: no view
    occurs twice in a child sequence, and the [parent] of every child is
    the container holding it, so that no view is held by two
    containers. *)
Definition ownershipConsistent (s : Heap) : Prop :=
  ∀ p, NoDup (children s p) ∧
       ∀ v, v ∈ children s p → owner s v = Some (Some p).

(** ** Sample objects *)

(** A plain [new View(x, y, width, height)] with the given owner. *)
Definition plainView (x y width height : float) (parent : option ref) : View.t :=
  View.mk x y width height parent KView.

(** A [new Container(x, y, width, height)] holding [views], with a
    layout manager and left and top padding. *)
Definition containerView (x y width height : float) (parent : option ref)
    (views : list ref) (lm : option LayoutManager) (paddingLeft paddingTop : float)
  : View.t :=
  View.mk x y width height parent
    (KContainer (Container.mk views lm ∅ paddingLeft paddingTop 0 0)).

(** Two sibling containers: 0 holds the views 1 and 2, 3 holds the view
    4; the view 5 is owned by nobody. *)
Definition twoContainers : Heap :=
  <[0%nat := containerView 10 20 100 100 None [1%nat; 2%nat] None 3 4]>
  (<[1%nat := plainView 5 5 60 10 (Some 0%nat)]>
  (<[2%nat := plainView 7 7 60 30 (Some 0%nat)]>
  (<[3%nat := containerView 0 0 50 50 None [4%nat] None 0 0]>
  (<[4%nat := plainView 1 1 5 5 (Some 3%nat)]>
  (<[5%nat := plainView 2 2 5 5 None]> ∅))))).

(** A container of content width 100 with a flow layout without gaps,
    holding a view of 60 by 10 and a view of 60 by 30. *)
Definition flowRows : Heap :=
  <[0%nat := containerView 0 0 100 100 None [1%nat; 2%nat]
               (Some (FlowLayoutManager 0 0)) 0 0]>
  (<[1%nat := plainView 0 0 60 10 (Some 0%nat)]>
  (<[2%nat := plainView 0 0 60 30 (Some 0%nat)]> ∅)).

(** A container of content width 100 with a flow layout without gaps,
    holding a single view of 150 by 20. *)
Definition wideChild : Heap :=
  <[0%nat := containerView 0 0 100 100 None [1%nat]
               (Some (FlowLayoutManager 0 0)) 0 0]>
  (<[1%nat := plainView 0 0 150 20 (Some 0%nat)]> ∅).

(** A container of content width 100 (120 less 12 and 8 of padding) with
    a flow layout without gaps, holding three views of width 40. *)
Definition threeForties : Heap :=
  <[0%nat := View.mk 0 0 120 100 None
               (KContainer (Container.mk [1%nat; 2%nat; 3%nat]
                  (Some (FlowLayoutManager 0 0)) ∅ 12 0 8 0))]>
  (<[1%nat := plainView 0 0 40 10 (Some 0%nat)]>
  (<[2%nat := plainView 0 0 40 15 (Some 0%nat)]>
  (<[3%nat := plainView 0 0 40 25 (Some 0%nat)]> ∅))).

(** A handler that only observes: it leaves every object as it is. *)
Definition observe : Handler := λ _ s, s.

(** Two overlapping views, both containing the point (15, 15), and a
    third view away from it, registered in the order 2, 1, 3. *)
Definition overlapping : Heap :=
  <[1%nat := plainView 10 10 20 20 None]>
  (<[2%nat := plainView 0 0 15 15 None]>
  (<[3%nat := plainView 50 50 5 5 None]> ∅)).

Definition overlappingRegistry : list (ref * Handler) :=
  registerMouseEvent
    (registerMouseEvent
       (registerMouseEvent [] 2%nat observe) 1%nat observe) 3%nat observe.

Definition press : Event.t := Event.mk 15 15 "mousedown".

(** A handler that drags the view 1 away, to [x = 100]. *)
Definition dragAway : Handler := λ _ s, alter (View.with_x 100) 1%nat s.

(** The views 2 and 1 registered in this order, the handler of the view
    2 dragging the view 1 away. *)
Definition draggingRegistry : list (ref * Handler) :=
  registerMouseEvent (registerMouseEvent [] 2%nat dragAway) 1%nat observe.

(** A containment order for the sample heaps: the containers 0 and 3
    above everything else. *)
Definition flatRank (r : ref) : nat :=
  match r with
  | 0%nat | 3%nat => 1%nat
  | _ => 0%nat
  end.

(** A tree of depth two: the root 0 holds the container 1, which has a
    flow layout and holds the views 3 and 4, and the view 2. *)
Definition nestedTree : Heap :=
  <[0%nat := containerView 10 20 200 100 None [1%nat; 2%nat] None 3 4]>
  (<[1%nat := containerView 5 6 100 50 (Some 0%nat) [3%nat; 4%nat]
                (Some (FlowLayoutManager 2 1)) 1 1]>
  (<[2%nat := plainView 120 0 30 30 (Some 0%nat)]>
  (<[3%nat := plainView 0 0 60 10 (Some 1%nat)]>
  (<[4%nat := plainView 0 0 60 12 (Some 1%nat)]> ∅)))).

(** A container far from the origin, at [x = 2^53] with a left padding
    of 1, holding a view at (1, 2). *)
Definition farTree : Heap :=
  <[0%nat := containerView 9007199254740992 20 200 100 None [1%nat] None 1 4]>
  (<[1%nat := plainView 1 2 30 30 (Some 0%nat)]> ∅).

Definition nestedRank (r : ref) : nat :=
  match r with
  | 0%nat => 2%nat
  | 1%nat => 1%nat
  | _ => 0%nat
  end.

(** An assignment from outside between two frames:
    [container.width = 200] on the object 0. *)
Definition widen (s : Heap) : Heap := alter (View.with_width 200) 0%nat s.

(** ** Sequences of tree calls *)

(** A call of one of the two mutators of a container. *)
Inductive TreeCall :=
| CallAdd (this view : ref)
| CallRemove (this view : ref).

(** The heap a call leaves behind, whether it returned or threw. *)
Definition heapAfter (r : Completion) : Heap :=
  match r with
  | Normal s => s
  | Throw _ s => s
  end.

(** One call, by a caller that catches the error of [addChild]. *)
Definition treeCall (s : Heap) (call : TreeCall) : option Heap :=
  match call with
  | CallAdd this view => heapAfter <$> addChild this view s
  | CallRemove this view => removeChild this view s
  end.

(** A sequence of calls, one after the other. *)
Fixpoint treeCalls (calls : list TreeCall) (s : Heap) : option Heap :=
  match calls with
  | [] => Some s
  | call :: rest => treeCall s call ≫= treeCalls rest
  end.

(** A decision procedure for [ownershipConsistent] on a given heap. *)
Definition ownershipConsistentb (s : Heap) : bool :=
  forallb
    (λ entry : ref * View.t,
       match asContainer entry.2 with
       | Some c =>
         bool_decide (NoDup (Container.views c)) &&
         forallb
           (λ v, bool_decide (owner s v = Some (Some entry.1)))
           (Container.views c)
       | None => true
       end)
    (map_to_list s).

(** ** Descendants *)

(** [below s d r]: the object [r] is a child of [d], or a child of an
    object below [d]. *)
Inductive below (s : Heap) (d : ref) : ref → Prop :=
| below_child (r : ref) : r ∈ children s d → below s d r
| below_step (w r : ref) : below s d w → r ∈ children s w → below s d r.

(** The container [e] has every child where [Container.draw] puts it: at
    the corner of the content box of [e] offset by the relative origin
    recorded for the child. *)
Definition placedIn (s : Heap) (e : ref) : Prop :=
  ∀ v, v ∈ children s e →
    ∃ o p, contentOrigin s e = Some o ∧
           relativePoint s e v = Some p ∧
           position s v = Some (offsetBy o p).

(** What no [draw] changes: the shape of the heap and the relative
    origins already recorded. *)
Definition structureKept (s s' : Heap) : Prop :=
  sameShape s s' ∧
  ∀ e k q, relativePoint s e k = Some q → relativePoint s' e k = Some q.

(** A container without owner, children or layout manager. *)
Definition loneContainer : Heap :=
  <[0%nat := containerView 0 0 100 100 None [] None 0 0]> ∅.

(** ** Layout, up to placement *)

(** An object after its [measure], with its position forgotten: all that
    the flow layout reads of it. *)
Definition unplaced (v : View.t) : View.t :=
  View.with_y 0 (View.with_x 0 (measure v)).

(** Two heaps that the flow layout cannot tell apart. *)
Definition sameUnplaced (s s' : Heap) : Prop :=
  ∀ r, unplaced <$> s !! r = unplaced <$> s' !! r.

(** A handler that changes the heap: it moves the view 1 to [x = 0]. *)
Definition nudge : Handler := λ _ s, alter (View.with_x 0) 1%nat s.

(** The children of a container with a flow layout are as their
    [measure] leaves them. *)
Definition measuredIn (s : Heap) (e : ref) : Prop :=
  ∀ c hs vs v vv,
    getContainer s e = Some c →
    Container.layoutManager c = Some (FlowLayoutManager hs vs) →
    v ∈ Container.views c → s !! v = Some vv → measure vv = vv.

(** A container as a [draw] leaves it. *)
Definition settled (s : Heap) (e : ref) : Prop :=
  placedIn s e ∧ measuredIn s e.

(** [a] is the heap [s] but for the position of some of the objects of
    the list [l]. *)
Definition displaced (l : list ref) (s a : Heap) : Prop :=
  ∀ r, a !! r = s !! r ∨
       (r ∈ l ∧ ∃ vs x y, s !! r = Some vs ∧
                          a !! r = Some (View.with_y y (View.with_x x vs))).

(** ** Painting *)

(** The [bg] field of a view, by what [typeof] says of it: anything
    else than a string or a function (as the [null] the constructor
    assigns), a colour string, or a painter function.  A painter is an
    external callback, named by a number. *)
Inductive Background :=
| BgNone
| BgColor (color : string)
| BgPainter (painter : nat).

(** The [border] object [{width, color}]. *)
Module Border.
Record t := mk { width : float; color : string }.
End Border.

(** The fields of an object that only painting reads: [bg] and [border]
    ([None] for a [border] set to [null]) of every view, and [text],
    [fontColor] and [font] of a label.  They are kept beside the heap,
    by object identity. *)
Module Style.
Record t := mk {
  bg : Background;
  border : option Border.t;
  text : string;
  fontColor : string;
  font : string
}.
End Style.

Abbreviation Styles := (ref → Style.t).

(** The calls made on the canvas context.  [SetFont size font] is the
    assignment of the string [`${size}px ${font}`]. *)
Inductive Command :=
| SetFillStyle (color : string)
| FillRect (x y width height : float)
| SetStrokeStyle (color : string)
| SetLineWidth (width : float)
| StrokeRect (x y width height : float)
| SetFont (fontSize : float) (font : string)
| SetTextBaseline (baseline : string)
| FillText (text : string) (x y : float)
| CallPainter (painter : nat) (view : ref)
| Save
| Restore
| ClearRect (x y width height : float).

(** [View._drawBg(context)]. *)
Definition drawBg (st : Style.t) (this : ref) (v : View.t) : list Command :=
  match Style.bg st with
  | BgPainter painter => [CallPainter painter this]
  | BgColor color =>
    [SetFillStyle color;
     FillRect (View.x v) (View.y v) (View.width v) (View.height v)]
  | BgNone => []
  end.

(** [View._drawBorder(context)]. *)
Definition drawBorder (st : Style.t) (v : View.t) : list Command :=
  match Style.border st with
  | Some border =>
    if 0 <? Border.width border
    then [SetStrokeStyle (Border.color border);
          SetLineWidth (Border.width border);
          StrokeRect (View.x v) (View.y v) (View.width v) (View.height v)]
    else []
  | None => []
  end.

(** [View.draw(context)]. *)
Definition viewDraw (st : Style.t) (this : ref) (v : View.t) : list Command :=
  drawBg st this v ++ drawBorder st v.

(** [Label.draw(context)]. *)
Definition labelDraw (st : Style.t) (this : ref) (v : View.t) (l : Label.t)
  : list Command :=
  viewDraw st this v ++
  [SetFillStyle (Style.fontColor st);
   SetFont (Label.fontSize l) (Style.font st);
   SetTextBaseline "top";
   FillText (Style.text st)
     (View.x v + Label.padding l / 2) (View.y v + Label.padding l / 2)].

(** What [measure(context)] does to the context: [Label.measure] assigns
    the font before it asks for the text metrics. *)
Definition measureLog (st : Style.t) (v : View.t) : list Command :=
  match View.kind v with
  | KLabel l => [SetFont (Label.fontSize l) (Style.font st)]
  | _ => []
  end.

(** A heap together with the calls made on the context so far. *)
Abbreviation Painted := (Heap * list Command)%type.

(** One turn of the loop of [FlowLayoutManager.layout], with the calls
    on the context. *)
Definition flowStepLog (styles : Styles) (hs vs availableWidth : float)
    (st : float * float * Painted) (view : ref) : option (float * float * Painted) :=
  let '(x, y, (s, log)) := st in
  v ← s !! view;
  '(x', y', s') ← flowStep hs vs availableWidth (x, y, s) view;
  Some (x', y', (s', log ++ measureLog (styles view) v)).

(** [layoutManager.layout(container, context)], with the calls on the
    context. *)
Definition layoutLog (styles : Styles) (lm : LayoutManager) (container : ref)
    (st : Painted) : option Painted :=
  match lm with
  | BaseLayoutManager => Some st
  | FlowLayoutManager hs vs =>
    t ← st.1 !! container;
    c ← asContainer t;
    let availableWidth :=
      View.width t - (Container.paddingLeft c + Container.paddingRight c) in
    snd <$> forEachM (flowStepLog styles hs vs availableWidth)
              (Container.views c) (0, 0, st)
  end.

(** The body of the [forEach] in [Container.draw], with the calls on the
    context: the child is drawn between [save] and [restore]. *)
Definition drawChildLog (drawView : ref → Painted → option Painted)
    (this : ref) (st : Painted) (view : ref) : option Painted :=
  s3 ← placeChild this st.1 view;
  st4 ← drawView view (s3, st.2 ++ [Save]);
  Some (st4.1, st4.2 ++ [Restore]).

(** [draw(context)] with the calls on the context, dispatched on the
    class of [this]. *)
Fixpoint drawLog (styles : Styles) (fuel : nat) (this : ref) (st : Painted)
  : option Painted :=
  match fuel with
  | O => None
  | S fuel' =>
    t ← st.1 !! this;
    match View.kind t with
    | KContainer c =>
      let own := (st.1, st.2 ++ viewDraw (styles this) this t) in
      st1 ← match Container.layoutManager c with
            | Some lm => layoutLog styles lm this own
            | None => Some own
            end;
      c1 ← getContainer st1.1 this;
      forEachM (drawChildLog (drawLog styles fuel') this)
        (Container.views c1) st1
    | KLabel l => Some (st.1, st.2 ++ labelDraw (styles this) this t l)
    | KView => Some (st.1, st.2 ++ viewDraw (styles this) this t)
    end
  end.

(** One frame of [Drawer.run]: clear the rectangle of the root
    container, then draw it.  Scheduling the next frame is left to the
    browser. *)
Definition runFrame (styles : Styles) (fuel : nat) (container : ref)
    (s : Heap) : option Painted :=
  t ← s !! container;
  drawLog styles fuel container
    (s, [ClearRect (View.x t) (View.y t) (View.width t) (View.height t)]).

(** The depth of [save] calls still open after a run of calls that
    starts at the given depth; [None] when a [restore] finds none
    open. *)
Fixpoint saveDepth (log : list Command) (depth : nat) : option nat :=
  match log with
  | [] => Some depth
  | Save :: rest => saveDepth rest (S depth)
  | Restore :: rest =>
    match depth with
    | O => None
    | S depth' => saveDepth rest depth'
    end
  | _ :: rest => saveDepth rest depth
  end.

(** The rectangle a call fills or strokes, if it does. *)
Definition rectangleOf (cmd : Command) : option (float * float * float * float) :=
  match cmd with
  | FillRect x y w h => Some (x, y, w, h)
  | StrokeRect x y w h => Some (x, y, w, h)
  | _ => None
  end.

(** Paint fields for the sample trees: the root has a colour and a
    border, the container 1 a painter, everything else a colour. *)
Definition sampleStyles : Styles :=
  λ r, match r with
       | 0%nat => Style.mk (BgColor "#eee") (Some (Border.mk 1 "#000")) "" "" ""
       | 1%nat => Style.mk (BgPainter 7) (Some (Border.mk 0 "#000")) "" "" ""
       | _ => Style.mk (BgColor "#abc") None "" "" ""
       end.

(** A run of calls that leaves the depth of open [save] calls as it
    found it, whatever that depth, and never closes more than it
    opened. *)
Definition neutral (log : list Command) : Prop :=
  ∀ depth, saveDepth log depth = Some depth.

(** Every rectangle filled or stroked by the calls [log] is the bounds,
    in the heap [s'], of the object [d] or of an object below [d] in the
    heap [s]. *)
Definition rectanglesWithin (s : Heap) (d : ref) (s' : Heap)
    (log : list Command) : Prop :=
  ∀ cmd rect, cmd ∈ log → rectangleOf cmd = Some rect →
    ∃ r, (r = d ∨ below s d r) ∧ geometry <$> s' !! r = Some rect.

(** * Properties *)

(** ** Numbers *)

(** What the proofs below use of binary64 arithmetic: additions commute,
    adding zero changes nothing but the sign of a zero, and no
    comparison sees that sign. *)

Lemma Prim2SF_zero : Prim2SF 0 = S754_zero false.
Proof. reflexivity. Qed.

Lemma add_comm (a b : float) : a + b = b + a.
Proof.
  apply Prim2SF_inj. rewrite !add_spec. unfold SF64add, SFadd.
  destruct (Prim2SF a) as [[]|[]| |sa ma ea], (Prim2SF b) as [[]|[]| |sb mb eb];
    try reflexivity.
  by rewrite Z.min_comm, Z.add_comm.
Qed.

Lemma add_zero_r (a : float) : a ≠ neg_zero → a + 0 = a.
Proof.
  intros Ha. apply Prim2SF_inj. rewrite add_spec, Prim2SF_zero.
  destruct (Prim2SF a) as [[]|[]| |sa ma ea] eqn:E; try reflexivity.
  destruct Ha. apply Prim2SF_inj. by rewrite E.
Qed.

Lemma add_zero_l (a : float) : a ≠ neg_zero → 0 + a = a.
Proof. intros Ha. rewrite add_comm. by apply add_zero_r. Qed.

Lemma ltb_add_zero_r (a b : float) : (a <? b + 0) = (a <? b).
Proof.
  rewrite !ltb_spec, add_spec, Prim2SF_zero. unfold SFltb.
  destruct (Prim2SF b) as [[]|[]| |sb mb eb]; try reflexivity;
    destruct (Prim2SF a) as [[]|[]| |sa ma ea]; reflexivity.
Qed.

Lemma ltb_zero_add (a b : float) : (a <? 0 + b) = (a <? b).
Proof. rewrite add_comm. apply ltb_add_zero_r. Qed.

(** ** Hit-testing *)

(** C8. [isIntersect(x, y)] is true exactly when [x] lies in the closed
    interval [[view.x, view.x + view.width]] and [y] in
    [[view.y, view.y + view.height]], the sums being the numbers the
    source computes; for a view at (10,10) of size 20 by 20 the points
    (10,10), (30,30), (20,20) are inside and (9,10), (31,20) are
    outside. *)
Theorem isIntersect_closed_box (v : View.t) (px py : float) :
  (isIntersect v px py = true ↔
     inClosed (View.x v) (View.x v + View.width v) px ∧
     inClosed (View.y v) (View.y v + View.height v) py) ∧
  (∀ p k, let w := View.mk 10 10 20 20 p k in
     isIntersect w 10 10 = true ∧ isIntersect w 30 30 = true ∧
     isIntersect w 20 20 = true ∧
     isIntersect w 9 10 = false ∧ isIntersect w 31 20 = false).
Proof.
  split.
  - unfold isIntersect, inClosed, numLe.
    rewrite !andb_true_iff. tauto.
  - intros p k w. repeat split; reflexivity.
Qed.

(** The right edge is the sum as binary64 rounds it: at [x = 2^53] and
    width 3 the edge is [2^53 + 4], and the point there is inside; a
    [NaN] coordinate is in no view. *)
Lemma isIntersect_rounded_edge (p : option ref) (k : Kind) :
  isIntersect (View.mk 9007199254740992 0 3 10 p k) 9007199254740996 0 = true ∧
  isIntersect (View.mk 0 0 10 10 p k) nan 5 = false.
Proof. split; reflexivity. Qed.

(** ** Ownership *)

Lemma getContainer_Some (s : Heap) (r : ref) (c : Container.t) :
  getContainer s r = Some c ↔
  ∃ t, s !! r = Some t ∧ View.kind t = KContainer c.
Proof.
  unfold getContainer, asContainer. split.
  - destruct (s !! r) as [t|] eqn:E; simpl; [|done].
    destruct (View.kind t) eqn:K; try done. intros [= ->]. eauto.
  - intros (t & -> & K). simpl. by rewrite K.
Qed.

Lemma children_Some (s : Heap) (r : ref) (c : Container.t) :
  getContainer s r = Some c → children s r = Container.views c.
Proof. unfold children. by intros ->. Qed.

(** C2. [addChild(view)] throws exactly when the view already has an
    owner; the heap at the throw is the heap before the call, so the
    view's owner and the container's child sequence are unchanged;
    otherwise the call sets the view's owner to the container and
    appends the view to the end of the child sequence. *)
Theorem addChild_ownership (s : Heap) (this view : ref)
    (c : Container.t) (v : View.t) :
  getContainer s this = Some c →
  s !! view = Some v →
  ((∃ message s', addChild this view s = Some (Throw message s')) ↔
     View.parent v ≠ None) ∧
  (∀ message s', addChild this view s = Some (Throw message s') →
     message = "the view has related a container."%string ∧ s' = s) ∧
  (View.parent v = None →
     ∃ s', addChild this view s = Some (Normal s') ∧
           owner s' view = Some (Some this) ∧
           children s' this = Container.views c ++ [view]).
Proof.
  intros Hc Hv. unfold addChild. rewrite Hc, Hv. simpl.
  destruct (View.parent v) as [p|] eqn:Hp.
  - split; [|split].
    + split; [done|]. eauto.
    + by intros ?? [= <- <-].
    + done.
  - split; [|split].
    + split; [|done]. by intros (? & ? & ?).
    + done.
    + intros _. eexists. split; [done|].
      apply getContainer_Some in Hc as (t & Ht & Hk).
      split.
      * unfold owner. destruct (decide (this = view)) as [->|Hne].
        -- rewrite !lookup_alter_eq, Hv. simpl.
           unfold onContainer. simpl.
           by destruct (View.kind v).
        -- rewrite lookup_alter_ne, lookup_alter_eq, Hv by done. done.
      * unfold children, getContainer.
        rewrite lookup_alter_eq.
        destruct (decide (this = view)) as [->|Hne].
        -- rewrite lookup_alter_eq, Hv. simpl.
           assert (t = v) as -> by congruence.
           unfold asContainer, onContainer. simpl. rewrite Hk. done.
        -- rewrite lookup_alter_ne, Ht by done. simpl.
           unfold asContainer, onContainer. rewrite Hk. done.
Qed.

Lemma indexOf_None (l : list ref) (r : ref) :
  r ∉ l → indexOf l r = None.
Proof.
  intros Hr. unfold indexOf.
  destruct (list_find _ l) as [[i r']|] eqn:E; [|done].
  apply list_find_Some in E as (Hi & -> & _).
  exfalso. apply Hr. eapply list_elem_of_lookup_2. exact Hi.
Qed.

Lemma indexOf_Some (l : list ref) (r : ref) :
  r ∈ l →
  ∃ i, indexOf l r = Some i ∧ l !! i = Some r ∧
       ∀ j, (j < i)%nat → l !! j ≠ Some r.
Proof.
  intros Hr. unfold indexOf.
  destruct (list_find_elem_of (λ r', r' = r) l r Hr eq_refl) as [[i r'] E].
  rewrite E. exists i. split; [done|].
  apply list_find_Some in E as (Hi & -> & Hj).
  split; [done|]. intros j Hlt Hjr. by apply (Hj j r).
Qed.

(** C10. [removeChild(view)] on a view that is not in the child sequence
    returns normally and leaves the whole heap as it was: the child
    sequence, the relative origins and the view's owner, whoever owns
    it. *)
Theorem removeChild_absent_noop (s : Heap) (this view : ref)
    (c : Container.t) :
  getContainer s this = Some c →
  view ∉ Container.views c →
  removeChild this view s = Some s.
Proof.
  intros Hc Hv. unfold removeChild. rewrite Hc. simpl.
  by rewrite indexOf_None.
Qed.

Lemma removeChild_absent_noop_witness :
  removeChild 3%nat 1%nat twoContainers = Some twoContainers ∧
  owner twoContainers 1%nat = Some (Some 0%nat).
Proof.
  split; [|reflexivity].
  apply (removeChild_absent_noop twoContainers 3%nat 1%nat
           (Container.mk [4%nat] None ∅ 0 0 0 0)).
  - reflexivity.
  - simpl. intros H. apply list_elem_of_In in H. simpl in H. lia.
Defined.

Lemma addChild_ownership_witness :
  ∃ s', addChild 3%nat 5%nat twoContainers = Some (Normal s') ∧
        owner s' 5%nat = Some (Some 3%nat) ∧
        children s' 3%nat = [4%nat; 5%nat].
Proof.
  destruct (addChild_ownership twoContainers 3%nat 5%nat
              (Container.mk [4%nat] None ∅ 0 0 0 0)
              (plainView 2 2 5 5 None)) as (_ & _ & H);
    [reflexivity | reflexivity |].
  apply H. reflexivity.
Defined.

(** ** Flow layout *)

Local Arguments flowStep : simpl never.

Lemma forEachM_app {S : Type} (body : S → ref → option S) (l1 l2 : list ref)
    (s : S) :
  forEachM body (l1 ++ l2) s = forEachM body l1 s ≫= forEachM body l2.
Proof.
  revert s. induction l1 as [|r l1 IH]; intros s; simpl; [done|].
  destruct (body s r) as [s1|]; simpl; [apply IH|done].
Qed.

Lemma fixedPart_measure (v : View.t) : fixedPart (measure v) = fixedPart v.
Proof. unfold measure. by destruct (View.kind v). Qed.

Lemma flowStep_Some hs vs aw x y (s : Heap) view v :
  s !! view = Some v →
  flowStep hs vs aw (x, y, s) view =
    let v1 := measure v in
    let occupy := hs + View.width v1 in
    let x1 := if aw <? occupy + x then 0 else x in
    let y1 := if aw <? occupy + x then y + (View.height v1 + vs) else y in
    Some (x1 + (occupy + hs), y1,
          <[view := View.with_y y1 (View.with_x x1 v1)]> s).
Proof.
  intros Hv. unfold flowStep. rewrite Hv. simpl.
  by destruct (_ <? _).
Qed.

Lemma flowStep_inv hs vs aw x y (s : Heap) view x' y' s' :
  flowStep hs vs aw (x, y, s) view = Some (x', y', s') →
  ∃ v x1 y1, s !! view = Some v ∧
    s' = <[view := View.with_y y1 (View.with_x x1 (measure v))]> s.
Proof.
  unfold flowStep. destruct (s !! view) as [v|]; simpl; [|done].
  destruct (_ <? _); intros ?; simplify_eq; eauto.
Qed.

Lemma flowLoop_frame hs vs aw l x y (s : Heap) x' y' s' r :
  flowLoop hs vs aw l (x, y, s) = Some (x', y', s') →
  r ∉ l → s' !! r = s !! r.
Proof.
  unfold flowLoop. revert x y s.
  induction l as [|w l IH]; intros x y s; simpl.
  - intros ? ?. by simplify_eq.
  - destruct (flowStep hs vs aw (x, y, s) w) as [[[x1 y1] s1]|] eqn:E;
      simpl; [|done].
    intros Hl Hr. apply not_elem_of_cons in Hr as [Hne Hr].
    rewrite (IH _ _ _ Hl Hr).
    apply flowStep_inv in E as (v & ? & ? & _ & ->).
    by rewrite lookup_insert_ne.
Qed.

Lemma flowLoop_fixed hs vs aw l x y (s : Heap) x' y' s' r :
  flowLoop hs vs aw l (x, y, s) = Some (x', y', s') →
  fixedPart <$> s' !! r = fixedPart <$> s !! r.
Proof.
  unfold flowLoop. revert x y s.
  induction l as [|w l IH]; intros x y s; simpl.
  - intros ?. by simplify_eq.
  - destruct (flowStep hs vs aw (x, y, s) w) as [[[x1 y1] s1]|] eqn:E;
      simpl; [|done].
    intros Hl. rewrite (IH _ _ _ Hl).
    apply flowStep_inv in E as (v & ? & ? & Hv & ->).
    destruct (decide (w = r)) as [->|Hne].
    + rewrite lookup_insert_eq, Hv. simpl. f_equal.
      apply fixedPart_measure.
    + by rewrite lookup_insert_ne.
Qed.

Lemma flowLoop_total hs vs aw l x y (s : Heap) :
  (∀ r, r ∈ l → is_Some (s !! r)) →
  is_Some (flowLoop hs vs aw l (x, y, s)).
Proof.
  unfold flowLoop. revert x y s.
  induction l as [|w l IH]; intros x y s Hl; simpl; [done|].
  destruct (Hl w) as [v Hv]; [left|].
  rewrite (flowStep_Some _ _ _ _ _ _ _ _ Hv). simpl.
  apply IH. intros r Hr.
  destruct (decide (w = r)) as [->|Hne].
  - rewrite lookup_insert_eq. done.
  - rewrite lookup_insert_ne by done. apply Hl. by right.
Qed.

Lemma layout_flow_unfold hs vs (s : Heap) this t c :
  s !! this = Some t → View.kind t = KContainer c →
  layout (FlowLayoutManager hs vs) this s =
    snd <$> flowLoop hs vs
              (View.width t - (Container.paddingLeft c + Container.paddingRight c))
              (Container.views c) (0, 0, s).
Proof.
  intros Ht Hk. unfold layout. rewrite Ht. simpl.
  unfold asContainer. rewrite Hk. done.
Qed.

(** C3, as the code has it.  When the flow loop reaches a child and
    [occupyWidth + cursor.x] exceeds the available content width, the
    child is placed at [x = 0] and at [cursor.y] advanced by the height
    of the child being placed (after its [measure]) plus the vertical
    gap, and the cursor moves on from there; when it does not exceed,
    the child is placed at the cursor and the row is kept. *)
Theorem flow_wrap_by_current_height (hs vs : float) (s : Heap) (this : ref)
    (t : View.t) (c : Container.t) (pre post : list ref) (view : ref) :
  s !! this = Some t →
  View.kind t = KContainer c →
  Container.views c = pre ++ view :: post →
  view ∉ post →
  (∀ r, r ∈ Container.views c → is_Some (s !! r)) →
  ∃ s' x y s1 v,
    layout (FlowLayoutManager hs vs) this s = Some s' ∧
    flowCursor hs vs t c pre s = Some (x, y, s1) ∧
    s1 !! view = Some v ∧
    let availableWidth :=
      View.width t - (Container.paddingLeft c + Container.paddingRight c) in
    let occupyWidth := hs + View.width (measure v) in
    (numGt (occupyWidth + x) availableWidth →
       position s' view = Some (0, y + (View.height (measure v) + vs)) ∧
       ∃ s2, flowCursor hs vs t c (pre ++ [view]) s =
               Some (0 + (occupyWidth + hs),
                     y + (View.height (measure v) + vs), s2)) ∧
    (¬ numGt (occupyWidth + x) availableWidth →
       position s' view = Some (x, y) ∧
       ∃ s2, flowCursor hs vs t c (pre ++ [view]) s =
               Some (x + (occupyWidth + hs), y, s2)).
Proof.
  intros Ht Hk Hviews Hpost Hall.
  rewrite (layout_flow_unfold _ _ _ _ _ _ Ht Hk).
  unfold flowCursor.
  set (aw := View.width t - _).
  destruct (flowLoop_total hs vs aw (Container.views c) 0 0 s Hall)
    as [[[xf yf] sf] Hf].
  rewrite Hf. simpl.
  pose proof Hf as Hf'. unfold flowLoop in Hf'.
  rewrite Hviews, forEachM_app in Hf'.
  destruct (forEachM _ pre _) as [[[x y] s1]|] eqn:Epre; simpl in Hf'; [|done].
  assert (is_Some (s1 !! view)) as [v Hv].
  { destruct (Hall view) as [v0 Hv0].
    - rewrite Hviews. apply elem_of_app. right. left.
    - pose proof (flowLoop_fixed _ _ _ _ _ _ _ _ _ _ view Epre) as Hfx.
      rewrite Hv0 in Hfx. destruct (s1 !! view); [eauto|done]. }
  exists sf, x, y, s1, v. split; [done|]. split; [done|]. split; [done|].
  change (forEachM (flowStep hs vs aw) post) with (flowLoop hs vs aw post)
    in Hf'.
  rewrite (flowStep_Some _ _ _ _ _ _ _ _ Hv) in Hf'. simpl in Hf'.
  pose proof (flowLoop_frame _ _ _ _ _ _ _ _ _ _ view Hf' Hpost) as Hfr.
  rewrite lookup_insert_eq in Hfr.
  unfold position. rewrite Hfr. simpl.
  unfold flowLoop. rewrite forEachM_app, Epre. simpl.
  rewrite (flowStep_Some _ _ _ _ _ _ _ _ Hv). simpl.
  split; intros Hcmp.
  - unfold numGt in Hcmp. rewrite Hcmp.
    split; [done|]. eauto.
  - apply not_true_is_false in Hcmp. rewrite Hcmp.
    split; [done|]. eauto.
Qed.

Lemma flow_wrap_by_current_height_witness :
  ∃ s', layout (FlowLayoutManager 0 0) 0%nat flowRows = Some s' ∧
        position s' 2%nat = Some (0, 30).
Proof.
  destruct (flow_wrap_by_current_height 0 0 flowRows 0%nat
              (containerView 0 0 100 100 None [1%nat; 2%nat]
                 (Some (FlowLayoutManager 0 0)) 0 0)
              (Container.mk [1%nat; 2%nat] (Some (FlowLayoutManager 0 0))
                 ∅ 0 0 0 0)
              [1%nat] [] 2%nat)
    as (s' & x & y & s1 & v & Hl & Hc & Hv & Hwrap & _).
  - reflexivity.
  - reflexivity.
  - reflexivity.
  - apply not_elem_of_nil.
  - intros r Hr. apply list_elem_of_In in Hr. simpl in Hr.
    destruct Hr as [<-|[<-|[]]]; vm_compute; eauto.
  - exists s'. split; [exact Hl|].
    vm_compute in Hc. injection Hc as <- <- <-.
    vm_compute in Hv. injection Hv as <-.
    apply Hwrap. vm_compute. reflexivity.
Defined.

(** C3, counterexample.  The second view of [flowRows] does not fit
    after the first, whose height is 10; the wrap puts it at [y = 30],
    its own height, and not at [y = 10], the height of the child of the
    previous row. *)
Lemma flow_wrap_not_previous_row_height :
  ∃ s', layout (FlowLayoutManager 0 0) 0%nat flowRows = Some s' ∧
        position s' 1%nat = Some (0, 0) ∧
        View.height <$> s' !! 1%nat = Some 10 ∧
        position s' 2%nat = Some (0, 30) ∧
        position s' 2%nat ≠ Some (0, 0 + (10 + 0)).
Proof.
  eexists. split; [vm_compute; reflexivity|].
  repeat split; try (vm_compute; reflexivity).
  vm_compute. discriminate.
Qed.

(** C4, as the code has it.  For a container whose child sequence is a
    single child, the layout pass returns normally.  When the child
    with its horizontal gap is wider than the available content width,
    and so when there is no gap and the child is wider than it, the
    child is placed at [x = 0] and at [y = 0 + (height +
    verticalSpace)], which is [height + verticalSpace] unless that is
    the negative zero: the wrap test succeeds at the first turn as at
    any other. *)
Theorem flow_single_wide_child (hs vs : float) (s : Heap) (this view : ref)
    (t v : View.t) (c : Container.t) :
  s !! this = Some t →
  View.kind t = KContainer c →
  Container.views c = [view] →
  s !! view = Some v →
  let availableWidth :=
    View.width t - (Container.paddingLeft c + Container.paddingRight c) in
  let y := 0 + (View.height (measure v) + vs) in
  ∃ s', layout (FlowLayoutManager hs vs) this s = Some s' ∧
        (numGt (hs + View.width (measure v)) availableWidth →
           position s' view = Some (0, y)) ∧
        (hs = 0 → numGt (View.width (measure v)) availableWidth →
           position s' view = Some (0, y)) ∧
        (View.height (measure v) + vs ≠ neg_zero →
           y = View.height (measure v) + vs).
Proof.
  intros Ht Hk Hviews Hv aw y.
  rewrite (layout_flow_unfold _ _ _ _ _ _ Ht Hk), Hviews.
  unfold flowLoop. cbn [forEachM].
  rewrite (flowStep_Some _ _ _ _ _ _ _ _ Hv). cbn zeta. simpl.
  eexists. split; [done|].
  assert (numGt (hs + View.width (measure v)) aw →
          position (<[view := View.with_y
                     (if aw <? hs + View.width (measure v) + 0
                      then 0 + (View.height (measure v) + vs) else 0)
                     (View.with_x
                        (if aw <? hs + View.width (measure v) + 0
                         then 0 else 0) (measure v))]> s) view
          = Some (0, y)) as Hwide.
  { unfold numGt. intros Hwide.
    rewrite ltb_add_zero_r. fold aw. rewrite Hwide.
    unfold position. by rewrite lookup_insert_eq. }
  split; [exact Hwide|]. split.
  - intros -> Hgt. apply Hwide. unfold numGt. by rewrite ltb_zero_add.
  - apply add_zero_l.
Qed.

Lemma flow_single_wide_child_witness :
  ∃ s', layout (FlowLayoutManager 0 0) 0%nat wideChild = Some s' ∧
        position s' 1%nat = Some (0, 20).
Proof.
  destruct (flow_single_wide_child 0 0 wideChild 0%nat 1%nat
              (containerView 0 0 100 100 None [1%nat]
                 (Some (FlowLayoutManager 0 0)) 0 0)
              (plainView 0 0 150 20 (Some 0%nat))
              (Container.mk [1%nat] (Some (FlowLayoutManager 0 0)) ∅ 0 0 0 0))
    as (s' & Hl & _ & Hwide & _); try reflexivity.
  exists s'. split; [exact Hl|].
  apply Hwide; reflexivity.
Defined.

(** C4, counterexample.  The lone view of [wideChild], 150 wide in a
    content box of width 100, is placed by the layout pass at (0, 20),
    one height of its own below the origin, and not at (0, 0). *)
Lemma flow_single_wide_child_not_at_origin :
  ∃ s', layout (FlowLayoutManager 0 0) 0%nat wideChild = Some s' ∧
        position s' 1%nat = Some (0, 20) ∧
        position s' 1%nat ≠ Some (0, 0).
Proof.
  eexists. split; [vm_compute; reflexivity|].
  split; [vm_compute; reflexivity|].
  vm_compute. discriminate.
Qed.

(** C9. With both gaps 0 and a content width of 100, the flow layout of
    three children of width 40 puts the first at [x = 0], the second at
    [x = 40], both on the row [y = 0], and wraps the third to [x = 0] on
    a new row, [y] advanced by the third child's height: to
    [0 + (height + 0)], which is the height itself unless that is the
    negative zero. *)
Theorem flow_three_children_of_40 (s : Heap) (this a b d : ref)
    (t va vb vd : View.t) (c : Container.t) :
  s !! this = Some t →
  View.kind t = KContainer c →
  Container.views c = [a; b; d] →
  View.width t - (Container.paddingLeft c + Container.paddingRight c) = 100 →
  a ≠ b → a ≠ d → b ≠ d →
  s !! a = Some va → s !! b = Some vb → s !! d = Some vd →
  View.width (measure va) = 40 →
  View.width (measure vb) = 40 →
  View.width (measure vd) = 40 →
  ∃ s', layout (FlowLayoutManager 0 0) this s = Some s' ∧
        position s' a = Some (0, 0) ∧
        position s' b = Some (40, 0) ∧
        position s' d = Some (0, 0 + (View.height (measure vd) + 0)) ∧
        (View.height (measure vd) ≠ neg_zero →
           position s' d = Some (0, View.height (measure vd))).
Proof.
  intros Ht Hk Hviews Haw Hab Had Hbd Ha Hb Hd Hwa Hwb Hwd.
  rewrite (layout_flow_unfold _ _ _ _ _ _ Ht Hk), Hviews, Haw.
  unfold flowLoop. cbn [forEachM].
  rewrite (flowStep_Some _ _ _ _ _ _ _ _ Ha). cbn zeta. rewrite Hwa.
  change (100 <? 0 + 40 + 0) with false. cbn [mbind option_bind].
  change (0 + (0 + 40 + 0)) with 40.
  erewrite flowStep_Some by (rewrite lookup_insert_ne by done; exact Hb).
  cbn zeta. rewrite Hwb.
  change (100 <? 0 + 40 + 40) with false. cbn [mbind option_bind].
  change (40 + (0 + 40 + 0)) with 80.
  erewrite flowStep_Some by (rewrite !lookup_insert_ne by done; exact Hd).
  cbn zeta. rewrite Hwd.
  change (100 <? 0 + 40 + 80) with true. cbn [mbind option_bind fmap option_fmap option_map snd].
  eexists. split; [done|].
  unfold position.
  rewrite !lookup_insert_eq.
  rewrite (lookup_insert_ne _ d b) by done.
  rewrite (lookup_insert_ne _ d a), (lookup_insert_ne _ b a) by done.
  rewrite !lookup_insert_eq. simpl.
  repeat split.
  intros Hh. by rewrite (add_zero_r _ Hh), (add_zero_l _ Hh).
Qed.

Lemma flow_three_children_of_40_witness :
  ∃ s', layout (FlowLayoutManager 0 0) 0%nat threeForties = Some s' ∧
        position s' 1%nat = Some (0, 0) ∧
        position s' 2%nat = Some (40, 0) ∧
        position s' 3%nat = Some (0, 25).
Proof.
  destruct (flow_three_children_of_40 threeForties 0%nat 1%nat 2%nat 3%nat
           (View.mk 0 0 120 100 None
              (KContainer (Container.mk [1%nat; 2%nat; 3%nat]
                 (Some (FlowLayoutManager 0 0)) ∅ 12 0 8 0)))
           (plainView 0 0 40 10 (Some 0%nat))
           (plainView 0 0 40 15 (Some 0%nat))
           (plainView 0 0 40 25 (Some 0%nat))
           (Container.mk [1%nat; 2%nat; 3%nat]
              (Some (FlowLayoutManager 0 0)) ∅ 12 0 8 0))
    as (s' & Hl & Ha & Hb & Hd & _); try reflexivity; try lia.
  exists s'. repeat split; assumption.
Defined.

(** ** Event routing *)

Lemma hit_geometry (s s' : Heap) (event : Event.t) (view : ref) :
  geometry <$> s' !! view = geometry <$> s !! view →
  hit s' event view = hit s event view.
Proof.
  unfold hit, geometry, isIntersect.
  destruct (s' !! view) as [v'|], (s !! view) as [v|]; simpl; try done.
  by intros [= -> -> -> ->].
Qed.

Lemma filter_hit_geometry (s : Heap) (event : Event.t)
    (l : list (ref * Handler)) (s1 : Heap) :
  (∀ u, u ∈ l.*1 → geometry <$> s1 !! u = geometry <$> s !! u) →
  filter (λ entry : ref * Handler, hit s1 event entry.1 = true) l
  = filter (λ entry, hit s event entry.1 = true) l.
Proof.
  induction l as [|[u hu] l IH]; intros Hgeo; [done|].
  rewrite !filter_cons. simpl.
  rewrite (hit_geometry s s1) by (apply Hgeo; simpl; left).
  rewrite IH; [done|]. intros u' Hu'. apply Hgeo. simpl. by right.
Qed.

Lemma handleEvent_app (l1 l2 : list (ref * Handler)) (event : Event.t)
    (st : Heap * list (ref * Event.t)) :
  handleEvent (l1 ++ l2) event st
  = handleEvent l1 event st ≫= handleEvent l2 event.
Proof.
  revert st. induction l1 as [|entry l1 IH]; intros st; simpl; [done|].
  destruct (handleEntry event st entry) as [st1|]; simpl; [apply IH|done].
Qed.

(** The calls logged before a dispatch do not bear on it. *)
Lemma handleEvent_from_empty (l : list (ref * Handler)) (event : Event.t) :
  ∀ s calls,
    handleEvent l event (s, calls)
    = (λ st : Heap * list (ref * Event.t), (st.1, calls ++ st.2))
        <$> handleEvent l event (s, []).
Proof.
  induction l as [|[view h] rest IH]; intros s calls.
  - simpl. by rewrite app_nil_r.
  - simpl. destruct (s !! view) as [v|]; simpl; [|done].
    destruct (isIntersect v (Event.x event) (Event.y event)); simpl.
    + rewrite (IH _ (calls ++ [(view, event)])), (IH _ [(view, event)]).
      destruct (handleEvent rest event (h event s, [])) as [[a more]|];
        simpl; [|done].
      by rewrite <- app_assoc.
    + apply IH.
Qed.

Lemma handleEvent_total (l : list (ref * Handler)) (event : Event.t) :
  ∀ s calls,
    (∀ view, view ∈ l.*1 → is_Some (s !! view)) →
    (∀ entry u s0, entry ∈ l → is_Some (s0 !! u) →
       is_Some (entry.2 event s0 !! u)) →
    is_Some (handleEvent l event (s, calls)).
Proof.
  induction l as [|[view h] rest IH]; intros s calls Hdom Hkeep; [done|].
  simpl. destruct (Hdom view) as [v Hv]; [simpl; left|].
  rewrite Hv. simpl.
  destruct (isIntersect v (Event.x event) (Event.y event)); simpl;
    apply IH.
  - intros u Hu. apply (Hkeep (view, h)); [left|].
    apply Hdom. simpl. by right.
  - intros entry u s0 He. apply Hkeep. by right.
  - intros u Hu. apply Hdom. simpl. by right.
  - intros entry u s0 He. apply Hkeep. by right.
Qed.

Lemma handleEvent_calls (registerViews : list (ref * Handler))
    (event : Event.t) (s : Heap) (calls : list (ref * Event.t)) :
  (∀ view, view ∈ registerViews.*1 → is_Some (s !! view)) →
  (∀ entry u s0, entry ∈ registerViews → u ∈ registerViews.*1 →
     geometry <$> entry.2 event s0 !! u = geometry <$> s0 !! u) →
  let called :=
    filter (λ entry, hit s event entry.1 = true) registerViews in
  handleEvent registerViews event (s, calls) =
    Some (runHandlers event called s,
          calls ++ ((λ entry : ref * Handler, (entry.1, event)) <$> called)).
Proof.
  revert s calls.
  induction registerViews as [|[view h] rest IH]; intros s calls Hdom Hgeo.
  - simpl. by rewrite app_nil_r.
  - destruct (Hdom view) as [v Hv]; [simpl; left|].
    pose proof (filter_hit_geometry s event rest) as Hfilter.
    cbn zeta. simpl. rewrite Hv. simpl.
    rewrite filter_cons. simpl.
    assert (hit s event view = isIntersect v (Event.x event) (Event.y event))
      as Hhit by (unfold hit; by rewrite Hv).
    destruct (isIntersect v (Event.x event) (Event.y event)) eqn:Ei; simpl.
    + rewrite (IH (h event s) (calls ++ [(view, event)])).
      * rewrite decide_True by done.
        rewrite (Hfilter (h event s)).
        -- simpl. by rewrite <- app_assoc.
        -- intros u Hu. apply (Hgeo (view, h)); [left|simpl; by right].
      * intros u Hu.
        pose proof (Hgeo (view, h) u s) as Hg. simpl in Hg.
        destruct (Hdom u) as [vu Hvu]; [simpl; by right|].
        rewrite Hvu in Hg.
        destruct (h event s !! u); [done|].
        exfalso. simpl in Hg.
        assert (None = Some (geometry vu)) by (apply Hg; [left|simpl; by right]).
        done.
      * intros entry u s0 He Hu. apply Hgeo; [by right|simpl; by right].
    + rewrite (IH s calls).
      * by rewrite decide_False by (rewrite Hhit; done).
      * intros u Hu. apply Hdom. simpl. by right.
      * intros entry u s0 He Hu. apply Hgeo; [by right|simpl; by right].
Qed.

(** C7, as the code has it.  [handleEvent] goes through the registered
    pairs in the order of registration and does not stop at a pair
    whose handler it calls.  It calls the handler of a pair, with the
    event and on the heap as the handlers called before have left it,
    exactly when the view of the pair contains the event point in that
    heap, at the moment the pair is reached.  When no handler moves or
    resizes a registered view, the pairs called are exactly those whose
    view contains the point when the dispatch starts, and the heap
    after the dispatch is the heap after their handlers. *)
Theorem handleEvent_delivers_in_turn (registerViews : list (ref * Handler))
    (event : Event.t) (s : Heap) :
  (∀ view, view ∈ registerViews.*1 → is_Some (s !! view)) →
  (∀ entry u s0, entry ∈ registerViews → is_Some (s0 !! u) →
     is_Some (entry.2 event s0 !! u)) →
  ∃ s' calls,
    handleEvent registerViews event (s, []) = Some (s', calls) ∧
    (∀ pre view h post, registerViews = pre ++ (view, h) :: post →
       ∃ s0 before after,
         handleEvent pre event (s, []) = Some (s0, before) ∧
         handleEvent post event
           (if hit s0 event view then h event s0 else s0, [])
         = Some (s', after) ∧
         calls = before
                 ++ (if hit s0 event view then [(view, event)] else [])
                 ++ after) ∧
    ((∀ entry u s0, entry ∈ registerViews → u ∈ registerViews.*1 →
        geometry <$> entry.2 event s0 !! u = geometry <$> s0 !! u) →
     let called :=
       filter (λ entry, hit s event entry.1 = true) registerViews in
     calls = (λ entry : ref * Handler, (entry.1, event)) <$> called ∧
     s' = runHandlers event called s).
Proof.
  intros Hdom Hkeep.
  destruct (handleEvent_total registerViews event s [] Hdom Hkeep)
    as [[s' calls] Hrun].
  exists s', calls. split; [done|]. split.
  - intros pre view h post Hsplit.
    rewrite Hsplit, handleEvent_app in Hrun.
    destruct (handleEvent pre event (s, [])) as [[s0 before]|];
      simpl in Hrun; [|done].
    exists s0, before.
    unfold hit.
    destruct (s0 !! view) as [v|]; simpl in Hrun; [|done].
    destruct (isIntersect v (Event.x event) (Event.y event)); simpl in Hrun;
      rewrite handleEvent_from_empty in Hrun;
      destruct (handleEvent post event _) as [[a after]|];
      simpl in Hrun; [|done| |done];
      injection Hrun as -> <-; exists after.
    + split; [done|]. by rewrite <- app_assoc.
    + done.
  - intros Hgeo called.
    pose proof (handleEvent_calls registerViews event s [] Hdom Hgeo) as Hc.
    cbn zeta in Hc. rewrite Hrun in Hc. by injection Hc as -> ->.
Qed.

Lemma handleEvent_delivers_in_turn_witness :
  ∃ s', handleEvent overlappingRegistry press (overlapping, []) =
          Some (s', [(2%nat, press); (1%nat, press)]).
Proof.
  destruct (handleEvent_delivers_in_turn overlappingRegistry press
              overlapping) as (s' & calls & Hrun & _ & Hstill).
  - intros view Hview. apply list_elem_of_In in Hview. simpl in Hview.
    destruct Hview as [<-|[<-|[<-|[]]]]; vm_compute; eauto.
  - intros entry u s0 Hentry Hu. apply list_elem_of_In in Hentry.
    simpl in Hentry.
    destruct Hentry as [<-|[<-|[<-|[]]]]; exact Hu.
  - exists s'. rewrite Hrun. f_equal. f_equal.
    apply Hstill. intros entry u s0 Hentry _.
    apply list_elem_of_In in Hentry. simpl in Hentry.
    destruct Hentry as [<-|[<-|[<-|[]]]]; reflexivity.
Defined.

(** C7, counterexample.  The views 1 and 2 of [overlapping] both
    contain the point of [press] when the dispatch starts; the handler
    of the view 2, registered first, drags the view 1 away, and the
    handler of the view 1 is not called. *)
Lemma handleEvent_skips_moved_view :
  hit overlapping press 1%nat = true ∧
  hit overlapping press 2%nat = true ∧
  ∃ s', handleEvent draggingRegistry press (overlapping, [])
        = Some (s', [(2%nat, press)]) ∧
        hit s' press 1%nat = false.
Proof.
  split; [reflexivity|]. split; [reflexivity|].
  eexists. split; vm_compute; reflexivity.
Qed.

(** ** The shape of a heap *)

Lemma skeleton_fixedPart (v v' : View.t) :
  fixedPart v' = fixedPart v → skeleton v' = skeleton v.
Proof. unfold fixedPart, skeleton. by intros [= -> ->]. Qed.

Lemma skeleton_onContainer_setRelativePoint (k : ref) (p : Point.t)
    (v : View.t) :
  skeleton (onContainer (setRelativePoint k p) v) = skeleton v.
Proof. destruct v as [? ? ? ? ? []]; reflexivity. Qed.

Lemma sameShape_refl (s : Heap) : sameShape s s.
Proof. done. Qed.

Lemma sameShape_trans (s1 s2 s3 : Heap) :
  sameShape s1 s2 → sameShape s2 s3 → sameShape s1 s3.
Proof. unfold sameShape. congruence. Qed.

Lemma sameShape_sym (s1 s2 : Heap) : sameShape s1 s2 → sameShape s2 s1.
Proof. unfold sameShape. congruence. Qed.

Lemma sameShape_lookup (s s' : Heap) (r : ref) :
  sameShape s s' → skeleton <$> s' !! r = skeleton <$> s !! r.
Proof. intros H. by rewrite <- !lookup_fmap, H. Qed.

Lemma sameShape_alter (f : View.t → View.t) (r : ref) (s : Heap) :
  (∀ v, skeleton (f v) = skeleton v) → sameShape s (alter f r s).
Proof.
  intros Hf. unfold sameShape. apply map_eq. intros i.
  rewrite !lookup_fmap.
  destruct (decide (r = i)) as [->|Hne].
  - rewrite lookup_alter_eq. destruct (s !! i); simpl; [|done].
    by rewrite Hf.
  - by rewrite lookup_alter_ne.
Qed.

Lemma sameShape_fixed (s s' : Heap) :
  (∀ r, fixedPart <$> s' !! r = fixedPart <$> s !! r) → sameShape s s'.
Proof.
  intros H. unfold sameShape. apply map_eq. intros i.
  rewrite !lookup_fmap. specialize (H i).
  destruct (s' !! i) as [v'|], (s !! i) as [v|]; simpl in *; try done.
  f_equal. symmetry. apply skeleton_fixedPart. congruence.
Qed.

Lemma sameShape_is_Some (s s' : Heap) (r : ref) :
  sameShape s s' → is_Some (s !! r) → is_Some (s' !! r).
Proof.
  intros H [v Hv]. apply (sameShape_lookup _ _ r) in H.
  rewrite Hv in H. destruct (s' !! r); [eauto|done].
Qed.

Lemma sameShape_container (s s' : Heap) (r : ref) (t : View.t)
    (c : Container.t) :
  sameShape s s' → s !! r = Some t → View.kind t = KContainer c →
  ∃ t' c', s' !! r = Some t' ∧ View.kind t' = KContainer c' ∧
    View.parent t' = View.parent t ∧
    Container.views c' = Container.views c ∧
    Container.layoutManager c' = Container.layoutManager c ∧
    Container.paddingLeft c' = Container.paddingLeft c ∧
    Container.paddingTop c' = Container.paddingTop c ∧
    Container.paddingRight c' = Container.paddingRight c ∧
    Container.paddingBottom c' = Container.paddingBottom c.
Proof.
  intros H Ht Hk. apply (sameShape_lookup _ _ r) in H.
  rewrite Ht in H. destruct (s' !! r) as [t'|]; [|done].
  simpl in H. injection H as Hp Hsk.
  rewrite Hk in Hsk. exists t'.
  destruct (View.kind t') as [| |c'] eqn:Hk'; try done.
  exists c'. simpl in Hsk. injection Hsk as -> -> -> -> -> ->.
  by repeat split.
Qed.

Lemma sameShape_children (s s' : Heap) (r : ref) :
  sameShape s s' → children s' r = children s r.
Proof.
  intros H. unfold children.
  destruct (getContainer s r) as [c|] eqn:Hc.
  - apply getContainer_Some in Hc as (t & Ht & Hk).
    destruct (sameShape_container _ _ _ _ _ H Ht Hk)
      as (t' & c' & Ht' & Hk' & _ & Hv & _).
    assert (getContainer s' r = Some c') as ->
      by (apply getContainer_Some; eauto).
    done.
  - destruct (getContainer s' r) as [c'|] eqn:Hc'; [|done].
    apply getContainer_Some in Hc' as (t' & Ht' & Hk').
    destruct (sameShape_container _ _ _ _ _ (sameShape_sym _ _ H) Ht' Hk')
      as (t & c & Ht & Hk & _).
    assert (getContainer s r = Some c) by (apply getContainer_Some; eauto).
    congruence.
Qed.

Lemma sameShape_owner (s s' : Heap) (r : ref) :
  sameShape s s' → owner s' r = owner s r.
Proof.
  intros H. apply (sameShape_lookup _ _ r) in H. unfold owner.
  destruct (s' !! r) as [v'|], (s !! r) as [v|]; simpl in *; try done.
  by injection H as -> _.
Qed.

Lemma sameShape_wellFormed (rank : ref → nat) (s s' : Heap) :
  sameShape s s' → wellFormed rank s → wellFormed rank s'.
Proof.
  intros H [Hp Hr]. split; intros p v Hv;
    rewrite (sameShape_children _ _ _ H) in Hv.
  - rewrite (sameShape_owner _ _ _ H). by apply Hp.
  - by apply Hr.
Qed.

Lemma sameShape_outside (rank : ref → nat) (s s' : Heap) (d r : ref) :
  sameShape s s' → outside rank s d r → outside rank s' d r.
Proof.
  intros H Ho p Hp. apply Ho. by rewrite <- (sameShape_children _ _ _ H).
Qed.

Lemma wellFormedb_sound (rank : ref → nat) (s : Heap) :
  wellFormedb rank s = true → wellFormed rank s.
Proof.
  unfold wellFormedb. intros H.
  assert (∀ p v, v ∈ children s p →
            owner s v = Some (Some p) ∧ (rank v < rank p)%nat) as Hall.
  { intros p v Hv. unfold children in Hv.
    destruct (getContainer s p) as [c|] eqn:Hc;
      [|by apply elem_of_nil in Hv].
    apply getContainer_Some in Hc as (t & Ht & Hk).
    rewrite forallb_forall in H.
    assert (In (p, t) (map_to_list s)) as Hin
      by (apply list_elem_of_In; by apply elem_of_map_to_list).
    specialize (H (p, t) Hin). simpl in H.
    unfold asContainer in H. rewrite Hk in H.
    rewrite forallb_forall in H.
    specialize (H v (proj1 (list_elem_of_In _ _) Hv)).
    unfold owner. destruct (s !! v) as [vv|]; [|done].
    apply andb_true_iff in H as [H1 H2].
    apply bool_decide_eq_true in H1. apply Nat.ltb_lt in H2.
    simpl. by rewrite H1. }
  split; intros p v Hv; by apply Hall.
Qed.

(** ** Primitive updates seen through the observations *)

Lemma getContainer_alter_kind (f : View.t → View.t) (r e : ref) (s : Heap) :
  (∀ v, View.kind (f v) = View.kind v) →
  getContainer (alter f r s) e = getContainer s e.
Proof.
  intros Hf. unfold getContainer.
  destruct (decide (r = e)) as [->|Hne].
  - rewrite lookup_alter_eq. destruct (s !! e) as [v|]; simpl; [|done].
    unfold asContainer. by rewrite Hf.
  - by rewrite lookup_alter_ne.
Qed.

Lemma relativePoint_alter_kind (f : View.t → View.t) (r e k : ref) (s : Heap) :
  (∀ v, View.kind (f v) = View.kind v) →
  relativePoint (alter f r s) e k = relativePoint s e k.
Proof.
  intros Hf. unfold relativePoint. by rewrite getContainer_alter_kind.
Qed.

Lemma position_alter_ne (f : View.t → View.t) (r r' : ref) (s : Heap) :
  r ≠ r' → position (alter f r s) r' = position s r'.
Proof. intros Hne. unfold position. by rewrite lookup_alter_ne. Qed.

Lemma position_alter_onContainer (g : Container.t → Container.t) (r r' : ref)
    (s : Heap) :
  position (alter (onContainer g) r s) r' = position s r'.
Proof.
  unfold position. destruct (decide (r = r')) as [->|Hne].
  - rewrite lookup_alter_eq. destruct (s !! r') as [v|]; simpl; [|done].
    unfold onContainer. by destruct (View.kind v).
  - by rewrite lookup_alter_ne.
Qed.

Lemma position_alter_xy (a b : float) (r : ref) (s : Heap) :
  is_Some (s !! r) →
  position (alter (View.with_y b) r (alter (View.with_x a) r s)) r
  = Some (a, b).
Proof.
  intros [v Hv]. unfold position. rewrite !lookup_alter_eq, Hv. done.
Qed.

Lemma relativePoint_setRelativePoint (this view : ref) (p : Point.t)
    (s : Heap) (c : Container.t) (e k : ref) :
  getContainer s this = Some c →
  relativePoint (alter (onContainer (setRelativePoint view p)) this s) e k
  = if decide (e = this ∧ k = view) then Some p else relativePoint s e k.
Proof.
  intros Hc. unfold relativePoint, getContainer.
  apply getContainer_Some in Hc as (t & Ht & Hk).
  destruct (decide (this = e)) as [<-|Hne].
  - rewrite lookup_alter_eq, Ht. simpl.
    unfold asContainer, onContainer. rewrite Hk. simpl.
    destruct (decide (view = k)) as [<-|Hnk].
    + rewrite lookup_insert_eq. by rewrite decide_True.
    + rewrite lookup_insert_ne by done.
      rewrite decide_False; [done|]. intros [_ ?]. congruence.
  - rewrite lookup_alter_ne by done.
    rewrite decide_False; [done|]. intros [? _]. congruence.
Qed.

Lemma contentOrigin_Some (s : Heap) (this : ref) (t : View.t)
    (c : Container.t) :
  s !! this = Some t → View.kind t = KContainer c →
  contentOrigin s this =
    Some (Container.paddingLeft c + View.x t, Container.paddingTop c + View.y t).
Proof.
  intros Ht Hk. unfold contentOrigin. rewrite Ht. simpl.
  unfold asContainer. by rewrite Hk.
Qed.

Lemma asContainer_kind (t : View.t) (c : Container.t) :
  View.kind t = KContainer c → asContainer t = Some c.
Proof. unfold asContainer. by intros ->. Qed.

Lemma asContainer_onContainer (g : Container.t → Container.t) (t : View.t)
    (c : Container.t) :
  View.kind t = KContainer c → asContainer (onContainer g t) = Some (g c).
Proof. unfold asContainer, onContainer. intros ->. done. Qed.

Lemma x_onContainer (g : Container.t → Container.t) (t : View.t) :
  View.x (onContainer g t) = View.x t.
Proof. unfold onContainer. by destruct (View.kind t). Qed.

Lemma y_onContainer (g : Container.t → Container.t) (t : View.t) :
  View.y (onContainer g t) = View.y t.
Proof. unfold onContainer. by destruct (View.kind t). Qed.

(** ** Placing a child *)

Lemma placeChild_spec (s : Heap) (this view : ref) (t v : View.t)
    (c : Container.t) :
  s !! this = Some t → View.kind t = KContainer c →
  s !! view = Some v → view ≠ this →
  let p := default (Point.mk (View.x v) (View.y v))
                   (Container.relativePoints c !! view) in
  ∃ s3, placeChild this s view = Some s3 ∧
    sameShape s s3 ∧
    (∀ r, r ≠ view → position s3 r = position s r) ∧
    position s3 view =
      Some (offsetBy (Container.paddingLeft c + View.x t,
                      Container.paddingTop c + View.y t) p) ∧
    relativePoint s3 this view = Some p ∧
    (∀ e k, ¬ (e = this ∧ k = view) →
       relativePoint s3 e k = relativePoint s e k) ∧
    (∀ e k q, relativePoint s e k = Some q → relativePoint s3 e k = Some q).
Proof.
  intros Ht Hk Hv Hne p.
  assert (getContainer s this = Some c) as Hc
    by (apply getContainer_Some; eauto).
  unfold placeChild. rewrite Hc, Hv. simpl.
  destruct (Container.relativePoints c !! view) as [q|] eqn:Hq; simpl in p.
  - (* the origin is already recorded *)
    rewrite Ht. simpl. rewrite (asContainer_kind _ _ Hk). simpl.
    rewrite lookup_alter_ne, Ht by done. simpl.
    rewrite (asContainer_kind _ _ Hk). simpl.
    eexists. split; [done|].
    split; [|split; [|split; [|split; [|split]]]].
    + eapply sameShape_trans; apply sameShape_alter; done.
    + intros r Hr. by rewrite !position_alter_ne.
    + rewrite position_alter_xy by eauto. done.
    + rewrite !relativePoint_alter_kind by done.
      unfold relativePoint. rewrite Hc. simpl. done.
    + intros e k _. by rewrite !relativePoint_alter_kind.
    + intros e k q' Hq'. by rewrite !relativePoint_alter_kind.
  - (* the origin is captured now *)
    rewrite lookup_alter_eq, Ht. simpl.
    rewrite (asContainer_onContainer _ _ _ Hk). simpl.
    rewrite lookup_alter_ne, lookup_alter_eq, Ht by done. simpl.
    rewrite (asContainer_onContainer _ _ _ Hk). simpl.
    rewrite x_onContainer, y_onContainer.
    eexists. split; [done|].
    split; [|split; [|split; [|split; [|split]]]].
    + eapply sameShape_trans; [|eapply sameShape_trans];
        apply sameShape_alter; try done.
      apply skeleton_onContainer_setRelativePoint.
    + intros r Hr.
      rewrite !position_alter_ne by done.
      apply position_alter_onContainer.
    + rewrite position_alter_xy; [done|].
      rewrite lookup_alter_ne by done. eauto.
    + rewrite !relativePoint_alter_kind by done.
      rewrite (relativePoint_setRelativePoint _ _ _ _ c) by done.
      by rewrite decide_True.
    + intros e k Hek. rewrite !relativePoint_alter_kind by done.
      rewrite (relativePoint_setRelativePoint _ _ _ _ c) by done.
      by rewrite decide_False.
    + intros e k q' Hq'. rewrite !relativePoint_alter_kind by done.
      rewrite (relativePoint_setRelativePoint _ _ _ _ c) by done.
      case_decide as Hek; [|done].
      destruct Hek as [-> ->]. unfold relativePoint in Hq'.
      rewrite Hc in Hq'. simpl in Hq'. congruence.
Qed.

(** ** The layout pass *)

Lemma layout_fixed (lm : LayoutManager) (this : ref) (s s1 : Heap) (r : ref) :
  layout lm this s = Some s1 →
  fixedPart <$> s1 !! r = fixedPart <$> s !! r.
Proof.
  destruct lm as [|hs vs]; simpl.
  - by intros [= <-].
  - destruct (s !! this) as [t|]; simpl; [|done].
    destruct (asContainer t) as [c|]; simpl; [|done].
    destruct (flowLoop _ _ _ _ _) as [[[x y] s']|] eqn:E; simpl; [|done].
    intros [= <-]. eapply flowLoop_fixed. exact E.
Qed.

Lemma layout_frame (lm : LayoutManager) (this : ref) (s s1 : Heap) (r : ref) :
  layout lm this s = Some s1 → r ∉ children s this → s1 !! r = s !! r.
Proof.
  destruct lm as [|hs vs]; simpl.
  - by intros [= <-].
  - unfold children, getContainer.
    destruct (s !! this) as [t|]; simpl; [|done].
    destruct (asContainer t) as [c|]; simpl; [|done].
    destruct (flowLoop _ _ _ _ _) as [[[x y] s']|] eqn:E; simpl; [|done].
    intros [= <-] Hr. eapply flowLoop_frame; eauto.
Qed.

Lemma layout_total (lm : LayoutManager) (this : ref) (s : Heap) (t : View.t)
    (c : Container.t) :
  s !! this = Some t → View.kind t = KContainer c →
  (∀ r, r ∈ Container.views c → is_Some (s !! r)) →
  is_Some (layout lm this s).
Proof.
  intros Ht Hk Hall. destruct lm as [|hs vs]; [done|].
  rewrite (layout_flow_unfold _ _ _ _ _ _ Ht Hk).
  destruct (flowLoop_total hs vs
              (View.width t - (Container.paddingLeft c + Container.paddingRight c))
              (Container.views c) 0 0 s Hall) as [st Hst].
  rewrite Hst. done.
Qed.

Lemma fixed_getContainer (s s1 : Heap) (r : ref) :
  fixedPart <$> s1 !! r = fixedPart <$> s !! r →
  getContainer s1 r = getContainer s r.
Proof.
  unfold getContainer, asContainer, fixedPart.
  destruct (s1 !! r) as [v1|], (s !! r) as [v|]; simpl; try done.
  by intros [= _ ->].
Qed.

Lemma wellFormed_child_exists (rank : ref → nat) (s : Heap) (p v : ref) :
  wellFormed rank s → v ∈ children s p → is_Some (s !! v).
Proof.
  intros Hwf Hv. pose proof (wf_parent _ _ Hwf p v Hv) as Ho.
  unfold owner in Ho. destruct (s !! v); [eauto|done].
Qed.

Lemma pointAt_position (s s' : Heap) (r : ref) :
  position s' r = position s r → pointAt s' r = pointAt s r.
Proof.
  unfold position, pointAt.
  destruct (s' !! r), (s !! r); simpl; try done. by intros [= -> ->].
Qed.

Section Draw.
Variable rank : ref → nat.

Lemma keeps_refl (d : ref) (s : Heap) : keeps rank d s s.
Proof. by repeat split. Qed.

Lemma keeps_trans (d : ref) (s1 s2 s3 : Heap) :
  keeps rank d s1 s2 → keeps rank d s2 s3 → keeps rank d s1 s3.
Proof.
  intros (Hs & Hp & Hr & Hm) (Hs' & Hp' & Hr' & Hm').
  split; [|split; [|split]].
  - by eapply sameShape_trans.
  - intros r Ho. rewrite Hp'; [by apply Hp|].
    by eapply sameShape_outside.
  - intros e k He. rewrite Hr' by done. by apply Hr.
  - intros e k q Hq. by apply Hm', Hm.
Qed.

Lemma keeps_weaken (d d' : ref) (s s' : Heap) :
  (rank d ≤ rank d')%nat → keeps rank d s s' → keeps rank d' s s'.
Proof.
  intros Hle (Hs & Hp & Hr & Hm).
  split; [done|split; [|split; [|done]]].
  - intros r Ho. apply Hp. intros p Hpr. specialize (Ho p Hpr). lia.
  - intros e k He. apply Hr. lia.
Qed.

Lemma outside_self (s : Heap) (d : ref) :
  wellFormed rank s → outside rank s d d.
Proof. intros Hwf p Hp. by apply (wf_rank _ _ Hwf). Qed.

Lemma keeps_contentOrigin (d : ref) (s s' : Heap) :
  wellFormed rank s → keeps rank d s s' →
  contentOrigin s' d = contentOrigin s d.
Proof.
  intros Hwf (Hs & Hp & _).
  specialize (Hp d (outside_self s d Hwf)).
  unfold contentOrigin.
  destruct (s !! d) as [t|] eqn:Ht.
  - simpl. destruct (View.kind t) as [| |c] eqn:Hk.
    + pose proof (sameShape_lookup _ _ d Hs) as Hl. rewrite Ht in Hl.
      destruct (s' !! d) as [t'|]; [|done]. simpl in *.
      injection Hl as _ Hl. rewrite Hk in Hl.
      unfold asContainer. rewrite Hk.
      by destruct (View.kind t').
    + pose proof (sameShape_lookup _ _ d Hs) as Hl. rewrite Ht in Hl.
      destruct (s' !! d) as [t'|]; [|done]. simpl in *.
      injection Hl as _ Hl. rewrite Hk in Hl.
      unfold asContainer. rewrite Hk.
      by destruct (View.kind t').
    + destruct (sameShape_container _ _ _ _ _ Hs Ht Hk)
        as (t' & c' & Ht' & Hk' & _ & _ & _ & HpL & HpT & _).
      rewrite Ht'. simpl.
      rewrite (asContainer_kind _ _ Hk), (asContainer_kind _ _ Hk'). simpl.
      unfold position in Hp. rewrite Ht, Ht' in Hp. simpl in Hp.
      injection Hp as -> ->. by rewrite HpL, HpT.
  - pose proof (sameShape_lookup _ _ d Hs) as Hl. rewrite Ht in Hl.
    destruct (s' !! d); done.
Qed.

Lemma layoutPass_spec (this : ref) (s : Heap) (t : View.t) (c : Container.t) :
  wellFormed rank s →
  s !! this = Some t → View.kind t = KContainer c →
  ∃ s1, layoutPass this s = Some s1 ∧
    keeps rank this s s1 ∧
    (∀ e, getContainer s1 e = getContainer s e) ∧
    (∀ r, r ∉ Container.views c → s1 !! r = s !! r).
Proof.
  intros Hwf Ht Hk.
  assert (getContainer s this = Some c) as Hc
    by (apply getContainer_Some; eauto).
  unfold layoutPass. rewrite Hc. simpl.
  destruct (Container.layoutManager c) as [lm|].
  - destruct (layout_total lm this s t c Ht Hk) as [s1 Hs1].
    { intros r Hr. apply (wellFormed_child_exists rank s this); [done|].
      by rewrite (children_Some _ _ _ Hc). }
    exists s1. split; [done|].
    assert (∀ e, getContainer s1 e = getContainer s e) as Hget.
    { intros e. apply fixed_getContainer. by eapply layout_fixed. }
    split; [|split; [done|]].
    + split; [|split; [|split]].
      * apply sameShape_fixed. intros r. by eapply layout_fixed.
      * intros r Ho. unfold position.
        rewrite (layout_frame _ _ _ _ r Hs1); [done|].
        intros Hr. specialize (Ho this Hr). lia.
      * intros e k _. unfold relativePoint. by rewrite Hget.
      * intros e k q. unfold relativePoint. by rewrite Hget.
    + intros r Hr. eapply layout_frame; [done|].
      by rewrite (children_Some _ _ _ Hc).
  - exists s. split; [done|]. split; [apply keeps_refl|]. by split.
Qed.

End Draw.

(** ** Drawing a container *)

Lemma draw_container (n : nat) (this : ref) (s : Heap) (t : View.t)
    (c : Container.t) :
  s !! this = Some t → View.kind t = KContainer c →
  draw (S n) this s =
    layoutPass this s ≫= λ s1,
      getContainer s1 this ≫= λ c1,
        forEachM (drawChild (draw n) this) (Container.views c1) s1.
Proof.
  intros Ht Hk. simpl. rewrite Ht. simpl. rewrite Hk.
  unfold layoutPass.
  assert (getContainer s this = Some c) as ->
    by (apply getContainer_Some; eauto).
  done.
Qed.

Lemma draw_leaf (n : nat) (this : ref) (s : Heap) (t : View.t) :
  s !! this = Some t → asContainer t = None →
  draw (S n) this s = Some s.
Proof.
  intros Ht Hk. simpl. rewrite Ht. simpl.
  unfold asContainer in Hk. by destruct (View.kind t).
Qed.

Lemma originFor_Some (s : Heap) (this view : ref) (c : Container.t)
    (v : View.t) :
  getContainer s this = Some c → s !! view = Some v →
  originFor s this view =
    Some (default (Point.mk (View.x v) (View.y v))
                  (Container.relativePoints c !! view)).
Proof.
  intros Hc Hv. unfold originFor, relativePoint, pointAt.
  rewrite Hc, Hv. simpl.
  destruct (Container.relativePoints c !! view); reflexivity.
Qed.

Section DrawStep.
Variable rank : ref → nat.
Variable n : nat.
Hypothesis draw_n :
  ∀ d s, wellFormed rank s → (rank d < n)%nat → is_Some (s !! d) →
    ∃ s', draw n d s = Some s' ∧ keeps rank d s s'.

(** One turn of the [forEach]: the child is placed from its relative
    origin, and neither its own drawing nor anything else in the turn
    moves its siblings or the container. *)
Lemma drawChild_spec (this w : ref) (s : Heap) (t : View.t)
    (c : Container.t) :
  wellFormed rank s →
  s !! this = Some t → View.kind t = KContainer c →
  w ∈ Container.views c → (rank this ≤ n)%nat →
  ∃ s4 p, drawChild (draw n) this s w = Some s4 ∧
    keeps rank this s s4 ∧
    originFor s this w = Some p ∧
    relativePoint s4 this w = Some p ∧
    position s4 w =
      Some (offsetBy (Container.paddingLeft c + View.x t,
                      Container.paddingTop c + View.y t) p) ∧
    (∀ view, view ∈ Container.views c → view ≠ w →
       position s4 view = position s view ∧
       relativePoint s4 this view = relativePoint s this view).
Proof.
  intros Hwf Ht Hk Hw Hn.
  assert (getContainer s this = Some c) as Hc
    by (apply getContainer_Some; eauto).
  assert (w ∈ children s this) as Hw' by (by rewrite (children_Some _ _ _ Hc)).
  destruct (wellFormed_child_exists rank s this w Hwf Hw') as [v Hv].
  pose proof (wf_rank _ _ Hwf this w Hw') as Hrank.
  assert (w ≠ this) as Hne by (intros ->; lia).
  destruct (placeChild_spec s this w t v c Ht Hk Hv Hne)
    as (s3 & Hplace & Hshape & Hpos & Hposw & Hrelw & Hrel & Hmono).
  pose proof (sameShape_wellFormed rank _ _ Hshape Hwf) as Hwf3.
  destruct (draw_n w s3 Hwf3) as (s4 & Hdraw & Hkeep); [lia| |].
  { eapply sameShape_is_Some; eauto. }
  pose proof Hkeep as (Hshape4 & Hpos4 & Hrel4 & Hmono4).
  exists s4. eexists.
  split; [unfold drawChild; rewrite Hplace; exact Hdraw|].
  split; [|split; [|split; [|split]]].
  - eapply keeps_trans; [|eapply keeps_weaken; [|exact Hkeep]; lia].
    split; [done|split; [|split; [|done]]].
    + intros r Ho. apply Hpos. intros ->. specialize (Ho this Hw'). lia.
    + intros e k He. apply Hrel. intros [-> _]. lia.
  - apply (originFor_Some _ _ _ c v); done.
  - by apply Hmono4.
  - rewrite Hpos4; [done|]. by apply outside_self.
  - intros view Hview Hvw.
    assert (view ∈ children s this) as Hview'
      by (by rewrite (children_Some _ _ _ Hc)).
    split.
    + rewrite Hpos4; [by apply Hpos|].
      intros p' Hp'. rewrite (sameShape_children _ _ _ Hshape) in Hp'.
      pose proof (wf_parent _ _ Hwf _ _ Hp') as H1.
      pose proof (wf_parent _ _ Hwf _ _ Hview') as H2.
      rewrite H1 in H2. injection H2 as ->. done.
    + rewrite Hrel4 by done. apply Hrel. intros [_ ?]. done.
Qed.

(** The rest of the [forEach], from any heap reached on the way. *)
Lemma drawLoop_spec (this : ref) (l : list ref) :
  ∀ (s : Heap) (t : View.t) (c : Container.t),
  wellFormed rank s →
  s !! this = Some t → View.kind t = KContainer c →
  (∀ w, w ∈ l → w ∈ Container.views c) → (rank this ≤ n)%nat →
  ∃ s', forEachM (drawChild (draw n) this) l s = Some s' ∧
    keeps rank this s s' ∧
    (∀ view o p, view ∈ Container.views c →
       contentOrigin s this = Some o →
       relativePoint s this view = Some p →
       position s view = Some (offsetBy o p) →
       position s' view = Some (offsetBy o p)) ∧
    (∀ view, view ∈ l →
       ∃ p, originFor s this view = Some p ∧
            relativePoint s' this view = Some p ∧
            position s' view =
              Some (offsetBy (Container.paddingLeft c + View.x t,
                              Container.paddingTop c + View.y t) p)).
Proof.
  induction l as [|w l IH]; intros s t c Hwf Ht Hk Hl Hn.
  - exists s. split; [done|]. split; [apply keeps_refl|].
    split; [done|]. intros view Hview. by apply elem_of_nil in Hview.
  - destruct (drawChild_spec this w s t c Hwf Ht Hk) as
      (s4 & pw & Hstep & Hkeep & Horw & Hrelw & Hposw & Hothers);
      [apply Hl; left|done|].
    pose proof Hkeep as (Hshape & _ & _ & Hmono).
    destruct (sameShape_container _ _ _ _ _ Hshape Ht Hk)
      as (t4 & c4 & Ht4 & Hk4 & _ & Hviews4 & _ & HpL & HpT & _).
    pose proof (sameShape_wellFormed rank _ _ Hshape Hwf) as Hwf4.
    pose proof (keeps_contentOrigin rank this s s4 Hwf Hkeep) as Hco.
    rewrite (contentOrigin_Some _ _ _ _ Ht4 Hk4),
            (contentOrigin_Some _ _ _ _ Ht Hk) in Hco.
    injection Hco as Hox Hoy.
    destruct (IH s4 t4 c4 Hwf4 Ht4 Hk4) as (s' & Hloop & Hkeep' & Hstay & Hput);
      [intros w' Hw'; rewrite Hviews4; apply Hl; by right|done|].
    pose proof Hkeep' as (_ & _ & _ & Hmono').
    exists s'. split; [simpl; rewrite Hstep; exact Hloop|].
    split; [by eapply keeps_trans|].
    assert (∀ view p, view ∈ Container.views c →
              relativePoint s4 this view = Some p →
              position s4 view =
                Some (offsetBy (Container.paddingLeft c + View.x t,
                                Container.paddingTop c + View.y t) p) →
              position s' view =
                Some (offsetBy (Container.paddingLeft c + View.x t,
                                Container.paddingTop c + View.y t) p))
      as Hstay4.
    { intros view p Hview Hrel Hpos.
      apply Hstay; [by rewrite Hviews4| |done|done].
      rewrite (contentOrigin_Some _ _ _ _ Ht4 Hk4). by rewrite Hox, Hoy. }
    split.
    + intros view o p Hview Ho Hrel Hpos.
      rewrite (contentOrigin_Some _ _ _ _ Ht Hk) in Ho. injection Ho as <-.
      apply Hstay4; [done| |].
      * destruct (decide (view = w)) as [->|Hvw]; [|by apply Hmono].
        unfold originFor in Horw. rewrite Hrel in Horw. congruence.
      * destruct (decide (view = w)) as [->|Hvw].
        -- unfold originFor in Horw. rewrite Hrel in Horw.
           injection Horw as <-. done.
        -- destruct (Hothers view Hview Hvw) as [-> _]. done.
    + intros view Hview.
      destruct (decide (view = w)) as [->|Hvw].
      * exists pw. split; [done|]. split; [by apply Hmono'|].
        apply Hstay4; [apply Hl; left|done|done].
      * apply elem_of_cons in Hview as [?|Hview]; [done|].
        destruct (Hput view Hview) as (p & Hor & Hrel & Hpos).
        destruct (Hothers view (Hl view ltac:(by right)) Hvw) as [Hp4 Hr4].
        exists p. split; [|split; [done|]].
        -- unfold originFor in *. rewrite <- Hr4.
           by rewrite <- (pointAt_position _ _ _ Hp4).
        -- rewrite Hpos. by rewrite Hox, Hoy.
Qed.

End DrawStep.

Section DrawAll.
Variable rank : ref → nat.

(** On a well-formed tree [draw] returns with enough fuel, and touches
    nothing outside the subtree it draws. *)
Lemma draw_keeps (n : nat) :
  ∀ d s, wellFormed rank s → (rank d < n)%nat → is_Some (s !! d) →
    ∃ s', draw n d s = Some s' ∧ keeps rank d s s'.
Proof.
  induction n as [|n IH]; intros d s Hwf Hn [t Ht]; [lia|].
  destruct (asContainer t) as [c|] eqn:Hk.
  - assert (View.kind t = KContainer c) as Hk'.
    { unfold asContainer in Hk. destruct (View.kind t); congruence. }
    rewrite (draw_container n d s t c Ht Hk').
    destruct (layoutPass_spec rank d s t c Hwf Ht Hk')
      as (s1 & Hl & Hkeep1 & Hget & _).
    rewrite Hl. simpl. rewrite Hget.
    assert (getContainer s d = Some c) as Hc
      by (apply getContainer_Some; eauto).
    rewrite Hc. simpl.
    rewrite <- Hget in Hc. apply getContainer_Some in Hc as (t1 & Ht1 & Hk1).
    pose proof Hkeep1 as (Hshape1 & _).
    destruct (drawLoop_spec rank n IH d (Container.views c) s1 t1 c)
      as (s' & Hloop & Hkeep & _); try done.
    + by eapply sameShape_wellFormed.
    + lia.
    + exists s'. split; [done|]. by eapply keeps_trans.
  - rewrite (draw_leaf n d s t Ht Hk). exists s. split; [done|].
    apply keeps_refl.
Qed.

(** One [Container.draw]: every child ends at the corner of the content
    box offset by its relative origin, which is the recorded one or, for
    a child not recorded yet, its position after the layout pass. *)
Lemma draw_children (fuel : nat) (this : ref) (s : Heap) (t : View.t)
    (c : Container.t) :
  wellFormed rank s →
  s !! this = Some t → View.kind t = KContainer c →
  (rank this < fuel)%nat →
  ∃ s1 s', layoutPass this s = Some s1 ∧ draw fuel this s = Some s' ∧
    keeps rank this s s' ∧
    ∀ view, view ∈ Container.views c →
      ∃ p, originFor s1 this view = Some p ∧
           relativePoint s' this view = Some p ∧
           position s' view =
             Some (offsetBy (Container.paddingLeft c + View.x t,
                             Container.paddingTop c + View.y t) p).
Proof.
  intros Hwf Ht Hk Hfuel.
  destruct fuel as [|n]; [lia|].
  rewrite (draw_container n this s t c Ht Hk).
  destruct (layoutPass_spec rank this s t c Hwf Ht Hk)
    as (s1 & Hl & Hkeep1 & Hget & Hframe).
  assert (getContainer s this = Some c) as Hc
    by (apply getContainer_Some; eauto).
  assert (s1 !! this = Some t) as Ht1.
  { rewrite Hframe; [done|]. intros Hin.
    assert (this ∈ children s this) as Hin'
      by (by rewrite (children_Some _ _ _ Hc)).
    pose proof (wf_rank _ _ Hwf _ _ Hin'). lia. }
  pose proof Hkeep1 as (Hshape1 & _).
  destruct (drawLoop_spec rank n (draw_keeps n) this (Container.views c)
              s1 t c) as (s' & Hloop & Hkeep & _ & Hput); try done.
  - by eapply sameShape_wellFormed.
  - lia.
  - exists s1, s'. split; [done|].
    split; [rewrite Hl; simpl; rewrite Hget, Hc; exact Hloop|].
    split; [by eapply keeps_trans|]. exact Hput.
Qed.

(** Any positive number of consecutive draws: the relative origin used
    by the first draw is the one every later draw uses. *)
Lemma drawTimes_children (fuel n : nat) (this : ref) :
  ∀ (s : Heap) (t : View.t) (c : Container.t),
  wellFormed rank s →
  s !! this = Some t → View.kind t = KContainer c →
  (rank this < fuel)%nat →
  ∃ s1 s', layoutPass this s = Some s1 ∧
    drawTimes fuel (S n) this s = Some s' ∧
    keeps rank this s s' ∧
    ∀ view, view ∈ Container.views c →
      ∃ p, originFor s1 this view = Some p ∧
           relativePoint s' this view = Some p ∧
           position s' view =
             Some (offsetBy (Container.paddingLeft c + View.x t,
                             Container.paddingTop c + View.y t) p).
Proof.
  induction n as [|n IH]; intros s t c Hwf Ht Hk Hfuel.
  - destruct (draw_children fuel this s t c Hwf Ht Hk Hfuel)
      as (s1 & s' & Hl & Hd & Hkeep & Hput).
    exists s1, s'. split; [done|]. split; [|by split].
    simpl. rewrite Hd. done.
  - destruct (draw_children fuel this s t c Hwf Ht Hk Hfuel)
      as (s1 & sa & Hl & Hd & Hkeep & Hput).
    pose proof Hkeep as (Hshape & _).
    destruct (sameShape_container _ _ _ _ _ Hshape Ht Hk)
      as (ta & ca & Hta & Hka & _ & Hviews & _).
    pose proof (sameShape_wellFormed rank _ _ Hshape Hwf) as Hwfa.
    pose proof (keeps_contentOrigin rank this s sa Hwf Hkeep) as Hco.
    rewrite (contentOrigin_Some _ _ _ _ Hta Hka),
            (contentOrigin_Some _ _ _ _ Ht Hk) in Hco.
    injection Hco as Hox Hoy.
    destruct (IH sa ta ca Hwfa Hta Hka Hfuel)
      as (s1a & s' & Hla & Hda & Hkeepa & Hputa).
    exists s1, s'. split; [done|].
    split; [change (drawTimes fuel (S (S n)) this s)
              with (draw fuel this s ≫= drawTimes fuel (S n) this);
            rewrite Hd; exact Hda|].
    split; [by eapply keeps_trans|].
    intros view Hview.
    destruct (Hput view Hview) as (p & Hor & Hrel & Hpos).
    rewrite <- Hviews in Hview.
    destruct (Hputa view Hview) as (p' & Hor' & Hrel' & Hpos').
    destruct (layoutPass_spec rank this sa ta ca Hwfa Hta Hka)
      as (s1a' & Hla' & _ & Hgeta & _).
    rewrite Hla in Hla'. injection Hla' as <-.
    assert (p' = p) as ->.
    { unfold originFor, relativePoint in Hor'. rewrite Hgeta in Hor'.
      unfold relativePoint in Hrel. rewrite Hrel in Hor'. congruence. }
    exists p. split; [done|]. split; [done|].
    rewrite Hpos'. by rewrite Hox, Hoy.
Qed.

End DrawAll.

(** ** Placement by [Container.draw] *)

Lemma offsetBy_spelled (t : View.t) (c : Container.t) (p : Point.t) :
  offsetBy (Container.paddingLeft c + View.x t,
            Container.paddingTop c + View.y t) p
  = (View.x t + Container.paddingLeft c + Point.x p,
     View.y t + Container.paddingTop c + Point.y p).
Proof.
  unfold offsetBy. simpl.
  by rewrite (add_comm (View.x t)), (add_comm (View.y t)).
Qed.

(** C1. On a well-formed view tree, after any number [n >= 1] of
    consecutive [Container.draw] calls every child of the container is
    at [(container.x + paddingLeft + rx, container.y + paddingTop + ry)]
    for its stored relative origin [(rx, ry)], which is the one recorded
    before the draws when there was one: the position is recomputed from
    the stored origin at every draw and nothing accumulates; the
    container itself stays where it was. *)
Theorem draw_idempotent_placement (rank : ref → nat) (fuel n : nat)
    (this : ref) (s : Heap) (t : View.t) (c : Container.t) :
  wellFormed rank s →
  s !! this = Some t → View.kind t = KContainer c →
  (rank this < fuel)%nat → (1 ≤ n)%nat →
  ∃ s', drawTimes fuel n this s = Some s' ∧
    position s' this = Some (View.x t, View.y t) ∧
    ∀ view, view ∈ Container.views c →
      ∃ p, relativePoint s' this view = Some p ∧
           (∀ q, relativePoint s this view = Some q → p = q) ∧
           position s' view =
             Some (View.x t + Container.paddingLeft c + Point.x p,
                   View.y t + Container.paddingTop c + Point.y p).
Proof.
  intros Hwf Ht Hk Hfuel Hn.
  destruct n as [|n]; [lia|].
  destruct (drawTimes_children rank fuel n this s t c Hwf Ht Hk Hfuel)
    as (s1 & s' & Hl & Hd & Hkeep & Hput).
  exists s'. split; [done|]. split.
  - destruct Hkeep as (_ & Hpos & _).
    rewrite Hpos by (by apply outside_self).
    unfold position. by rewrite Ht.
  - intros view Hview.
    destruct (Hput view Hview) as (p & Hor & Hrel & Hpos).
    exists p. split; [done|]. split.
    + intros q Hq. destruct Hkeep as (_ & _ & _ & Hmono).
      apply Hmono in Hq. congruence.
    + by rewrite Hpos, offsetBy_spelled.
Qed.

Lemma draw_idempotent_placement_witness :
  ∃ s', drawTimes 3 4 0%nat nestedTree = Some s' ∧
        position s' 0%nat = Some (10, 20) ∧
        position s' 1%nat = Some (10 + 3 + 5, 20 + 4 + 6).
Proof.
  destruct (draw_idempotent_placement nestedRank 3 4 0%nat nestedTree
              (containerView 10 20 200 100 None [1%nat; 2%nat] None 3 4)
              (Container.mk [1%nat; 2%nat] None ∅ 3 4 0 0))
    as (s' & Hd & Hthis & Hchildren).
  - apply wellFormedb_sound. vm_compute. reflexivity.
  - reflexivity.
  - reflexivity.
  - simpl. lia.
  - lia.
  - exists s'. split; [exact Hd|]. split; [exact Hthis|].
    destruct (Hchildren 1%nat) as (p & Hrel & _ & Hpos); [left|].
    vm_compute in Hd. injection Hd as <-.
    vm_compute in Hrel. injection Hrel as <-.
    exact Hpos.
Defined.

(** The sums are those of binary64, in the order of the source: with the
    container at [x = 2^53], a left padding of 1 and a relative origin
    of 1, the child is left at [x = 2^53], since [1 + 2^53] is rounded
    to [2^53] before the origin is added; and so after every draw. *)
Lemma draw_placement_rounds_as_source :
  ∃ s', drawTimes 2 3 0%nat farTree = Some s' ∧
        relativePoint s' 0%nat 1%nat = Some (Point.mk 1 2) ∧
        position s' 1%nat = Some (9007199254740992, 26) ∧
        position s' 1%nat
        = Some (9007199254740992 + 1 + 1, 20 + 4 + 2).
Proof.
  eexists. split; [vm_compute; reflexivity|].
  repeat split; vm_compute; reflexivity.
Qed.

(** C6, as the code has it.  The relative origin of a child is fixed by
    the first [Container.draw] that finds none recorded: it is the
    child's position after the layout pass of that draw.  No later draw
    changes it, whatever position a layout pass writes into the child,
    and after every draw the child stands at the container's position
    plus padding plus that stored origin. *)
Theorem relative_origin_fixed_at_first_draw (rank : ref → nat)
    (fuel n : nat) (this view : ref) (s : Heap) (t : View.t)
    (c : Container.t) :
  wellFormed rank s →
  s !! this = Some t → View.kind t = KContainer c →
  view ∈ Container.views c →
  (rank this < fuel)%nat →
  ∃ s1 s' p,
    layoutPass this s = Some s1 ∧
    drawTimes fuel (S n) this s = Some s' ∧
    relativePoint s' this view = Some p ∧
    (∀ q, relativePoint s this view = Some q → p = q) ∧
    (relativePoint s this view = None → pointAt s1 view = Some p) ∧
    position s' view =
      Some (View.x t + Container.paddingLeft c + Point.x p,
            View.y t + Container.paddingTop c + Point.y p).
Proof.
  intros Hwf Ht Hk Hview Hfuel.
  destruct (drawTimes_children rank fuel n this s t c Hwf Ht Hk Hfuel)
    as (s1 & s' & Hl & Hd & Hkeep & Hput).
  destruct (Hput view Hview) as (p & Hor & Hrel & Hpos).
  exists s1, s', p. split; [done|]. split; [done|]. split; [done|].
  split; [|split].
  - intros q Hq. destruct Hkeep as (_ & _ & _ & Hmono).
    apply Hmono in Hq. congruence.
  - intros Hnone.
    destruct (layoutPass_spec rank this s t c Hwf Ht Hk)
      as (s1' & Hl' & _ & Hget & _).
    rewrite Hl in Hl'. injection Hl' as <-.
    unfold originFor, relativePoint in Hor. rewrite Hget in Hor.
    unfold relativePoint in Hnone. by rewrite Hnone in Hor.
  - by rewrite Hpos, offsetBy_spelled.
Qed.

Lemma relative_origin_fixed_at_first_draw_witness :
  ∃ s', drawTimes 2 3 0%nat flowRows = Some s' ∧
        relativePoint s' 0%nat 2%nat = Some (Point.mk 0 30) ∧
        position s' 2%nat = Some (0 + 0 + 0, 0 + 0 + 30).
Proof.
  destruct (relative_origin_fixed_at_first_draw flatRank 2 2 0%nat 2%nat
              flowRows
              (containerView 0 0 100 100 None [1%nat; 2%nat]
                 (Some (FlowLayoutManager 0 0)) 0 0)
              (Container.mk [1%nat; 2%nat] (Some (FlowLayoutManager 0 0))
                 ∅ 0 0 0 0))
    as (s1 & s' & p & Hl & Hd & Hrel & _ & Hcap & Hpos).
  - apply wellFormedb_sound. vm_compute. reflexivity.
  - reflexivity.
  - reflexivity.
  - right. left.
  - simpl. lia.
  - exists s'. split; [exact Hd|].
    vm_compute in Hl. injection Hl as <-.
    assert (Some (Point.mk 0 30) = Some p) as Hp
      by (apply Hcap; vm_compute; reflexivity).
    injection Hp as <-.
    split; [exact Hrel|exact Hpos].
Defined.

(** C6, counterexample.  The first draw of [flowRows] records (0, 30)
    for the second view.  After the container is widened to 200 the
    layout pass writes (60, 0) into that view, yet the draw keeps the
    stored origin (0, 30) and leaves the view at (0, 30). *)
Lemma layout_rewrite_leaves_origin_stale :
  ∃ s1 s2 s3,
    draw 2 0%nat flowRows = Some s1 ∧
    relativePoint s1 0%nat 2%nat = Some (Point.mk 0 30) ∧
    layoutPass 0%nat (widen s1) = Some s2 ∧
    position s2 2%nat = Some (60, 0) ∧
    draw 2 0%nat (widen s1) = Some s3 ∧
    relativePoint s3 0%nat 2%nat = Some (Point.mk 0 30) ∧
    relativePoint s3 0%nat 2%nat ≠ Some (Point.mk 60 0) ∧
    position s3 2%nat = Some (0, 30).
Proof.
  eexists _, _, _.
  split; [vm_compute; reflexivity|].
  split; [vm_compute; reflexivity|].
  split; [vm_compute; reflexivity|].
  split; [vm_compute; reflexivity|].
  split; [vm_compute; reflexivity|].
  split; [vm_compute; reflexivity|].
  split; [vm_compute; discriminate|].
  vm_compute; reflexivity.
Qed.

(** ** Removing and re-adding a child *)

Lemma getContainer_alter_onContainer (g : Container.t → Container.t)
    (r e : ref) (s : Heap) :
  getContainer (alter (onContainer g) r s) e
  = if decide (r = e) then g <$> getContainer s e else getContainer s e.
Proof.
  unfold getContainer. case_decide as Hre.
  - subst e. rewrite lookup_alter_eq.
    destruct (s !! r) as [t|]; simpl; [|done].
    by destruct t as [? ? ? ? ? []].
  - by rewrite lookup_alter_ne.
Qed.

Lemma owner_alter_onContainer (g : Container.t → Container.t) (r e : ref)
    (s : Heap) :
  owner (alter (onContainer g) r s) e = owner s e.
Proof.
  unfold owner. destruct (decide (r = e)) as [->|Hne].
  - rewrite lookup_alter_eq. destruct (s !! e) as [t|]; simpl; [|done].
    unfold onContainer. by destruct (View.kind t).
  - by rewrite lookup_alter_ne.
Qed.

Lemma relativePoint_alter_onContainer (g : Container.t → Container.t)
    (r e k : ref) (s : Heap) :
  (∀ c, Container.relativePoints (g c) = Container.relativePoints c) →
  relativePoint (alter (onContainer g) r s) e k = relativePoint s e k.
Proof.
  intros Hg. unfold relativePoint. rewrite getContainer_alter_onContainer.
  case_decide; [|done].
  destruct (getContainer s e) as [c|]; simpl; [|done]. by rewrite Hg.
Qed.

Lemma addChild_Normal (this view : ref) (s s2 : Heap) :
  addChild this view s = Some (Normal s2) →
  (∃ t2 c2, s2 !! this = Some t2 ∧ View.kind t2 = KContainer c2 ∧
            view ∈ Container.views c2) ∧
  (∀ e k, relativePoint s2 e k = relativePoint s e k).
Proof.
  unfold addChild.
  destruct (getContainer s this) as [c|] eqn:Hc; simpl; [|done].
  destruct (s !! view) as [v|] eqn:Hv; simpl; [|done].
  destruct (View.parent v); [done|]. intros [= <-]. split.
  - assert (getContainer
              (alter (onContainer (pushView view)) this
                 (alter (View.with_parent (Some this)) view s)) this
            = Some (pushView view c)) as Hc2.
    { rewrite getContainer_alter_onContainer, decide_True by done.
      rewrite getContainer_alter_kind by done. by rewrite Hc. }
    apply getContainer_Some in Hc2 as (t2 & Ht2 & Hk2).
    exists t2, (pushView view c). split; [done|]. split; [done|].
    simpl. apply elem_of_app. right. left.
  - intros e k. rewrite relativePoint_alter_onContainer by done.
    by rewrite relativePoint_alter_kind.
Qed.

(** C5, as the code has it.  [removeChild(view)] on a child clears the
    view's owner and removes its first occurrence from the child
    sequence, and leaves every recorded relative origin in place, that
    of the removed view included.  When the view is then added to a
    container that holds no recorded origin for it, the next draw of
    that container records the view's position after the layout pass as
    its relative origin there. *)
Theorem removeChild_keeps_relative_origin (rank : ref → nat) (fuel : nat)
    (s : Heap) (this other view : ref) (c : Container.t) (v : View.t) :
  getContainer s this = Some c →
  view ∈ Container.views c →
  s !! view = Some v →
  ∃ s1 index,
    removeChild this view s = Some s1 ∧
    indexOf (Container.views c) view = Some index ∧
    owner s1 view = Some None ∧
    children s1 this = delete index (Container.views c) ∧
    (∀ e k, relativePoint s1 e k = relativePoint s e k) ∧
    (∀ s2, addChild other view s1 = Some (Normal s2) →
       relativePoint s2 other view = None →
       wellFormed rank s2 → (rank other < fuel)%nat →
       ∃ s3 s4 p,
         layoutPass other s2 = Some s3 ∧
         draw fuel other s2 = Some s4 ∧
         pointAt s3 view = Some p ∧
         relativePoint s4 other view = Some p).
Proof.
  intros Hc Hview Hv.
  destruct (indexOf_Some _ _ Hview) as (index & Hindex & _).
  unfold removeChild. rewrite Hc. simpl. rewrite Hindex.
  eexists _, index. split; [done|]. split; [done|].
  split; [|split; [|split]].
  - rewrite owner_alter_onContainer. unfold owner.
    by rewrite lookup_alter_eq, Hv.
  - unfold children.
    rewrite getContainer_alter_onContainer, decide_True by done.
    rewrite getContainer_alter_kind by done. by rewrite Hc.
  - intros e k. rewrite relativePoint_alter_onContainer by done.
    by rewrite relativePoint_alter_kind.
  - intros s2 Hadd Hnone Hwf Hfuel.
    apply addChild_Normal in Hadd as [(t2 & c2 & Ht2 & Hk2 & Hin) _].
    destruct (draw_children rank fuel other s2 t2 c2 Hwf Ht2 Hk2 Hfuel)
      as (s3 & s4 & Hl & Hd & _ & Hput).
    destruct (Hput view Hin) as (p & Hor & Hrel & _).
    exists s3, s4, p. split; [done|]. split; [done|]. split; [|done].
    destruct (layoutPass_spec rank other s2 t2 c2 Hwf Ht2 Hk2)
      as (s3' & Hl' & _ & Hget & _).
    rewrite Hl in Hl'. injection Hl' as <-.
    unfold originFor, relativePoint in Hor. rewrite Hget in Hor.
    unfold relativePoint in Hnone. by rewrite Hnone in Hor.
Qed.

Lemma removeChild_keeps_relative_origin_witness :
  ∃ s1, removeChild 0%nat 1%nat twoContainers = Some s1 ∧
        owner s1 1%nat = Some None ∧
        children s1 0%nat = [2%nat].
Proof.
  destruct (removeChild_keeps_relative_origin flatRank 2 twoContainers
              0%nat 3%nat 1%nat
              (Container.mk [1%nat; 2%nat] None ∅ 3 4 0 0)
              (plainView 5 5 60 10 (Some 0%nat)))
    as (s1 & index & Hr & Hi & Ho & Hch & _).
  - reflexivity.
  - left.
  - reflexivity.
  - exists s1. split; [exact Hr|]. split; [exact Ho|].
    vm_compute in Hi. injection Hi as <-. exact Hch.
Defined.

(** C5, counterexample.  After a draw of the container 0 of
    [twoContainers] has recorded (5, 5) for its child 1, removing that
    child clears its owner and takes it out of the child sequence, but
    the container still holds the recorded origin (5, 5) for it. *)
Lemma removeChild_leaves_relative_origin :
  ∃ s1 s2,
    draw 2 0%nat twoContainers = Some s1 ∧
    relativePoint s1 0%nat 1%nat = Some (Point.mk 5 5) ∧
    removeChild 0%nat 1%nat s1 = Some s2 ∧
    owner s2 1%nat = Some None ∧
    children s2 0%nat = [2%nat] ∧
    relativePoint s2 0%nat 1%nat = Some (Point.mk 5 5) ∧
    relativePoint s2 0%nat 1%nat ≠ None.
Proof.
  eexists _, _.
  split; [vm_compute; reflexivity|].
  split; [vm_compute; reflexivity|].
  split; [vm_compute; reflexivity|].
  split; [vm_compute; reflexivity|].
  split; [vm_compute; reflexivity|].
  split; [vm_compute; reflexivity|].
  vm_compute; discriminate.
Qed.

(** ** The ownership discipline is kept by the two mutators *)

Lemma children_alter_onContainer (g : Container.t → Container.t)
    (r e : ref) (s : Heap) (c : Container.t) :
  getContainer s r = Some c →
  children (alter (onContainer g) r s) e
  = if decide (r = e) then Container.views (g c) else children s e.
Proof.
  intros Hc. unfold children. rewrite getContainer_alter_onContainer.
  case_decide as Hre; [|done]. subst e. by rewrite Hc.
Qed.

Lemma children_alter_kind (f : View.t → View.t) (r e : ref) (s : Heap) :
  (∀ v, View.kind (f v) = View.kind v) →
  children (alter f r s) e = children s e.
Proof. intros Hf. unfold children. by rewrite getContainer_alter_kind. Qed.

Lemma owner_alter_parent (p : option ref) (r e : ref) (s : Heap) :
  is_Some (s !! r) →
  owner (alter (View.with_parent p) r s) e
  = if decide (r = e) then Some p else owner s e.
Proof.
  intros [v Hv]. unfold owner. case_decide as Hre.
  - subst e. by rewrite lookup_alter_eq, Hv.
  - by rewrite lookup_alter_ne.
Qed.

Lemma not_elem_of_delete_NoDup (l : list ref) (i : nat) (x : ref) :
  NoDup l → l !! i = Some x → x ∉ delete i l.
Proof.
  intros Hnd Hi Hin.
  rewrite <- (take_drop_middle l i x Hi) in Hnd.
  rewrite delete_take_drop in Hin.
  apply NoDup_app in Hnd as (_ & Hdisj & Hnd).
  apply NoDup_cons in Hnd as [Hx _].
  apply elem_of_app in Hin as [Hin|Hin].
  - apply (Hdisj x Hin). left.
  - by apply Hx.
Qed.

Lemma addChild_consistent (this view : ref) (s s' : Heap) :
  ownershipConsistent s →
  addChild this view s = Some (Normal s') →
  ownershipConsistent s'.
Proof.
  intros Hs. unfold addChild.
  destruct (getContainer s this) as [c|] eqn:Hc; simpl; [|done].
  destruct (s !! view) as [v|] eqn:Hv; simpl; [|done].
  destruct (View.parent v) eqn:Hp; [done|]. intros [= <-].
  assert (∀ p, view ∉ children s p) as Hfree.
  { intros p Hin. destruct (Hs p) as [_ Ho]. specialize (Ho view Hin).
    unfold owner in Ho. rewrite Hv in Ho. simpl in Ho. congruence. }
  assert (getContainer (alter (View.with_parent (Some this)) view s) this
          = Some c) as Hc1 by (by rewrite getContainer_alter_kind).
  intros p.
  rewrite (children_alter_onContainer _ _ _ _ c Hc1).
  rewrite children_alter_kind by done.
  destruct (Hs p) as [Hnd Ho]. split.
  - case_decide as Hpe; [|done]. subst p. simpl.
    rewrite (children_Some _ _ _ Hc) in Hnd.
    apply NoDup_app. split; [done|]. split; [|apply NoDup_singleton].
    intros x Hx Hx'. apply list_elem_of_singleton in Hx' as ->.
    apply (Hfree this). by rewrite (children_Some _ _ _ Hc).
  - intros x Hx. rewrite owner_alter_onContainer.
    rewrite owner_alter_parent by eauto.
    case_decide as Hpe.
    + subst p. simpl in Hx. apply elem_of_app in Hx as [Hx|Hx].
      * rewrite decide_False.
        -- apply Ho. by rewrite (children_Some _ _ _ Hc).
        -- intros <-. apply (Hfree this).
           by rewrite (children_Some _ _ _ Hc).
      * apply list_elem_of_singleton in Hx as ->. by rewrite decide_True.
    + rewrite decide_False; [by apply Ho|].
      intros <-. by apply (Hfree p).
Qed.

Lemma removeChild_consistent (this view : ref) (s s' : Heap) :
  ownershipConsistent s →
  removeChild this view s = Some s' →
  ownershipConsistent s'.
Proof.
  intros Hs. unfold removeChild.
  destruct (getContainer s this) as [c|] eqn:Hc; simpl; [|done].
  destruct (indexOf (Container.views c) view) as [index|] eqn:Hi;
    [|by intros [= <-]].
  intros [= <-].
  assert (Container.views c !! index = Some view) as Hidx.
  { unfold indexOf in Hi.
    destruct (list_find _ _) as [[i r]|] eqn:E; [|done].
    simpl in Hi. injection Hi as ->.
    by apply list_find_Some in E as (? & -> & _). }
  assert (view ∈ children s this) as Hin.
  { rewrite (children_Some _ _ _ Hc). by eapply list_elem_of_lookup_2. }
  destruct (Hs this) as [Hnd Hown].
  assert (is_Some (s !! view)) as Hsome.
  { specialize (Hown view Hin). unfold owner in Hown.
    destruct (s !! view); [eauto|done]. }
  assert (getContainer (alter (View.with_parent None) view s) this = Some c)
    as Hc1 by (by rewrite getContainer_alter_kind).
  intros p.
  rewrite (children_alter_onContainer _ _ _ _ c Hc1).
  rewrite children_alter_kind by done.
  destruct (Hs p) as [Hndp Ho]. split.
  - case_decide as Hpe; [|done]. simpl.
    rewrite (children_Some _ _ _ Hc) in Hnd.
    eapply sublist_NoDup; [|apply sublist_delete]. done.
  - intros x Hx. rewrite owner_alter_onContainer.
    rewrite owner_alter_parent by done.
    case_decide as Hpe.
    + subst p. simpl in Hx. rewrite decide_False.
      * apply Ho. rewrite (children_Some _ _ _ Hc).
        by eapply list_elem_of_delete_inv.
      * intros <-. rewrite (children_Some _ _ _ Hc) in Hnd.
        by apply (not_elem_of_delete_NoDup _ _ _ Hnd Hidx).
    + rewrite decide_False; [by apply Ho|].
      intros <-. specialize (Ho view Hx). specialize (Hown view Hin).
      congruence.
Qed.

(** A heap that keeps the ownership discipline and whose containment
    order is well founded is a well-formed view tree. *)
Lemma ownershipConsistent_wellFormed (rank : ref → nat) (s : Heap) :
  ownershipConsistent s →
  (∀ p v, v ∈ children s p → (rank v < rank p)%nat) →
  wellFormed rank s.
Proof.
  intros Hs Hrank. split; [|done].
  intros p v Hv. by apply (Hs p).
Qed.

(** * Further properties of the code *)

(** ** Sequences of [addChild] and [removeChild] *)

Lemma ownershipConsistentb_sound (s : Heap) :
  ownershipConsistentb s = true → ownershipConsistent s.
Proof.
  unfold ownershipConsistentb. intros H p. unfold children.
  destruct (getContainer s p) as [c|] eqn:Hc.
  - apply getContainer_Some in Hc as (t & Ht & Hk).
    rewrite forallb_forall in H.
    assert (In (p, t) (map_to_list s)) as Hin
      by (apply list_elem_of_In; by apply elem_of_map_to_list).
    specialize (H (p, t) Hin). simpl in H.
    rewrite (asContainer_kind _ _ Hk) in H.
    apply andb_true_iff in H as [H1 H2].
    apply bool_decide_eq_true in H1. split; [done|].
    intros v Hv. rewrite forallb_forall in H2.
    specialize (H2 v (proj1 (list_elem_of_In _ _) Hv)).
    by apply bool_decide_eq_true in H2.
  - split; [apply NoDup_nil_2|]. intros v Hv. by apply elem_of_nil in Hv.
Qed.

Lemma treeCall_consistent (s s' : Heap) (call : TreeCall) :
  ownershipConsistent s → treeCall s call = Some s' →
  ownershipConsistent s'.
Proof.
  intros Hs. destruct call as [this view|this view]; simpl.
  - destruct (addChild this view s) as [[s1|m s1]|] eqn:E; simpl; [| |done].
    + intros [= <-]. by eapply addChild_consistent.
    + intros [= <-]. unfold addChild in E.
      destruct (getContainer s this); simpl in E; [|done].
      destruct (s !! view) as [v|]; simpl in E; [|done].
      destruct (View.parent v); by simplify_eq.
  - by apply removeChild_consistent.
Qed.

(** X1. Whatever sequence of [addChild] and [removeChild] calls runs on
    a heap that keeps the ownership discipline, with thrown errors
    caught, the resulting heap keeps it: no child sequence holds a view
    twice, every child's [parent] is the container holding it, and no
    view is in the child sequences of two containers. *)
Theorem treeCalls_single_owner (calls : list TreeCall) (s s' : Heap) :
  ownershipConsistent s →
  treeCalls calls s = Some s' →
  ownershipConsistent s' ∧
  ∀ v p q, v ∈ children s' p → v ∈ children s' q → p = q.
Proof.
  revert s. induction calls as [|call rest IH]; intros s Hs; simpl.
  - intros [= <-]. split; [done|].
    intros v p q Hp Hq.
    pose proof (proj2 (Hs p) v Hp). pose proof (proj2 (Hs q) v Hq).
    congruence.
  - destruct (treeCall s call) as [s1|] eqn:E; simpl; [|done].
    apply IH. by eapply treeCall_consistent.
Qed.

Lemma treeCalls_single_owner_witness :
  ∃ s', treeCalls [CallAdd 3%nat 1%nat; CallRemove 0%nat 1%nat;
                   CallAdd 3%nat 1%nat; CallAdd 0%nat 5%nat]
          twoContainers = Some s' ∧
        (ownershipConsistent s' ∧
         ∀ v p q, v ∈ children s' p → v ∈ children s' q → p = q) ∧
        children s' 0%nat = [2%nat; 5%nat] ∧
        children s' 3%nat = [4%nat; 1%nat].
Proof.
  eexists. split; [vm_compute; reflexivity|].
  split; [|split; reflexivity].
  apply (treeCalls_single_owner
           [CallAdd 3%nat 1%nat; CallRemove 0%nat 1%nat;
            CallAdd 3%nat 1%nat; CallAdd 0%nat 5%nat] twoContainers).
  - apply ownershipConsistentb_sound. vm_compute. reflexivity.
  - vm_compute. reflexivity.
Defined.

Lemma container_splice_push (c : Container.t) (view : ref) :
  spliceView (length (Container.views c)) (pushView view c) = c.
Proof.
  destruct c as [l lm rp pl pt pr pb]. unfold spliceView, pushView. simpl.
  f_equal. rewrite delete_take_drop, take_app_length.
  rewrite drop_app_ge by lia.
  replace (S (length l) - length l)%nat with 1%nat by lia.
  simpl. by rewrite app_nil_r.
Qed.

Lemma indexOf_app_fresh (l : list ref) (view : ref) :
  view ∉ l → indexOf (l ++ [view]) view = Some (length l).
Proof.
  intros Hfresh.
  destruct (indexOf_Some (l ++ [view]) view) as (i & Hi & Hl & Hfirst).
  { apply elem_of_app. right. left. }
  rewrite Hi. f_equal.
  destruct (decide (i < length l)%nat) as [Hlt|Hge].
  - exfalso. apply Hfresh. rewrite lookup_app_l in Hl by done.
    by eapply list_elem_of_lookup_2.
  - destruct (decide (i = length l)) as [->|Hne]; [done|].
    exfalso. apply (Hfirst (length l)); [lia|].
    rewrite lookup_app_r by lia. by rewrite Nat.sub_diag.
Qed.

Lemma addChild_unowned (s : Heap) (this view : ref) (c : Container.t)
    (v : View.t) :
  getContainer s this = Some c → s !! view = Some v →
  View.parent v = None →
  addChild this view s =
    Some (Normal (alter (onContainer (pushView view)) this
                    (alter (View.with_parent (Some this)) view s))).
Proof.
  intros Hc Hv Hp. unfold addChild. rewrite Hc, Hv. simpl. by rewrite Hp.
Qed.

(** X2. Adding a view that the container does not hold yet and removing
    it again gives back the heap as it was before the two calls: owner,
    child sequence and every other field of every object. *)
Theorem addChild_removeChild_roundtrip (s : Heap) (this view : ref)
    (c : Container.t) (v : View.t) :
  getContainer s this = Some c →
  s !! view = Some v →
  View.parent v = None →
  view ∉ Container.views c →
  ∃ s1, addChild this view s = Some (Normal s1) ∧
        removeChild this view s1 = Some s.
Proof.
  intros Hc Hv Hp Hfresh.
  rewrite (addChild_unowned _ _ _ _ _ Hc Hv Hp).
  eexists. split; [done|].
  unfold removeChild.
  rewrite getContainer_alter_onContainer, decide_True by done.
  rewrite getContainer_alter_kind by done. rewrite Hc. simpl.
  rewrite (indexOf_app_fresh _ _ Hfresh). f_equal.
  apply getContainer_Some in Hc as (t & Ht & Hk).
  apply map_eq. intros i.
  destruct (decide (this = view)) as [->|Hne].
  - destruct (decide (view = i)) as [->|Hi].
    + rewrite !lookup_alter_eq, Hv. simpl. f_equal.
      assert (t = v) as -> by congruence.
      destruct v as [x y w h p k]. simpl in *. subst p k.
      unfold onContainer, View.with_parent, View.with_kind. simpl.
      by rewrite container_splice_push.
    + by rewrite !lookup_alter_ne.
  - destruct (decide (this = i)) as [->|Hi].
    + rewrite lookup_alter_eq, lookup_alter_ne by done.
      rewrite lookup_alter_eq, lookup_alter_ne by done.
      rewrite Ht. simpl. f_equal.
      destruct t as [x y w h p k]. simpl in *. subst k.
      unfold onContainer, View.with_kind. simpl.
      by rewrite container_splice_push.
    + rewrite lookup_alter_ne by done.
      destruct (decide (view = i)) as [->|Hvi].
      * rewrite lookup_alter_eq, lookup_alter_ne, lookup_alter_eq by done.
        rewrite Hv. simpl. f_equal.
        destruct v as [x y w h p k]. simpl in *. by subst p.
      * by rewrite !lookup_alter_ne.
Qed.

Lemma addChild_removeChild_roundtrip_witness :
  ∃ s1, addChild 3%nat 5%nat twoContainers = Some (Normal s1) ∧
        removeChild 3%nat 5%nat s1 = Some twoContainers.
Proof.
  apply (addChild_removeChild_roundtrip twoContainers 3%nat 5%nat
           (Container.mk [4%nat] None ∅ 0 0 0 0) (plainView 2 2 5 5 None)).
  - reflexivity.
  - reflexivity.
  - reflexivity.
  - simpl. intros H. apply list_elem_of_In in H. simpl in H. lia.
Defined.

(** X3. A view that has been removed from its container can be added
    again, to any container: the call does not throw, the view's owner
    becomes that container and the view goes to the end of its child
    sequence; added back to the container it came from, it has moved
    from its old place to the end, the top of the painting order. *)
Theorem removeChild_then_addChild (s : Heap) (this other view : ref)
    (c co : Container.t) (v : View.t) :
  getContainer s this = Some c →
  getContainer s other = Some co →
  view ∈ Container.views c →
  s !! view = Some v →
  ∃ s1 s2 index,
    removeChild this view s = Some s1 ∧
    indexOf (Container.views c) view = Some index ∧
    addChild other view s1 = Some (Normal s2) ∧
    owner s2 view = Some (Some other) ∧
    children s2 other =
      (if decide (this = other) then delete index (Container.views c)
       else Container.views co) ++ [view].
Proof.
  intros Hc Hco Hview Hv.
  destruct (indexOf_Some _ _ Hview) as (index & Hindex & _).
  unfold removeChild. rewrite Hc. simpl. rewrite Hindex.
  set (s1 := alter (onContainer (spliceView index)) this
               (alter (View.with_parent None) view s)).
  assert (owner s1 view = Some None) as Ho.
  { unfold s1. rewrite owner_alter_onContainer.
    rewrite owner_alter_parent by eauto. by rewrite decide_True. }
  assert (getContainer s1 other =
          Some (if decide (this = other) then spliceView index c else co))
    as Hco1.
  { unfold s1. rewrite getContainer_alter_onContainer.
    rewrite getContainer_alter_kind by done.
    case_decide as Hto; [subst other; by rewrite Hc|done]. }
  unfold owner in Ho. destruct (s1 !! view) as [v1|] eqn:Hv1; [|done].
  simpl in Ho. injection Ho as Hp1.
  eexists s1, _, index. split; [done|]. split; [done|].
  split; [exact (addChild_unowned _ _ _ _ _ Hco1 Hv1 Hp1)|].
  split.
  - rewrite owner_alter_onContainer.
    rewrite owner_alter_parent by eauto. by rewrite decide_True.
  - assert (getContainer (alter (View.with_parent (Some other)) view s1) other
            = Some (if decide (this = other) then spliceView index c else co))
      as Hco2 by (by rewrite getContainer_alter_kind).
    rewrite (children_alter_onContainer _ _ _ _ _ Hco2).
    rewrite decide_True by done. by case_decide.
Qed.

Lemma removeChild_then_addChild_witness :
  ∃ s1 s2, removeChild 0%nat 1%nat twoContainers = Some s1 ∧
           addChild 0%nat 1%nat s1 = Some (Normal s2) ∧
           children s2 0%nat = [2%nat; 1%nat].
Proof.
  destruct (removeChild_then_addChild twoContainers 0%nat 0%nat 1%nat
              (Container.mk [1%nat; 2%nat] None ∅ 3 4 0 0)
              (Container.mk [1%nat; 2%nat] None ∅ 3 4 0 0)
              (plainView 5 5 60 10 (Some 0%nat)))
    as (s1 & s2 & index & Hr & Hi & Ha & _ & Hch).
  - reflexivity.
  - reflexivity.
  - left.
  - reflexivity.
  - exists s1, s2. split; [exact Hr|]. split; [exact Ha|].
    vm_compute in Hi. injection Hi as <-. exact Hch.
Defined.

(** ** [draw] on arbitrary heaps *)

Lemma forEachM_preserves {S : Type} (R : S → S → Prop)
    (body : S → ref → option S) (l : list ref) :
  (∀ s, R s s) →
  (∀ a b c, R a b → R b c → R a c) →
  (∀ s w s', w ∈ l → body s w = Some s' → R s s') →
  ∀ s s', forEachM body l s = Some s' → R s s'.
Proof.
  intros Hrefl Htrans. induction l as [|w l IH]; intros Hstep s s'; simpl.
  - intros [= <-]. apply Hrefl.
  - destruct (body s w) as [s1|] eqn:E; simpl; [|done].
    intros Hl. eapply Htrans.
    + eapply Hstep; [left|exact E].
    + apply IH; [|done]. intros s0 w' s0' Hw'. apply Hstep. by right.
Qed.

Lemma forEachM_stuck {S : Type} (P : S → Prop)
    (body : S → ref → option S) (l : list ref) (w : ref) :
  w ∈ l →
  (∀ s, P s → body s w = None) →
  (∀ s w' s', P s → body s w' = Some s' → P s') →
  ∀ s, P s → forEachM body l s = None.
Proof.
  intros Hw Hnone Hkeep. induction l as [|w' l IH]; intros s Hs.
  - by apply elem_of_nil in Hw.
  - simpl. destruct (decide (w' = w)) as [->|Hne].
    + by rewrite Hnone.
    + destruct (body s w') as [s1|] eqn:E; simpl; [|done].
      apply IH; [|by eapply Hkeep].
      apply elem_of_cons in Hw as [?|?]; [congruence|done].
Qed.

Lemma structureKept_refl (s : Heap) : structureKept s s.
Proof. by split. Qed.

Lemma structureKept_trans (s1 s2 s3 : Heap) :
  structureKept s1 s2 → structureKept s2 s3 → structureKept s1 s3.
Proof.
  intros [H1 M1] [H2 M2]. split; [by eapply sameShape_trans|].
  intros e k q Hq. by apply M2, M1.
Qed.

(** The heap [placeChild] returns, spelled out. *)
Lemma placeChild_form (this view : ref) (s s3 : Heap) :
  placeChild this s view = Some s3 →
  ∃ c v a b,
    getContainer s this = Some c ∧ s !! view = Some v ∧
    s3 = alter (View.with_y b) view
           (alter (View.with_x a) view
              (match Container.relativePoints c !! view with
               | Some _ => s
               | None =>
                 alter (onContainer
                          (setRelativePoint view
                             (Point.mk (View.x v) (View.y v)))) this s
               end)).
Proof.
  unfold placeChild.
  destruct (getContainer s this) as [c|] eqn:Hc; simpl; [|done].
  destruct (s !! view) as [v|] eqn:Hv; simpl; [|done].
  destruct (Container.relativePoints c !! view) as [q|] eqn:Hq.
  - destruct (s !! this) as [t1|]; simpl; [|done].
    destruct (asContainer t1) as [c1|]; simpl; [|done].
    destruct (alter _ view s !! this) as [t2|]; simpl; [|done].
    destruct (asContainer t2) as [c2|]; simpl; [|done].
    intros [= <-]. exists c, v. eexists _, _. by rewrite Hq.
  - destruct (alter _ this s !! this) as [t1|]; simpl; [|done].
    destruct (asContainer t1) as [c1|]; simpl; [|done].
    destruct (alter _ view (alter _ this s) !! this) as [t2|]; simpl; [|done].
    destruct (asContainer t2) as [c2|]; simpl; [|done].
    intros [= <-]. exists c, v. eexists _, _. by rewrite Hq.
Qed.

Lemma placeChild_structure (this view : ref) (s s3 : Heap) :
  placeChild this s view = Some s3 → structureKept s s3.
Proof.
  intros H. apply placeChild_form in H as (c & v & a & b & Hc & Hv & ->).
  destruct (Container.relativePoints c !! view) as [q|] eqn:Hq.
  - split.
    + eapply sameShape_trans; apply sameShape_alter; done.
    + intros e k q' Hq'. by rewrite !relativePoint_alter_kind.
  - split.
    + eapply sameShape_trans; [|eapply sameShape_trans];
        apply sameShape_alter; try done.
      apply skeleton_onContainer_setRelativePoint.
    + intros e k q' Hq'. rewrite !relativePoint_alter_kind by done.
      rewrite (relativePoint_setRelativePoint _ _ _ _ c) by done.
      case_decide as Hek; [|done]. destruct Hek as [-> ->].
      unfold relativePoint in Hq'. rewrite Hc in Hq'. simpl in Hq'.
      congruence.
Qed.

Lemma geometry_alter_onContainer (g : Container.t → Container.t) (r r' : ref)
    (s : Heap) :
  geometry <$> alter (onContainer g) r s !! r' = geometry <$> s !! r'.
Proof.
  destruct (decide (r = r')) as [->|Hne].
  - rewrite lookup_alter_eq. destruct (s !! r') as [v|]; simpl; [|done].
    by destruct v as [? ? ? ? ? []].
  - by rewrite lookup_alter_ne.
Qed.

Lemma position_geometry (s s' : Heap) (r : ref) :
  geometry <$> s' !! r = geometry <$> s !! r →
  position s' r = position s r.
Proof.
  unfold position, geometry.
  destruct (s' !! r), (s !! r); simpl; try done. by intros [= -> -> _ _].
Qed.

Lemma placeChild_object_frame (this view r : ref) (s s3 : Heap) :
  placeChild this s view = Some s3 →
  r ≠ view →
  geometry <$> s3 !! r = geometry <$> s !! r ∧
  (r ≠ this → s3 !! r = s !! r).
Proof.
  intros H Hr. apply placeChild_form in H as (c & v & a & b & Hc & Hv & ->).
  split.
  - rewrite !lookup_alter_ne by done.
    destruct (Container.relativePoints c !! view); [done|].
    apply geometry_alter_onContainer.
  - intros Hrt. rewrite !lookup_alter_ne by done.
    destruct (Container.relativePoints c !! view); [done|].
    by rewrite lookup_alter_ne.
Qed.

Lemma layout_structure (lm : LayoutManager) (this : ref) (s s1 : Heap) :
  layout lm this s = Some s1 → structureKept s s1.
Proof.
  intros H. split.
  - apply sameShape_fixed. intros r. by eapply layout_fixed.
  - intros e k q. unfold relativePoint.
    rewrite (fixed_getContainer s s1 e); [done|]. by eapply layout_fixed.
Qed.

Lemma draw_structure (n : nat) :
  ∀ d s s', draw n d s = Some s' → structureKept s s'.
Proof.
  induction n as [|n IH]; intros d s s'; [done|].
  simpl. destruct (s !! d) as [t|] eqn:Ht; simpl; [|done].
  destruct (View.kind t) as [| |c] eqn:Hk;
    try (intros [= <-]; apply structureKept_refl).
  destruct (match Container.layoutManager c with
            | Some lm => layout lm d s
            | None => Some s
            end) as [s1|] eqn:Hl; simpl; [|done].
  destruct (getContainer s1 d) as [c1|]; simpl; [|done].
  intros Hloop.
  apply (structureKept_trans _ s1).
  - destruct (Container.layoutManager c) as [lm|].
    + by eapply layout_structure.
    + injection Hl as <-. apply structureKept_refl.
  - revert Hloop. apply forEachM_preserves.
    + apply structureKept_refl.
    + apply structureKept_trans.
    + intros s0 w s0' _. unfold drawChild.
      destruct (placeChild d s0 w) as [s3|] eqn:Hp; simpl; [|done].
      intros Hd. eapply structureKept_trans.
      * by eapply placeChild_structure.
      * by eapply IH.
Qed.

(** X4. A [draw] that returns has not changed the tree: every object
    has the same owner and the same child sequence as before, no object
    has appeared or gone, and every relative origin that was recorded is
    still recorded with the same value. *)
Theorem draw_keeps_tree (fuel : nat) (this : ref) (s s' : Heap) :
  draw fuel this s = Some s' →
  ∀ r, owner s' r = owner s r ∧
       children s' r = children s r ∧
       (is_Some (s' !! r) ↔ is_Some (s !! r)) ∧
       ∀ k q, relativePoint s r k = Some q → relativePoint s' r k = Some q.
Proof.
  intros Hd r. apply draw_structure in Hd as [Hshape Hmono].
  split; [by apply sameShape_owner|].
  split; [by apply sameShape_children|].
  split; [|by apply Hmono].
  split; apply sameShape_is_Some; [by apply sameShape_sym|done].
Qed.

Lemma draw_keeps_tree_witness :
  ∃ s', draw 3 0%nat nestedTree = Some s' ∧
        children s' 1%nat = [3%nat; 4%nat] ∧
        owner s' 3%nat = Some (Some 1%nat).
Proof.
  eexists. split; [vm_compute; reflexivity|].
  match goal with |- children ?s' _ = _ ∧ _ =>
    destruct (draw_keeps_tree 3 0%nat nestedTree s' eq_refl 1%nat)
      as (_ & Hch & _);
    destruct (draw_keeps_tree 3 0%nat nestedTree s' eq_refl 3%nat)
      as (Hown & _)
  end.
  split; [rewrite Hch|rewrite Hown]; reflexivity.
Defined.

(** ** Descendants, frames and cycles *)

Lemma below_children_eq (s s' : Heap) (d r : ref) :
  (∀ p, children s' p = children s p) → below s d r → below s' d r.
Proof.
  intros Hch Hb. induction Hb as [r Hr|w r _ IH Hr].
  - apply below_child. by rewrite Hch.
  - eapply below_step; [exact IH|]. by rewrite Hch.
Qed.

Lemma below_sameShape (s s' : Heap) (d r : ref) :
  sameShape s s' → below s d r ↔ below s' d r.
Proof.
  intros H. split; apply below_children_eq; intros p.
  - by apply sameShape_children.
  - symmetry. by apply sameShape_children.
Qed.

Lemma below_trans (s : Heap) (a b c : ref) :
  below s a b → below s b c → below s a c.
Proof.
  intros Hab Hbc. induction Hbc as [r Hr|w r _ IH Hr].
  - by eapply below_step.
  - by eapply below_step.
Qed.

Lemma below_first (s : Heap) (d r : ref) :
  below s d r → ∃ w, w ∈ children s d ∧ (w = r ∨ below s w r).
Proof.
  intros Hb. induction Hb as [r Hr|w r _ IH Hr].
  - exists r. by split; [|left].
  - destruct IH as (w0 & Hw0 & [->|Hb]).
    + exists w. split; [done|]. right. by apply below_child.
    + exists w0. split; [done|]. right. by eapply below_step.
Qed.

Lemma below_rank (rank : ref → nat) (s : Heap) (d r : ref) :
  wellFormed rank s → below s d r → (rank r < rank d)%nat.
Proof.
  intros Hwf Hb. induction Hb as [r Hr|w r _ IH Hr].
  - by apply (wf_rank _ _ Hwf).
  - pose proof (wf_rank _ _ Hwf _ _ Hr). lia.
Qed.

(** What a [draw] of [d] does to an object [r] that is not below [d]:
    its bounds stay, and unless it is [d] itself all of it stays. *)
Lemma draw_frame (n : nat) :
  ∀ d s s' r, draw n d s = Some s' → ¬ below s d r →
    geometry <$> s' !! r = geometry <$> s !! r ∧
    (r ≠ d → s' !! r = s !! r).
Proof.
  induction n as [|n IH]; intros d s s' r; [done|].
  simpl. destruct (s !! d) as [t|] eqn:Ht; simpl; [|done].
  destruct (View.kind t) as [| |c] eqn:Hk; try (by intros [= <-]).
  assert (getContainer s d = Some c) as Hc
    by (apply getContainer_Some; eauto).
  destruct (match Container.layoutManager c with
            | Some lm => layout lm d s
            | None => Some s
            end) as [s1|] eqn:Hl; simpl; [|done].
  assert (structureKept s s1 ∧ (r ∉ children s d → s1 !! r = s !! r))
    as [[Hshape1 _] Hframe1].
  { destruct (Container.layoutManager c) as [lm|].
    - split; [by eapply layout_structure|]. by eapply layout_frame.
    - injection Hl as <-. by split; [apply structureKept_refl|]. }
  destruct (getContainer s1 d) as [c1|] eqn:Hc1; simpl; [|done].
  intros Hloop Hnb.
  assert (children s1 d = Container.views c1) as Hch1
    by (by apply children_Some).
  assert (s1 !! r = s !! r) as Hr1
    by (apply Hframe1; intros Hin; apply Hnb; by apply below_child).
  assert (sameShape s1 s' ∧
          (geometry <$> s' !! r = geometry <$> s1 !! r ∧
           (r ≠ d → s' !! r = s1 !! r)))
    as [_ [Hpos Hobj]].
  { refine (forEachM_preserves
              (λ a b, sameShape s1 a →
                      sameShape s1 b ∧
                      (geometry <$> b !! r = geometry <$> a !! r ∧
                       (r ≠ d → b !! r = a !! r)))
              _ _ _ _ _ s1 s' Hloop (sameShape_refl s1)).
    - done.
    - intros a b0 c0 Hab Hbc Ha.
      destruct (Hab Ha) as [Hb [Hp1 Ho1]].
      destruct (Hbc Hb) as [Hc0 [Hp2 Ho2]].
      split; [done|]. split; [congruence|].
      intros Hrd. rewrite Ho2, Ho1; done.
    - intros a w a' Hw Hbody Ha. unfold drawChild in Hbody.
      destruct (placeChild d a w) as [a3|] eqn:Hp; simpl in Hbody; [|done].
      pose proof (placeChild_structure _ _ _ _ Hp) as [Hs3 _].
      pose proof (draw_structure _ _ _ _ Hbody) as [Hs4 _].
      assert (below s d w) as Hbw.
      { apply below_child. rewrite <- (sameShape_children _ _ _ Hshape1).
        by rewrite Hch1. }
      assert (r ≠ w) as Hrw by (intros ->; done).
      destruct (placeChild_object_frame _ _ r _ _ Hp Hrw) as [Hp3 Ho3].
      destruct (IH w a3 a' r Hbody) as [Hp4 Ho4].
      { intros Hb. apply Hnb. apply (below_trans _ _ w); [done|].
        apply (below_sameShape s a3); [|done].
        eapply sameShape_trans; [exact Hshape1|].
        eapply sameShape_trans; [exact Ha|exact Hs3]. }
      split; [eapply sameShape_trans; [exact Ha|];
              by eapply sameShape_trans|].
      split; [congruence|].
      intros Hrd. rewrite Ho4, Ho3; done. }
  split.
  - by rewrite Hpos, Hr1.
  - intros Hrd. by rewrite Hobj, Hr1.
Qed.

(** X5. Drawing a container leaves every object that is neither the
    container nor below it exactly as it was, and neither moves nor
    resizes the container itself unless the container is below itself. *)
Theorem draw_touches_only_descendants (fuel : nat) (this r : ref)
    (s s' : Heap) :
  draw fuel this s = Some s' →
  ¬ below s this r →
  geometry <$> s' !! r = geometry <$> s !! r ∧
  (r ≠ this → s' !! r = s !! r).
Proof. apply draw_frame. Qed.

Lemma draw_cycle (n : nat) :
  ∀ d s, below s d d → draw n d s = None.
Proof.
  induction n as [|n IH]; intros d s Hcycle; [done|].
  destruct (below_first _ _ _ Hcycle) as (w & Hw & Hwd).
  assert (below s w w) as Hww.
  { destruct Hwd as [->|Hwd]; [done|]. by eapply below_step. }
  simpl. destruct (s !! d) as [t|] eqn:Ht; simpl; [|done].
  destruct (View.kind t) as [| |c] eqn:Hk;
    try (unfold children, getContainer in Hw; rewrite Ht in Hw;
         simpl in Hw; unfold asContainer in Hw; rewrite Hk in Hw;
         by apply elem_of_nil in Hw).
  assert (getContainer s d = Some c) as Hc
    by (apply getContainer_Some; eauto).
  destruct (match Container.layoutManager c with
            | Some lm => layout lm d s
            | None => Some s
            end) as [s1|] eqn:Hl; simpl; [|done].
  assert (sameShape s s1) as Hshape1.
  { destruct (Container.layoutManager c) as [lm|].
    - by apply (layout_structure lm d).
    - injection Hl as <-. apply sameShape_refl. }
  destruct (getContainer s1 d) as [c1|] eqn:Hc1; simpl; [|done].
  apply (forEachM_stuck (λ a, below a w w) _ _ w).
  - rewrite <- (children_Some _ _ _ Hc1).
    by rewrite (sameShape_children _ _ _ Hshape1).
  - intros a Ha. unfold drawChild.
    destruct (placeChild d a w) as [a3|] eqn:Hp; simpl; [|done].
    apply IH. apply (below_sameShape a a3); [|done].
    by apply (placeChild_structure d w).
  - intros a w' a' Ha Hbody. unfold drawChild in Hbody.
    destruct (placeChild d a w') as [a3|] eqn:Hp; simpl in Hbody; [|done].
    apply (below_sameShape a a'); [|done].
    eapply sameShape_trans.
    + by apply (placeChild_structure d w').
    + by apply (draw_structure n w').
  - by apply (below_sameShape s s1).
Qed.

(** X6. [draw] never returns on a container that is below itself,
    whatever the recursion budget; [addChild] does not refuse to build
    such a heap: a container without owner can be added to itself. *)
Theorem draw_never_returns_in_cycle (fuel : nat) (this : ref) (s : Heap) :
  below s this this → draw fuel this s = None.
Proof. apply draw_cycle. Qed.

Lemma draw_never_returns_in_cycle_witness :
  ∃ s1, addChild 0%nat 0%nat loneContainer = Some (Normal s1) ∧
        draw 50 0%nat s1 = None.
Proof.
  eexists. split; [vm_compute; reflexivity|].
  apply draw_never_returns_in_cycle.
  apply below_child. vm_compute. left.
Defined.

Lemma draw_touches_only_descendants_witness :
  ∃ s', draw 2 1%nat nestedTree = Some s' ∧
        s' !! 0%nat = nestedTree !! 0%nat.
Proof.
  eexists. split; [vm_compute; reflexivity|].
  match goal with |- ?s' !! _ = _ =>
    destruct (draw_touches_only_descendants 2 1%nat 0%nat nestedTree s')
      as [_ Hobj]
  end.
  - vm_compute. reflexivity.
  - intros Hb.
    assert (wellFormed nestedRank nestedTree) as Hwf
      by (apply wellFormedb_sound; vm_compute; reflexivity).
    pose proof (below_rank nestedRank _ _ _ Hwf Hb) as Hlt.
    simpl in Hlt. lia.
  - apply Hobj. lia.
Defined.

(** ** Every container of a drawn tree has its children in place *)

Lemma contentOrigin_frame (s s' : Heap) (e : ref) :
  sameShape s s' → position s' e = position s e →
  contentOrigin s' e = contentOrigin s e.
Proof.
  intros Hs Hp. unfold contentOrigin.
  pose proof (sameShape_lookup _ _ e Hs) as Hl.
  destruct (s !! e) as [t|] eqn:Ht; [|by destruct (s' !! e)].
  destruct (s' !! e) as [t'|] eqn:Ht'; [|done]. simpl in *.
  injection Hl as _ Hl.
  unfold position in Hp. rewrite Ht, Ht' in Hp. simpl in Hp.
  injection Hp as Hx Hy. unfold asContainer.
  destruct (View.kind t) as [| |c], (View.kind t') as [| |c'];
    simpl in *; try done.
  injection Hl as _ _ HpL HpT _ _. by rewrite Hx, Hy, HpL, HpT.
Qed.

Lemma placedIn_frame (s s' : Heap) (e : ref) :
  structureKept s s' →
  position s' e = position s e →
  (∀ v, v ∈ children s e → position s' v = position s v) →
  placedIn s e → placedIn s' e.
Proof.
  intros [Hshape Hmono] Hpe Hpv Hplaced v Hv.
  rewrite (sameShape_children _ _ _ Hshape) in Hv.
  destruct (Hplaced v Hv) as (o & p & Ho & Hrel & Hpos).
  exists o, p. split; [|split].
  - by rewrite (contentOrigin_frame _ _ _ Hshape Hpe).
  - by apply Hmono.
  - by rewrite Hpv.
Qed.

Section Tree.
Variable rank : ref → nat.

Lemma below_parent (s : Heap) (a x p : ref) :
  wellFormed rank s → below s a x → x ∈ children s p →
  a = p ∨ below s a p.
Proof.
  intros Hwf Hb Hx.
  pose proof (wf_parent _ _ Hwf _ _ Hx) as Hop.
  destruct Hb as [r Hr|w r Hw Hr].
  - pose proof (wf_parent _ _ Hwf _ _ Hr). left. congruence.
  - pose proof (wf_parent _ _ Hwf _ _ Hr) as Hw'. right.
    assert (w = p) as <- by congruence. done.
Qed.

Lemma not_above_parent (s : Heap) (d w : ref) :
  wellFormed rank s → w ∈ children s d → ¬ (w = d ∨ below s w d).
Proof.
  intros Hwf Hw Habove. pose proof (wf_rank _ _ Hwf _ _ Hw) as Hlt.
  destruct Habove as [->|Hb]; [lia|].
  pose proof (below_rank rank _ _ _ Hwf Hb). lia.
Qed.

Lemma ancestors_ordered (s : Heap) (a x : ref) :
  wellFormed rank s → below s a x →
  ∀ b, below s b x → a = b ∨ below s a b ∨ below s b a.
Proof.
  intros Hwf Ha. induction Ha as [x Hx|w x Hw IH Hx]; intros b Hb.
  - destruct (below_parent _ _ _ _ Hwf Hb Hx) as [->|Hba]; auto.
  - destruct (below_parent _ _ _ _ Hwf Hb Hx) as [->|Hbw]; auto.
Qed.

(** Two different children of a container have disjoint subtrees. *)
Lemma subtree_disjoint (s : Heap) (d w0 w x : ref) :
  wellFormed rank s →
  w0 ∈ children s d → w ∈ children s d → w ≠ w0 →
  (x = w0 ∨ below s w0 x) → (x = w ∨ below s w x) → False.
Proof.
  intros Hwf Hw0 Hw Hne H0 H1.
  destruct H0 as [->|H0], H1 as [->|H1].
  - done.
  - apply (not_above_parent _ _ _ Hwf Hw).
    by apply (below_parent _ _ w0).
  - apply (not_above_parent _ _ _ Hwf Hw0).
    by apply (below_parent _ _ w).
  - destruct (ancestors_ordered _ _ _ Hwf H0 w H1) as [->|[Hb|Hb]].
    + done.
    + apply (not_above_parent _ _ _ Hwf Hw0).
      by apply (below_parent _ _ w).
    + apply (not_above_parent _ _ _ Hwf Hw).
      by apply (below_parent _ _ w0).
Qed.

Section Subtree.
Variable Q : Heap → ref → Prop.
Hypothesis Q_frame :
  ∀ s s' e, structureKept s s' →
    geometry <$> s' !! e = geometry <$> s !! e →
    (∀ v, v ∈ children s e → s' !! v = s !! v) →
    Q s e → Q s' e.
Hypothesis Q_top :
  ∀ n d s s', wellFormed rank s → (rank d < n)%nat →
    draw n d s = Some s' → Q s' d.

Section Step.
Variable n : nat.
Hypothesis draw_n_subtree :
  ∀ d s s', wellFormed rank s → (rank d < n)%nat →
    draw n d s = Some s' →
    ∀ e, e = d ∨ below s d e → Q s' e.

Lemma drawChild_subtree (d w : ref) (a a' : Heap) :
  wellFormed rank a →
  w ∈ children a d → (rank d ≤ n)%nat →
  drawChild (draw n) d a w = Some a' →
  structureKept a a' ∧
  (∀ e, e = w ∨ below a w e → Q a' e) ∧
  (∀ w0 e, w0 ∈ children a d → w0 ≠ w →
     e = w0 ∨ below a w0 e → Q a e → Q a' e).
Proof.
  intros Hwf Hw Hn Hbody. unfold drawChild in Hbody.
  destruct (placeChild d a w) as [a3|] eqn:Hp; simpl in Hbody; [|done].
  pose proof (placeChild_structure _ _ _ _ Hp) as Hk3.
  pose proof (draw_structure _ _ _ _ Hbody) as Hk4.
  pose proof Hk3 as [Hs3 _].
  pose proof (sameShape_wellFormed rank _ _ Hs3 Hwf) as Hwf3.
  pose proof (wf_rank _ _ Hwf _ _ Hw) as Hrank.
  split; [by eapply structureKept_trans|]. split.
  - intros e He. apply (draw_n_subtree w a3 a' Hwf3); [lia|done|].
    destruct He as [->|He]; [by left|right].
    by apply (below_sameShape a a3).
  - intros w0 e Hw0 Hne He HQ.
    assert (∀ x, x = w0 ∨ below a w0 x →
              geometry <$> a' !! x = geometry <$> a !! x ∧
              (x ≠ d → a' !! x = a !! x)) as Hframe.
    { intros x Hx.
      assert (x ≠ w) as Hxw.
      { intros ->. apply (subtree_disjoint a d w0 w w); auto. }
      destruct (placeChild_object_frame _ _ x _ _ Hp Hxw) as [Hg3 Ho3].
      destruct (draw_frame n w a3 a' x Hbody) as [Hg4 Ho4].
      { intros Hb. apply (below_sameShape a a3) in Hb; [|done].
        apply (subtree_disjoint a d w0 w x); auto. }
      split; [congruence|]. intros Hxd. rewrite Ho4, Ho3; done. }
    apply (Q_frame a a'); [by eapply structureKept_trans| | |done].
    + by apply Hframe.
    + intros v Hv.
      assert (below a w0 v) as Hbv.
      { destruct He as [->|He]; [by apply below_child|by eapply below_step]. }
      apply Hframe; [by right|].
      intros ->. apply (not_above_parent a d w0 Hwf Hw0). by right.
Qed.

Lemma drawLoop_subtree (d : ref) (l : list ref) :
  ∀ a a', wellFormed rank a →
    (∀ w, w ∈ l → w ∈ children a d) → (rank d ≤ n)%nat →
    forEachM (drawChild (draw n) d) l a = Some a' →
    structureKept a a' ∧
    (∀ w e, w ∈ l → e = w ∨ below a w e → Q a' e) ∧
    (∀ w0 e, w0 ∈ children a d → e = w0 ∨ below a w0 e →
       Q a e → Q a' e).
Proof.
  induction l as [|w l IH]; intros a a' Hwf Hl Hn; simpl.
  - intros [= <-]. split; [apply structureKept_refl|].
    split; [|done]. intros w e Hw. by apply elem_of_nil in Hw.
  - destruct (drawChild (draw n) d a w) as [a1|] eqn:Hstep; simpl; [|done].
    intros Hloop.
    destruct (drawChild_subtree d w a a1 Hwf (Hl w ltac:(left)) Hn Hstep)
      as (Hk1 & Hsub & Hothers).
    pose proof Hk1 as [Hs1 _].
    pose proof (sameShape_wellFormed rank _ _ Hs1 Hwf) as Hwf1.
    destruct (IH a1 a' Hwf1) as (Hk' & Hin & Hkeep); [|done|done|].
    { intros w' Hw'. rewrite (sameShape_children _ _ _ Hs1).
      apply Hl. by right. }
    assert (∀ w0 e, e = w0 ∨ below a w0 e → e = w0 ∨ below a1 w0 e)
      as Hmove.
    { intros w0 e [->|He]; [by left|right].
      by apply (below_sameShape a a1). }
    assert (∀ w0 e, w0 ∈ children a d → e = w0 ∨ below a w0 e →
              (w0 = w ∨ Q a e) → Q a' e) as Hall.
    { intros w0 e Hw0 He Hcase.
      apply (Hkeep w0 e);
        [by rewrite (sameShape_children _ _ _ Hs1)|by apply Hmove|].
      destruct (decide (w0 = w)) as [->|Hne]; [by apply Hsub|].
      destruct Hcase as [?|HQ]; [done|].
      by apply (Hothers w0 e). }
    split; [by eapply structureKept_trans|]. split.
    + intros w' e Hw' He.
      destruct (decide (w' = w)) as [->|Hne].
      * apply (Hall w e); [apply Hl; left|done|by left].
      * apply elem_of_cons in Hw' as [?|Hw']; [done|].
        apply (Hin w' e Hw'). by apply Hmove.
    + intros w0 e Hw0 He HQ. apply (Hall w0 e); auto.
Qed.

End Step.

(** What a [draw] establishes for the container it draws, it has
    established for every container below it. *)
Lemma draw_subtree (n : nat) :
  ∀ d s s', wellFormed rank s → (rank d < n)%nat →
    draw n d s = Some s' →
    ∀ e, e = d ∨ below s d e → Q s' e.
Proof.
  induction n as [|n IH]; intros d s s' Hwf Hn Hd e He; [lia|].
  destruct He as [->|He]; [by apply (Q_top (S n) d s s')|].
  destruct (s !! d) as [t|] eqn:Ht; [|by simpl in Hd; rewrite Ht in Hd].
  destruct (asContainer t) as [c|] eqn:Hk.
  - assert (View.kind t = KContainer c) as Hk'.
    { unfold asContainer in Hk. destruct (View.kind t); congruence. }
    assert (getContainer s d = Some c) as Hc
      by (apply getContainer_Some; eauto).
    rewrite (draw_container n d s t c Ht Hk') in Hd.
    destruct (layoutPass_spec rank d s t c Hwf Ht Hk')
      as (s1 & Hl & Hkeep1 & Hget & _).
    rewrite Hl in Hd. simpl in Hd. rewrite Hget, Hc in Hd. simpl in Hd.
    pose proof Hkeep1 as (Hshape1 & _).
    pose proof (sameShape_wellFormed rank _ _ Hshape1 Hwf) as Hwf1.
    destruct (drawLoop_subtree n IH d (Container.views c) s1 s' Hwf1)
      as (_ & Hin & _); [|lia|done|].
    { intros w Hw. rewrite (sameShape_children _ _ _ Hshape1).
      by rewrite (children_Some _ _ _ Hc). }
    destruct (below_first _ _ _ He) as (w & Hw & Hwe).
    apply (Hin w e); [by rewrite <- (children_Some _ _ _ Hc)|].
    destruct Hwe as [->|Hwe]; [by left|right].
    by apply (below_sameShape s s1).
  - (* a view or a label has no children *)
    assert (children s d = []) as Hnil.
    { unfold children, getContainer. rewrite Ht. simpl. by rewrite Hk. }
    destruct (below_first _ _ _ He) as (w & Hw & _).
    rewrite Hnil in Hw. by apply elem_of_nil in Hw.
Qed.

End Subtree.

Lemma placedIn_top (n : nat) (d : ref) (s s' : Heap) :
  wellFormed rank s → (rank d < n)%nat →
  draw n d s = Some s' → placedIn s' d.
Proof.
  intros Hwf Hn Hd.
  destruct n as [|n]; [lia|].
  destruct (s !! d) as [t|] eqn:Ht; [|by simpl in Hd; rewrite Ht in Hd].
  destruct (asContainer t) as [c|] eqn:Hk.
  - assert (View.kind t = KContainer c) as Hk'.
    { unfold asContainer in Hk. destruct (View.kind t); congruence. }
    assert (getContainer s d = Some c) as Hc
      by (apply getContainer_Some; eauto).
    destruct (draw_children rank (S n) d s t c Hwf Ht Hk' Hn)
      as (s1 & s'' & Hl & Hd' & Hkeep & Hput).
    rewrite Hd in Hd'. injection Hd' as <-.
    pose proof Hkeep as (Hshape & _).
    intros v Hv. rewrite (sameShape_children _ _ _ Hshape) in Hv.
    rewrite (children_Some _ _ _ Hc) in Hv.
    destruct (Hput v Hv) as (p & _ & Hrel & Hpos).
    eexists _, p. split; [|split; [exact Hrel|exact Hpos]].
    rewrite (keeps_contentOrigin rank d s s' Hwf Hkeep).
    by apply contentOrigin_Some.
  - rewrite (draw_leaf n d s t Ht Hk) in Hd. injection Hd as <-.
    intros v Hv. unfold children, getContainer in Hv.
    rewrite Ht in Hv. simpl in Hv. rewrite Hk in Hv.
    by apply elem_of_nil in Hv.
Qed.

Lemma draw_placed (n : nat) :
  ∀ d s s', wellFormed rank s → (rank d < n)%nat →
    draw n d s = Some s' →
    ∀ e, e = d ∨ below s d e → placedIn s' e.
Proof.
  apply (draw_subtree placedIn).
  - intros s s' e Hk Hg Hv. apply placedIn_frame; [done| |].
    + by apply position_geometry.
    + intros v Hin. unfold position. by rewrite Hv.
  - apply placedIn_top.
Qed.

End Tree.

(** X7. On a well-formed view tree a [draw] of a container returns, and
    afterwards every container of the drawn subtree, the drawn one and
    every container below it, has each of its children at its own
    position plus its own padding plus the relative origin it holds for
    the child: the translation from one coordinate space to the next
    composes down the tree. *)
Theorem draw_places_whole_subtree (rank : ref → nat) (fuel : nat)
    (this : ref) (s : Heap) :
  wellFormed rank s →
  (rank this < fuel)%nat →
  is_Some (s !! this) →
  ∃ s', draw fuel this s = Some s' ∧
        ∀ e, e = this ∨ below s this e → placedIn s' e.
Proof.
  intros Hwf Hfuel Hsome.
  destruct (draw_keeps rank fuel this s Hwf Hfuel Hsome) as (s' & Hd & _).
  exists s'. split; [done|]. by apply (draw_placed rank fuel this s).
Qed.

Lemma draw_places_whole_subtree_witness :
  ∃ s', draw 3 0%nat nestedTree = Some s' ∧
        position s' 1%nat = Some (3 + 10 + 5, 4 + 20 + 6) ∧
        position s' 4%nat = Some (1 + 18 + 0, 1 + 30 + 13).
Proof.
  destruct (draw_places_whole_subtree nestedRank 3 0%nat nestedTree)
    as (s' & Hd & Hplaced).
  - apply wellFormedb_sound. vm_compute. reflexivity.
  - simpl. lia.
  - vm_compute. eauto.
  - exists s'. split; [exact Hd|].
    vm_compute in Hd. injection Hd as <-.
    split.
    + destruct (Hplaced 0%nat (or_introl eq_refl) 1%nat) as (o & p & Ho & Hp & Hpos);
        [vm_compute; left|].
      vm_compute in Ho. injection Ho as <-.
      vm_compute in Hp. injection Hp as <-. exact Hpos.
    + destruct (Hplaced 1%nat (or_intror
                  (below_child nestedTree 0%nat 1%nat
                     ltac:(vm_compute; left))) 4%nat)
        as (o & p & Ho & Hp & Hpos); [vm_compute; right; left|].
      vm_compute in Ho. injection Ho as <-.
      vm_compute in Hp. injection Hp as <-. exact Hpos.
Defined.

(** ** More on the flow layout *)

Lemma measure_idem (v : View.t) : measure (measure v) = measure v.
Proof. destruct v as [? ? ? ? ? []]; reflexivity. Qed.

Lemma measure_placed (a b : float) (v : View.t) :
  measure (View.with_y b (View.with_x a v))
  = View.with_y b (View.with_x a (measure v)).
Proof. destruct v as [? ? ? ? ? []]; reflexivity. Qed.

Lemma unplaced_placed (a b : float) (v : View.t) :
  unplaced (View.with_y b (View.with_x a (measure v))) = unplaced v.
Proof.
  unfold unplaced. rewrite measure_placed, measure_idem.
  by destruct (measure v).
Qed.

Lemma placed_unplaced (a b : float) (v : View.t) :
  View.with_y b (View.with_x a (unplaced v))
  = View.with_y b (View.with_x a (measure v)).
Proof. unfold unplaced. by destruct (measure v). Qed.

Lemma unplaced_size (v v' : View.t) :
  unplaced v = unplaced v' →
  View.width (measure v) = View.width (measure v') ∧
  View.height (measure v) = View.height (measure v') ∧
  View.with_y 0 (View.with_x 0 (measure v))
  = View.with_y 0 (View.with_x 0 (measure v')).
Proof.
  unfold unplaced. intros H. split; [|split; [|done]].
  - by apply (f_equal View.width) in H.
  - by apply (f_equal View.height) in H.
Qed.

Lemma flowLoop_unplaced hs vs aw l x y (s : Heap) x' y' s' :
  flowLoop hs vs aw l (x, y, s) = Some (x', y', s') → sameUnplaced s s'.
Proof.
  unfold flowLoop. revert x y s.
  induction l as [|w l IH]; intros x y s; simpl.
  - intros ?. by simplify_eq.
  - destruct (flowStep hs vs aw (x, y, s) w) as [[[x1 y1] s1]|] eqn:E;
      simpl; [|done].
    intros Hl r. rewrite <- (IH _ _ _ Hl r).
    apply flowStep_inv in E as (v & a & b & Hv & ->).
    destruct (decide (w = r)) as [->|Hne].
    + rewrite lookup_insert_eq, Hv. simpl. by rewrite unplaced_placed.
    + by rewrite lookup_insert_ne.
Qed.

Lemma flowStep_sim hs vs aw x y (s s' : Heap) w x1 y1 s1 :
  sameUnplaced s s' →
  flowStep hs vs aw (x, y, s) w = Some (x1, y1, s1) →
  ∃ s1', flowStep hs vs aw (x, y, s') w = Some (x1, y1, s1') ∧
    sameUnplaced s1 s1' ∧
    s1 !! w = s1' !! w ∧
    ∀ r, r ≠ w → s1' !! r = s' !! r.
Proof.
  intros Hsim Hstep.
  destruct (s !! w) as [v|] eqn:Hv;
    [|unfold flowStep in Hstep; by rewrite Hv in Hstep].
  pose proof (Hsim w) as Hw. rewrite Hv in Hw.
  destruct (s' !! w) as [v'|] eqn:Hv'; [|done].
  simpl in Hw. apply (inj Some) in Hw.
  destruct (unplaced_size _ _ Hw) as (Hwidth & Hheight & _).
  rewrite (flowStep_Some _ _ _ _ _ _ _ _ Hv) in Hstep.
  rewrite (flowStep_Some _ _ _ _ _ _ _ _ Hv').
  cbv zeta in *. rewrite <- Hwidth, <- Hheight.
  injection Hstep as <- <- <-.
  eexists. split; [done|].
  assert (∀ a b, View.with_y b (View.with_x a (measure v))
                 = View.with_y b (View.with_x a (measure v'))) as Heq.
  { intros a b. by rewrite <- !placed_unplaced, Hw. }
  split; [|split].
  - intros r. destruct (decide (w = r)) as [->|Hne].
    + rewrite !lookup_insert_eq. simpl. by rewrite Heq.
    + rewrite !lookup_insert_ne by done. apply Hsim.
  - rewrite !lookup_insert_eq. by rewrite Heq.
  - intros r Hr. by rewrite lookup_insert_ne.
Qed.

Lemma flowLoop_sim hs vs aw l :
  ∀ x y (s s' : Heap) xf yf sf,
  sameUnplaced s s' →
  flowLoop hs vs aw l (x, y, s) = Some (xf, yf, sf) →
  ∃ sf', flowLoop hs vs aw l (x, y, s') = Some (xf, yf, sf') ∧
    (∀ r, r ∈ l → sf !! r = sf' !! r) ∧
    (∀ r, r ∉ l → sf' !! r = s' !! r).
Proof.
  unfold flowLoop.
  induction l as [|w l IH]; intros x y s s' xf yf sf Hsim; simpl.
  - intros ?. simplify_eq. exists s'. split; [done|]. split; [|done].
    intros r Hr. by apply elem_of_nil in Hr.
  - destruct (flowStep hs vs aw (x, y, s) w) as [[[x1 y1] s1]|] eqn:E;
      simpl; [|done].
    intros Hl.
    destruct (flowStep_sim _ _ _ _ _ _ _ _ _ _ _ Hsim E)
      as (s1' & E' & Hsim1 & Hw & Hother).
    destruct (IH _ _ _ _ _ _ _ Hsim1 Hl) as (sf' & Hl' & Hin & Hout).
    exists sf'. rewrite E'. simpl. split; [done|]. split.
    + intros r Hr. destruct (decide (r ∈ l)) as [Hrl|Hrl]; [by apply Hin|].
      apply elem_of_cons in Hr as [->|?]; [|done].
      rewrite (flowLoop_frame _ _ _ _ _ _ _ _ _ _ w Hl Hrl).
      by rewrite (Hout w Hrl).
    + intros r Hr. apply not_elem_of_cons in Hr as [Hne Hr].
      rewrite (Hout r Hr). by apply Hother.
Qed.

(** X8. A layout pass is idempotent: run again on the heap it has just
    produced, with nothing changed in between, it returns that heap
    unchanged. *)
Theorem layout_idempotent (lm : LayoutManager) (container : ref)
    (s s1 : Heap) :
  layout lm container s = Some s1 →
  layout lm container s1 = Some s1.
Proof.
  destruct lm as [|hs vs]; [done|]. simpl.
  destruct (s !! container) as [t|] eqn:Ht; simpl; [|done].
  destruct (asContainer t) as [c|] eqn:Hk; simpl; [|done].
  destruct (flowLoop _ _ _ _ _) as [[[xf yf] sf]|] eqn:Hl; simpl; [|done].
  intros [= <-].
  pose proof (flowLoop_unplaced _ _ _ _ _ _ _ _ _ _ Hl) as Hsim.
  pose proof (flowLoop_fixed _ _ _ _ _ _ _ _ _ _ container Hl) as Hfix.
  rewrite Ht in Hfix. destruct (sf !! container) as [t1|] eqn:Ht1; [|done].
  simpl in Hfix. injection Hfix as Hpar Hkind. simpl.
  assert (asContainer t1 = Some c) as ->
    by (unfold asContainer in *; by rewrite Hkind).
  simpl.
  assert (View.width t1 = View.width t) as ->.
  { pose proof (Hsim container) as Hc. rewrite Ht, Ht1 in Hc.
    simpl in Hc. apply (inj Some) in Hc.
    destruct (unplaced_size _ _ Hc) as (Hw & _).
    unfold asContainer in Hk. unfold measure in Hw. rewrite Hkind in Hw.
    by destruct (View.kind t). }
  destruct (flowLoop_sim _ _ _ _ _ _ _ _ _ _ _ Hsim Hl)
    as (sf' & Hl' & Hin & Hout).
  rewrite Hl'. simpl. f_equal. apply map_eq. intros r.
  destruct (decide (r ∈ Container.views c)) as [Hr|Hr].
  - symmetry. by apply Hin.
  - by apply Hout.
Qed.

Lemma layout_idempotent_witness :
  ∃ s1, layout (FlowLayoutManager 0 0) 0%nat flowRows = Some s1 ∧
        layout (FlowLayoutManager 0 0) 0%nat s1 = Some s1.
Proof.
  eexists. split; [vm_compute; reflexivity|].
  apply (layout_idempotent _ _ flowRows). vm_compute. reflexivity.
Defined.

(** X10. Two neighbours in the child sequence that the flow layout
    leaves on one row are two horizontal gaps apart: the second starts
    at the first one's [x] plus the sum of [horizonSpace], its width
    and [horizonSpace] again, added up in the order the source adds
    them.  When the second with its gap does not fit there, it starts a
    row at [x = 0], its own height plus the vertical gap further
    down. *)
Theorem flow_neighbours_two_gaps_apart (hs vs : float) (s : Heap)
    (container : ref) (t : View.t) (c : Container.t)
    (pre post : list ref) (a b : ref) :
  s !! container = Some t →
  View.kind t = KContainer c →
  Container.views c = pre ++ a :: b :: post →
  a ≠ b → a ∉ post → b ∉ post →
  (∀ r, r ∈ Container.views c → is_Some (s !! r)) →
  ∃ s' va vb,
    layout (FlowLayoutManager hs vs) container s = Some s' ∧
    s' !! a = Some va ∧ s' !! b = Some vb ∧
    let availableWidth :=
      View.width t - (Container.paddingLeft c + Container.paddingRight c) in
    let next := View.x va + (hs + View.width va + hs) in
    (¬ numGt (hs + View.width vb + next) availableWidth →
       position s' b = Some (next, View.y va)) ∧
    (numGt (hs + View.width vb + next) availableWidth →
       position s' b = Some (0, View.y va + (View.height vb + vs))).
Proof.
  intros Ht Hk Hviews Hab Ha Hb Hall.
  rewrite (layout_flow_unfold _ _ _ _ _ _ Ht Hk).
  set (aw := View.width t - _).
  destruct (flowLoop_total hs vs aw (Container.views c) 0 0 s Hall)
    as [[[xf yf] sf] Hf].
  rewrite Hf. simpl.
  unfold flowLoop in Hf. rewrite Hviews, forEachM_app in Hf.
  destruct (forEachM _ pre _) as [[[x y] s1]|] eqn:Epre; simpl in Hf; [|done].
  assert (∀ r, r ∈ Container.views c → is_Some (s1 !! r)) as Hall1.
  { intros r Hr. destruct (Hall r Hr) as [v0 Hv0].
    pose proof (flowLoop_fixed _ _ _ _ _ _ _ _ _ _ r Epre) as Hfx.
    rewrite Hv0 in Hfx. destruct (s1 !! r); [eauto|done]. }
  destruct (Hall1 a) as [v1a Hv1a];
    [rewrite Hviews; apply elem_of_app; right; left|].
  destruct (Hall1 b) as [v1b Hv1b];
    [rewrite Hviews; apply elem_of_app; right; right; left|].
  rewrite (flowStep_Some _ _ _ _ _ _ _ _ Hv1a) in Hf. cbv zeta in Hf.
  simpl in Hf.
  erewrite flowStep_Some in Hf
    by (rewrite lookup_insert_ne by done; exact Hv1b).
  cbv zeta in Hf. simpl in Hf.
  change (forEachM (flowStep hs vs aw) post) with (flowLoop hs vs aw post)
    in Hf.
  pose proof (flowLoop_frame _ _ _ _ _ _ _ _ _ _ a Hf Ha) as Hfa.
  pose proof (flowLoop_frame _ _ _ _ _ _ _ _ _ _ b Hf Hb) as Hfb.
  rewrite lookup_insert_ne, lookup_insert_eq in Hfa by done.
  rewrite lookup_insert_eq in Hfb.
  eexists sf, _, _. split; [done|]. split; [exact Hfa|].
  split; [exact Hfb|].
  unfold position. rewrite Hfb. simpl.
  split; intros Hcmp.
  - apply not_true_is_false in Hcmp. simpl in Hcmp. by rewrite Hcmp.
  - unfold numGt in Hcmp. simpl in Hcmp. by rewrite Hcmp.
Qed.

Lemma flow_neighbours_two_gaps_apart_witness :
  ∃ s', layout (FlowLayoutManager 2 1) 1%nat nestedTree = Some s' ∧
        position s' 3%nat = Some (0, 0) ∧
        position s' 4%nat = Some (0, 0 + (12 + 1)).
Proof.
  destruct (flow_neighbours_two_gaps_apart 2 1 nestedTree 1%nat
              (containerView 5 6 100 50 (Some 0%nat) [3%nat; 4%nat]
                 (Some (FlowLayoutManager 2 1)) 1 1)
              (Container.mk [3%nat; 4%nat] (Some (FlowLayoutManager 2 1))
                 ∅ 1 1 0 0)
              [] [] 3%nat 4%nat)
    as (s' & va & vb & Hl & Hva & Hvb & _ & Hwrap).
  - reflexivity.
  - reflexivity.
  - reflexivity.
  - lia.
  - apply not_elem_of_nil.
  - apply not_elem_of_nil.
  - intros r Hr. apply list_elem_of_In in Hr. simpl in Hr.
    destruct Hr as [<-|[<-|[]]]; vm_compute; eauto.
  - exists s'. split; [exact Hl|].
    vm_compute in Hl. injection Hl as <-.
    vm_compute in Hva. injection Hva as <-.
    vm_compute in Hvb. injection Hvb as <-.
    split; [reflexivity|]. apply Hwrap. vm_compute. reflexivity.
Defined.

Lemma flowLoop_touch hs vs aw l :
  ∀ x y (s : Heap) xf yf sf r v',
  flowLoop hs vs aw l (x, y, s) = Some (xf, yf, sf) →
  sf !! r = Some v' →
  ∃ v, s !! r = Some v ∧
    (v' = v ∨ ∃ a b, v' = View.with_y b (View.with_x a (measure v))).
Proof.
  unfold flowLoop.
  induction l as [|w l IH]; intros x y s xf yf sf r v'; simpl.
  - intros ? Hr. simplify_eq. eauto.
  - destruct (flowStep hs vs aw (x, y, s) w) as [[[x1 y1] s1]|] eqn:E;
      simpl; [|done].
    intros Hl Hr.
    destruct (IH _ _ _ _ _ _ _ _ Hl Hr) as (v1 & Hv1 & Hcase).
    apply flowStep_inv in E as (v & a & b & Hv & ->).
    destruct (decide (w = r)) as [->|Hne].
    + rewrite lookup_insert_eq in Hv1. injection Hv1 as <-.
      exists v. split; [done|]. right.
      destruct Hcase as [->|(a' & b' & ->)]; [eauto|].
      exists a', b'. by rewrite measure_placed, measure_idem.
    + rewrite lookup_insert_ne in Hv1 by done. eauto.
Qed.

(** X11. A layout pass touches only the children of its container, and
    of a child only the position and what its [measure] sets: every
    object of the resulting heap is the object as it was, or, for a
    child, the object after [measure] with a new [x] and [y]; owners,
    classes, child sequences and relative origins are as before. *)
Theorem layout_touches_only_children (lm : LayoutManager) (container : ref)
    (s s' : Heap) :
  layout lm container s = Some s' →
  (∀ r, r ∉ children s container → s' !! r = s !! r) ∧
  (∀ r v', s' !! r = Some v' →
     ∃ v, s !! r = Some v ∧
       (v' = v ∨ ∃ a b, v' = View.with_y b (View.with_x a (measure v)))) ∧
  (∀ r, owner s' r = owner s r ∧ children s' r = children s r ∧
        ∀ k, relativePoint s' r k = relativePoint s r k).
Proof.
  intros Hl. split; [|split].
  - intros r Hr. by eapply layout_frame.
  - intros r v' Hr. destruct lm as [|hs vs]; simpl in Hl.
    + injection Hl as <-. eauto.
    + destruct (s !! container) as [t|]; simpl in Hl; [|done].
      destruct (asContainer t) as [c|]; simpl in Hl; [|done].
      destruct (flowLoop _ _ _ _ _) as [[[xf yf] sf]|] eqn:E;
        simpl in Hl; [|done].
      injection Hl as <-. by eapply flowLoop_touch.
  - intros r. pose proof (layout_structure _ _ _ _ Hl) as [Hshape _].
    split; [by apply sameShape_owner|].
    split; [by apply sameShape_children|].
    intros k. unfold relativePoint.
    rewrite (fixed_getContainer s s' r); [done|]. by eapply layout_fixed.
Qed.

Lemma layout_touches_only_children_witness :
  ∃ s', layout (FlowLayoutManager 2 1) 1%nat nestedTree = Some s' ∧
        s' !! 2%nat = nestedTree !! 2%nat ∧
        children s' 1%nat = [3%nat; 4%nat].
Proof.
  eexists. split; [vm_compute; reflexivity|].
  match goal with |- ?s' !! _ = _ ∧ _ =>
    destruct (layout_touches_only_children (FlowLayoutManager 2 1) 1%nat
                nestedTree s' eq_refl) as (Hframe & _ & Hkeep)
  end.
  split.
  - apply Hframe. vm_compute. intros H. apply list_elem_of_In in H.
    simpl in H. lia.
  - destruct (Hkeep 1%nat) as (_ & -> & _). reflexivity.
Defined.

(** ** More on hit-testing and event routing *)

Lemma leb_nan_l (a : float) : (nan <=? a) = false.
Proof. rewrite leb_spec. reflexivity. Qed.

Lemma leb_nan_r (a : float) : (a <=? nan) = false.
Proof.
  rewrite leb_spec. change (Prim2SF nan) with S754_nan.
  by destruct (Prim2SF a) as [[]|[]| |[] m e].
Qed.

Lemma add_nan_r (a : float) : a + nan = nan.
Proof.
  apply Prim2SF_inj. rewrite add_spec. change (Prim2SF nan) with S754_nan.
  by destruct (Prim2SF a) as [[]|[]| |[] m e].
Qed.

(** X20. A point with a [NaN] coordinate is in no view, and a view with
    a [NaN] among its [x], [y], [width] and [height] contains no
    point: every comparison with a [NaN] is false, and a sum with one is
    a [NaN]. *)
Theorem isIntersect_nan (v : View.t) (px py : float) :
  px = nan ∨ py = nan ∨
  View.x v = nan ∨ View.y v = nan ∨
  View.width v = nan ∨ View.height v = nan →
  isIntersect v px py = false.
Proof.
  unfold isIntersect.
  intros [-> | [-> | [-> | [-> | [-> | ->]]]]];
    rewrite ?add_nan_r, ?leb_nan_l, ?leb_nan_r, ?andb_false_r;
    reflexivity.
Qed.

Lemma isIntersect_nan_witness :
  isIntersect (plainView 5 5 nan 10 None) 6 6 = false.
Proof.
  apply (isIntersect_nan (plainView 5 5 nan 10 None) 6 6).
  right. right. right. right. left. reflexivity.
Defined.

Lemma handleEvent_log (registerViews : list (ref * Handler))
    (event : Event.t) :
  ∀ s calls s' calls',
  handleEvent registerViews event (s, calls) = Some (s', calls') →
  ∃ new, calls' = calls ++ new ∧
         new.*1 `sublist_of` registerViews.*1 ∧
         Forall (λ call, call.2 = event) new.
Proof.
  induction registerViews as [|[view h] rest IH]; intros s calls s' calls'.
  - simpl. intros [= <- <-]. exists []. by rewrite app_nil_r.
  - simpl. destruct (s !! view) as [v|]; simpl; [|done].
    destruct (isIntersect v (Event.x event) (Event.y event)).
    + intros Hrest. apply IH in Hrest as (new & -> & Hsub & Hall).
      exists ((view, event) :: new). rewrite <- app_assoc. split; [done|].
      split; [by apply sublist_skip|]. by constructor.
    + intros Hrest. apply IH in Hrest as (new & -> & Hsub & Hall).
      exists new. split; [done|]. split; [by apply sublist_cons|done].
Qed.

(** X13. Whatever the handlers do to the heap, one dispatch calls the
    handler of a registered view at most once, passes the event itself,
    and goes through the views in the order of registration: the views
    of the calls form a subsequence of the registered views, without
    repetition when no view is registered twice. *)
Theorem handleEvent_at_most_once (registerViews : list (ref * Handler))
    (event : Event.t) (s s' : Heap) (calls : list (ref * Event.t)) :
  handleEvent registerViews event (s, []) = Some (s', calls) →
  calls.*1 `sublist_of` registerViews.*1 ∧
  Forall (λ call, call.2 = event) calls ∧
  (NoDup registerViews.*1 → NoDup calls.*1).
Proof.
  intros H. apply handleEvent_log in H as (new & -> & Hsub & Hall).
  simpl. split; [done|]. split; [done|].
  intros Hnd. by eapply sublist_NoDup.
Qed.

Lemma handleEvent_at_most_once_witness :
  ∃ s' calls,
    handleEvent overlappingRegistry press (overlapping, []) =
      Some (s', calls) ∧
    calls.*1 `sublist_of` [2%nat; 1%nat; 3%nat].
Proof.
  eexists _, _. split; [vm_compute; reflexivity|].
  eapply (handleEvent_at_most_once overlappingRegistry press overlapping).
  vm_compute. reflexivity.
Defined.

(** X14. An event whose point lies in no registered view calls no
    handler and leaves the heap as it is. *)
Theorem handleEvent_miss (registerViews : list (ref * Handler))
    (event : Event.t) (s : Heap) (calls : list (ref * Event.t)) :
  (∀ view, view ∈ registerViews.*1 → is_Some (s !! view)) →
  (∀ view, view ∈ registerViews.*1 → hit s event view = false) →
  handleEvent registerViews event (s, calls) = Some (s, calls).
Proof.
  induction registerViews as [|[view h] rest IH]; intros Hdom Hmiss.
  - done.
  - simpl. destruct (Hdom view) as [v Hv]; [simpl; left|].
    rewrite Hv. simpl.
    pose proof (Hmiss view ltac:(simpl; left)) as Hh.
    unfold hit in Hh. rewrite Hv in Hh. rewrite Hh.
    apply IH; intros u Hu; [apply Hdom|apply Hmiss]; simpl; by right.
Qed.

Lemma handleEvent_miss_witness :
  handleEvent overlappingRegistry (Event.mk 100 100 "mousemove")
    (overlapping, []) = Some (overlapping, []).
Proof.
  apply handleEvent_miss.
  - intros view Hview. apply list_elem_of_In in Hview. simpl in Hview.
    destruct Hview as [<-|[<-|[<-|[]]]]; vm_compute; eauto.
  - intros view Hview. apply list_elem_of_In in Hview. simpl in Hview.
    destruct Hview as [<-|[<-|[<-|[]]]]; reflexivity.
Defined.

Lemma mapSet_keys (m : list (ref * Handler)) (view : ref) (h : Handler) :
  (mapSet m view h).*1 =
    if decide (view ∈ m.*1) then m.*1 else m.*1 ++ [view].
Proof.
  induction m as [|[k h'] m IH]; [done|].
  cbn [mapSet]. destruct (decide (k = view)) as [->|Hne];
    rewrite !fmap_cons; cbn [fst].
  - rewrite decide_True; [done|left].
  - rewrite IH. destruct (decide (view ∈ m.*1)) as [Hin|Hout].
    + rewrite decide_True; [done|by right].
    + rewrite decide_False; [done|].
      intros Hin. apply elem_of_cons in Hin as [?|?]; congruence.
Qed.

Lemma mapSet_lookup (m : list (ref * Handler)) (view u : ref)
    (h hu : Handler) :
  (u, hu) ∈ mapSet m view h →
  (u = view ∧ (hu = h ∨ (u, hu) ∈ m)) ∨ (u ≠ view ∧ (u, hu) ∈ m).
Proof.
  induction m as [|[k h'] m IH]; simpl.
  - intros Hin. apply list_elem_of_singleton in Hin as [= -> ->]. auto.
  - destruct (decide (k = view)) as [->|Hne]; intros Hin;
      apply elem_of_cons in Hin as [[= -> ->]|Hin].
    + auto.
    + destruct (decide (u = view)) as [->|Hu]; [left|right];
        (split; [done|]); [right|]; by right.
    + right. split; [done|left].
    + destruct (IH Hin) as [[-> [->|Hm]]|[Hu Hm]]; auto.
      * left. split; [done|]. right. by right.
      * right. split; [done|]. by right.
Qed.

(** X15. [registerMouseEvent] keeps one entry for each view: a view
    registered again keeps its place in the dispatch order and takes the
    new handler, which replaces the old one; a new view goes to the end;
    the entries of the other views stay as they were. *)
Theorem registerMouseEvent_replaces (registerViews : list (ref * Handler))
    (view : ref) (eventHandle : Handler) :
  NoDup registerViews.*1 →
  let registered := registerMouseEvent registerViews view eventHandle in
  NoDup registered.*1 ∧
  registered.*1 =
    (if decide (view ∈ registerViews.*1) then registerViews.*1
     else registerViews.*1 ++ [view]) ∧
  (view, eventHandle) ∈ registered ∧
  (∀ h, (view, h) ∈ registered → h = eventHandle) ∧
  (∀ u h, u ≠ view → (u, h) ∈ registered ↔ (u, h) ∈ registerViews).
Proof.
  intros Hnd registered. unfold registered, registerMouseEvent.
  assert (NoDup (mapSet registerViews view eventHandle).*1) as Hnd'.
  { rewrite mapSet_keys. case_decide as Hin; [done|].
    apply NoDup_app. split; [done|]. split; [|apply NoDup_singleton].
    intros x Hx Hx'. apply list_elem_of_singleton in Hx' as ->. done. }
  assert ((view, eventHandle) ∈ mapSet registerViews view eventHandle)
    as Hin.
  { clear. induction registerViews as [|[k h'] m IH]; simpl; [left|].
    destruct (decide (k = view)) as [->|Hne]; [left|by right]. }
  split; [done|]. split; [apply mapSet_keys|]. split; [done|]. split.
  - intros h Hh.
    apply list_elem_of_lookup in Hin as [i Hi].
    apply list_elem_of_lookup in Hh as [j Hj].
    assert (i = j) as ->.
    { eapply NoDup_lookup; [exact Hnd'| |].
      - rewrite list_lookup_fmap, Hi. done.
      - rewrite list_lookup_fmap, Hj. done. }
    congruence.
  - intros u h Hu. split.
    + intros Hm. apply mapSet_lookup in Hm as [[? _]|[_ ?]]; done.
    + clear -Hu. induction registerViews as [|[k h'] m IH]; simpl.
      * intros Hm. by apply elem_of_nil in Hm.
      * intros Hm. destruct (decide (k = view)) as [->|Hne].
        -- apply elem_of_cons in Hm as [[= -> ->]|Hm]; [done|by right].
        -- apply elem_of_cons in Hm as [[= -> ->]|Hm]; [left|].
           right. by apply IH.
Qed.

Lemma registerMouseEvent_replaces_witness :
  (registerMouseEvent overlappingRegistry 2%nat nudge).*1
  = [2%nat; 1%nat; 3%nat].
Proof.
  destruct (registerMouseEvent_replaces overlappingRegistry 2%nat nudge)
    as (_ & Hkeys & _).
  - apply (bool_decide_unpack _). vm_compute. exact I.
  - rewrite Hkeys. reflexivity.
Defined.

(** ** Painting *)

Local Arguments flowStep : simpl never.
Local Arguments placeChild : simpl never.

Lemma forEachM_project {S T : Type} (π : S → T)
    (bodyL : S → ref → option S) (body : T → ref → option T) (l : list ref) :
  (∀ st w, π <$> bodyL st w = body (π st) w) →
  ∀ st, π <$> forEachM bodyL l st = forEachM body l (π st).
Proof.
  intros H. induction l as [|w l IH]; intros st; simpl; [done|].
  rewrite <- H. destruct (bodyL st w) as [st1|]; simpl; [apply IH|done].
Qed.

Lemma flowStepLog_project (styles : Styles) hs vs aw st w :
  (λ st : float * float * Painted, (st.1.1, st.1.2, st.2.1)) <$>
    flowStepLog styles hs vs aw st w
  = flowStep hs vs aw (st.1.1, st.1.2, st.2.1) w.
Proof.
  destruct st as [[x y] [s log]]. simpl. unfold flowStepLog.
  destruct (s !! w) as [v|] eqn:Hv; simpl.
  - by destruct (flowStep hs vs aw (x, y, s) w) as [[[x' y'] s']|].
  - unfold flowStep. by rewrite Hv.
Qed.

Lemma layoutLog_fst (styles : Styles) (lm : LayoutManager) (container : ref)
    (st : Painted) :
  fst <$> layoutLog styles lm container st = layout lm container st.1.
Proof.
  destruct lm as [|hs vs]; simpl; [done|].
  destruct (st.1 !! container) as [t|]; simpl; [|done].
  destruct (asContainer t) as [c|]; simpl; [|done].
  unfold flowLoop.
  set (aw := View.width t - _).
  pose proof (forEachM_project
                (λ st : float * float * Painted, (st.1.1, st.1.2, st.2.1))
                (flowStepLog styles hs vs aw) (flowStep hs vs aw)
                (Container.views c)
                (flowStepLog_project styles hs vs aw) (0, 0, st)) as H.
  simpl in H. rewrite <- H.
  by destruct (forEachM _ _ _) as [[[x y] [s' log']]|].
Qed.

(** The heap that [draw] with the calls on the context returns is the
    heap that [draw] returns. *)
Lemma drawLog_fst (styles : Styles) (n : nat) :
  ∀ d st, fst <$> drawLog styles n d st = draw n d st.1.
Proof.
  induction n as [|n IH]; intros d st; [done|]. simpl.
  destruct (st.1 !! d) as [t|]; simpl; [|done].
  destruct (View.kind t) as [| |c]; [done|done|].
  pose proof (layoutLog_fst styles) as Hlay.
  destruct (Container.layoutManager c) as [lm|].
  - specialize (Hlay lm d (st.1, st.2 ++ viewDraw (styles d) d t)).
    simpl in Hlay. rewrite <- Hlay.
    destruct (layoutLog styles lm d _) as [st1|]; simpl; [|done].
    destruct (getContainer st1.1 d) as [c1|]; simpl; [|done].
    apply forEachM_project. intros st0 w. unfold drawChildLog, drawChild.
    destruct (placeChild d st0.1 w) as [s3|]; simpl; [|done].
    pose proof (IH w (s3, st0.2 ++ [Save])) as Hw. simpl in Hw.
    rewrite <- Hw. by destruct (drawLog styles n w _).
  - simpl. destruct (getContainer st.1 d) as [c1|]; simpl; [|done].
    rewrite (forEachM_project fst
               (drawChildLog (drawLog styles n) d) (drawChild (draw n) d));
      [done|].
    intros st0 w. unfold drawChildLog, drawChild.
    destruct (placeChild d st0.1 w) as [s3|]; simpl; [|done].
    pose proof (IH w (s3, st0.2 ++ [Save])) as Hw. simpl in Hw.
    rewrite <- Hw. by destruct (drawLog styles n w _).
Qed.

Lemma saveDepth_app (a b : list Command) (depth : nat) :
  saveDepth (a ++ b) depth = saveDepth a depth ≫= saveDepth b.
Proof.
  revert depth. induction a as [|cmd a IH]; intros depth; [done|].
  destruct cmd; simpl; try apply IH. destruct depth; [done|apply IH].
Qed.

Lemma neutral_nil : neutral [].
Proof. done. Qed.

Lemma neutral_app (a b : list Command) :
  neutral a → neutral b → neutral (a ++ b).
Proof.
  intros Ha Hb depth. rewrite saveDepth_app, Ha. simpl. apply Hb.
Qed.

Lemma neutral_bracket (a : list Command) :
  neutral a → neutral ([Save] ++ a ++ [Restore]).
Proof.
  intros Ha depth. simpl. rewrite saveDepth_app, Ha. done.
Qed.

Lemma neutral_viewDraw (st : Style.t) (this : ref) (v : View.t) :
  neutral (viewDraw st this v).
Proof.
  unfold viewDraw, drawBg, drawBorder. intros depth.
  destruct (Style.bg st), (Style.border st) as [b|]; simpl; try done;
    destruct (0 <? Border.width b); done.
Qed.

Lemma neutral_labelDraw (st : Style.t) (this : ref) (v : View.t)
    (l : Label.t) :
  neutral (labelDraw st this v l).
Proof.
  unfold labelDraw. apply neutral_app; [apply neutral_viewDraw|done].
Qed.

Lemma neutral_measureLog (st : Style.t) (v : View.t) :
  neutral (measureLog st v).
Proof. unfold measureLog. by destruct (View.kind v). Qed.

(** What a run appends to the calls: [P] holds of it. *)
Lemma forEachM_appends {S : Type} (log : S → list Command)
    (P : list Command → Prop) (body : S → ref → option S) (l : list ref) :
  P [] → (∀ a b, P a → P b → P (a ++ b)) →
  (∀ st w st', body st w = Some st' →
     ∃ L, log st' = log st ++ L ∧ P L) →
  ∀ st st', forEachM body l st = Some st' →
    ∃ L, log st' = log st ++ L ∧ P L.
Proof.
  intros Hnil Happ Hstep.
  apply (forEachM_preserves (λ st st', ∃ L, log st' = log st ++ L ∧ P L)).
  - intros st. exists []. by rewrite app_nil_r.
  - intros a b c (L1 & -> & H1) (L2 & -> & H2).
    exists (L1 ++ L2). rewrite app_assoc. auto.
  - intros st w st' _. apply Hstep.
Qed.

Lemma layoutLog_appends (styles : Styles) (lm : LayoutManager)
    (container : ref) (st st' : Painted) :
  layoutLog styles lm container st = Some st' →
  ∃ L, st'.2 = st.2 ++ L ∧
       neutral L ∧ ∀ cmd, cmd ∈ L → rectangleOf cmd = None.
Proof.
  destruct lm as [|hs vs]; simpl.
  - intros [= <-]. exists []. rewrite app_nil_r. split; [done|].
    split; [done|]. intros cmd H. by apply elem_of_nil in H.
  - destruct (st.1 !! container) as [t|]; simpl; [|done].
    destruct (asContainer t) as [c|]; simpl; [|done].
    destruct (forEachM _ _ _) as [[[xf yf] stf]|] eqn:E; simpl; [|done].
    intros [= <-].
    apply (forEachM_appends (λ st : float * float * Painted, st.2.2)
             (λ L, neutral L ∧ ∀ cmd, cmd ∈ L → rectangleOf cmd = None))
      in E; [exact E| | |].
    + split; [done|]. intros cmd H. by apply elem_of_nil in H.
    + intros a b [Ha Ha'] [Hb Hb']. split; [by apply neutral_app|].
      intros cmd Hcmd. apply elem_of_app in Hcmd as [?|?]; auto.
    + intros [[x y] [s log]] w [[x' y'] [s' log']]. unfold flowStepLog.
      destruct (s !! w) as [v|]; simpl; [|done].
      destruct (flowStep _ _ _ _ _) as [[[x1 y1] s1]|]; simpl; [|done].
      intros [= <- <- <- <-]. eexists. split; [done|].
      split; [apply neutral_measureLog|].
      intros cmd Hcmd. unfold measureLog in Hcmd.
      destruct (View.kind v); try (by apply elem_of_nil in Hcmd).
      by apply list_elem_of_singleton in Hcmd as ->.
Qed.

Lemma drawLog_neutral (styles : Styles) (n : nat) :
  ∀ d st st', drawLog styles n d st = Some st' →
    ∃ L, st'.2 = st.2 ++ L ∧ neutral L.
Proof.
  induction n as [|n IH]; intros d st st'; [done|]. simpl.
  destruct (st.1 !! d) as [t|]; simpl; [|done].
  destruct (View.kind t) as [|l|c].
  - intros [= <-]. eexists. split; [done|]. apply neutral_viewDraw.
  - intros [= <-]. eexists. split; [done|]. apply neutral_labelDraw.
  - destruct (match Container.layoutManager c with
              | Some lm => layoutLog styles lm d _
              | None => _
              end) as [st1|] eqn:Hl; simpl; [|done].
    assert (∃ L, st1.2 = (st.2 ++ viewDraw (styles d) d t) ++ L ∧ neutral L)
      as (L1 & HL1 & Hn1).
    { destruct (Container.layoutManager c) as [lm|].
      - apply layoutLog_appends in Hl as (L & HL & Hn & _). eauto.
      - injection Hl as <-. exists []. by rewrite app_nil_r. }
    destruct (getContainer st1.1 d) as [c1|]; simpl; [|done].
    intros Hloop.
    apply (forEachM_appends snd neutral) in Hloop as (L2 & HL2 & Hn2).
    + exists (viewDraw (styles d) d t ++ L1 ++ L2).
      split; [rewrite HL2, HL1; by rewrite <- !app_assoc|].
      apply neutral_app; [apply neutral_viewDraw|by apply neutral_app].
    + done.
    + apply neutral_app.
    + intros st0 w st0'. unfold drawChildLog.
      destruct (placeChild d st0.1 w) as [s3|]; simpl; [|done].
      destruct (drawLog styles n w _) as [st4|] eqn:Hd; simpl; [|done].
      intros [= <-]. apply IH in Hd as (L & HL & Hn). simpl in *.
      exists ([Save] ++ L ++ [Restore]).
      split; [rewrite HL; by rewrite <- !app_assoc|].
      by apply neutral_bracket.
Qed.

(** X16. In the calls a [draw] makes on the canvas context every [save]
    is closed by a later [restore] and no [restore] comes without an
    open [save]: whatever the depth of open [save] calls before the
    draw, it is the same after it and never falls below it in
    between.  The calls made before the draw are kept as they were. *)
Theorem draw_save_restore_balanced (styles : Styles) (fuel : nat)
    (this : ref) (s s' : Heap) (before after : list Command) :
  drawLog styles fuel this (s, before) = Some (s', after) →
  ∃ calls, after = before ++ calls ∧
           ∀ depth, saveDepth calls depth = Some depth.
Proof. intros Hd. by apply drawLog_neutral in Hd. Qed.

Lemma draw_save_restore_balanced_witness :
  ∃ s' calls, drawLog sampleStyles 3 0%nat (nestedTree, []) = Some (s', calls) ∧
              saveDepth calls 0 = Some 0%nat.
Proof.
  eexists _, _. split; [vm_compute; reflexivity|].
  match goal with |- saveDepth ?calls _ = _ =>
    destruct (draw_save_restore_balanced sampleStyles 3 0%nat nestedTree _
                [] calls eq_refl) as (calls' & Hcalls & Hdepth)
  end.
  simpl in Hcalls. subst calls'. apply Hdepth.
Defined.

Lemma viewDraw_rectangle (st : Style.t) (this : ref) (v : View.t)
    (cmd : Command) (rect : float * float * float * float) :
  cmd ∈ viewDraw st this v → rectangleOf cmd = Some rect →
  rect = geometry v.
Proof.
  unfold viewDraw, drawBg, drawBorder, geometry. intros Hin Hrect.
  apply elem_of_app in Hin as [Hin|Hin].
  - destruct (Style.bg st) as [|color|painter].
    + by apply elem_of_nil in Hin.
    + apply list_elem_of_In in Hin. simpl in Hin.
      destruct Hin as [<-|[<-|[]]]; simpl in Hrect; congruence.
    + apply list_elem_of_singleton in Hin as ->. done.
  - destruct (Style.border st) as [b|]; [|by apply elem_of_nil in Hin].
    destruct (0 <? Border.width b); [|by apply elem_of_nil in Hin].
    apply list_elem_of_In in Hin. simpl in Hin.
    destruct Hin as [<-|[<-|[<-|[]]]]; simpl in Hrect; congruence.
Qed.

Lemma labelDraw_rectangle (st : Style.t) (this : ref) (v : View.t)
    (l : Label.t) (cmd : Command) (rect : float * float * float * float) :
  cmd ∈ labelDraw st this v l → rectangleOf cmd = Some rect →
  rect = geometry v.
Proof.
  unfold labelDraw. intros Hin Hrect.
  apply elem_of_app in Hin as [Hin|Hin]; [by eapply viewDraw_rectangle|].
  apply list_elem_of_In in Hin. simpl in Hin.
  destruct Hin as [<-|[<-|[<-|[<-|[]]]]]; done.
Qed.

Lemma drawLoopLog_fst (styles : Styles) (n : nat) (d : ref) (l : list ref)
    (st : Painted) :
  fst <$> forEachM (drawChildLog (drawLog styles n) d) l st
  = forEachM (drawChild (draw n) d) l st.1.
Proof.
  apply forEachM_project. intros st0 w. unfold drawChildLog, drawChild.
  destruct (placeChild d st0.1 w) as [s3|]; simpl; [|done].
  pose proof (drawLog_fst styles n w (s3, st0.2 ++ [Save])) as Hw.
  simpl in Hw. rewrite <- Hw. by destruct (drawLog styles n w _).
Qed.

(** The rest of the [forEach] leaves alone what is in none of the
    subtrees still to be drawn. *)
Lemma drawLoop_frame (n : nat) (d r : ref) (l : list ref) :
  ∀ a a', forEachM (drawChild (draw n) d) l a = Some a' →
    r ≠ d → (∀ w, w ∈ l → r ≠ w ∧ ¬ below a w r) →
    a' !! r = a !! r.
Proof.
  induction l as [|w l IH]; intros a a'; simpl.
  - by intros [= <-].
  - destruct (drawChild (draw n) d a w) as [a1|] eqn:Hstep; simpl; [|done].
    intros Hloop Hrd Hout.
    destruct (Hout w ltac:(left)) as [Hrw Hnb].
    unfold drawChild in Hstep.
    destruct (placeChild d a w) as [a3|] eqn:Hp; simpl in Hstep; [|done].
    pose proof (placeChild_structure _ _ _ _ Hp) as [Hs3 _].
    pose proof (draw_structure _ _ _ _ Hstep) as [Hs4 _].
    destruct (placeChild_object_frame _ _ r _ _ Hp Hrw) as [_ Ho3].
    destruct (draw_frame n w a3 a1 r Hstep) as [_ Ho4].
    { intros Hb. apply Hnb. by apply (below_sameShape a a3). }
    rewrite (IH a1 a' Hloop Hrd).
    + rewrite Ho4, Ho3; done.
    + intros w' Hw'. destruct (Hout w' ltac:(by right)) as [Hne Hnb'].
      split; [done|]. intros Hb. apply Hnb'.
      apply (below_sameShape a a1); [|done].
      by eapply sameShape_trans.
Qed.

Section Rectangles.
Variable rank : ref → nat.
Variable styles : Styles.

Section Step.
Variable n : nat.
Hypothesis drawLog_n :
  ∀ d s log0 s' log',
    wellFormed rank s → (∀ p, NoDup (children s p)) → (rank d < n)%nat →
    drawLog styles n d (s, log0) = Some (s', log') →
    ∃ L, log' = log0 ++ L ∧ rectanglesWithin s d s' L.

Lemma drawLoopLog_rectangles (d : ref) (l : list ref) :
  ∀ a loga a' loga',
    wellFormed rank a → (∀ p, NoDup (children a p)) → NoDup l →
    (∀ w, w ∈ l → w ∈ children a d) → (rank d ≤ n)%nat →
    forEachM (drawChildLog (drawLog styles n) d) l (a, loga)
      = Some (a', loga') →
    ∃ L, loga' = loga ++ L ∧
      ∀ cmd rect, cmd ∈ L → rectangleOf cmd = Some rect →
        ∃ r w, w ∈ l ∧ (r = w ∨ below a w r) ∧
               geometry <$> a' !! r = Some rect.
Proof.
  induction l as [|w l IH]; intros a loga a' loga' Hwf Hnda Hnd Hl Hn; simpl.
  - intros [= <- <-]. exists []. rewrite app_nil_r. split; [done|].
    intros cmd rect Hcmd. by apply elem_of_nil in Hcmd.
  - apply NoDup_cons in Hnd as [Hwl Hnd].
    destruct (drawChildLog (drawLog styles n) d (a, loga) w)
      as [[a1 log1]|] eqn:Hstep; simpl; [|done].
    intros Hloop. unfold drawChildLog in Hstep. simpl in Hstep.
    destruct (placeChild d a w) as [a3|] eqn:Hp; simpl in Hstep; [|done].
    destruct (drawLog styles n w (a3, loga ++ [Save])) as [[a4 log4]|]
      eqn:Hd; simpl in Hstep; [|done].
    injection Hstep as <- <-.
    pose proof (placeChild_structure _ _ _ _ Hp) as [Hs3 _].
    pose proof (sameShape_wellFormed rank _ _ Hs3 Hwf) as Hwf3.
    pose proof (Hl w ltac:(left)) as Hw.
    pose proof (wf_rank _ _ Hwf _ _ Hw) as Hrank.
    assert (∀ a0, sameShape a a0 → ∀ p, NoDup (children a0 p)) as Hnd0.
    { intros a0 Ha0 p. rewrite (sameShape_children _ _ _ Ha0). apply Hnda. }
    destruct (drawLog_n w a3 _ a4 log4 Hwf3 (Hnd0 a3 Hs3) ltac:(lia) Hd)
      as (Lw & -> & Hrw).
    pose proof (drawLog_fst styles n w (a3, loga ++ [Save])) as Hd'.
    rewrite Hd in Hd'. simpl in Hd'. symmetry in Hd'.
    pose proof (draw_structure _ _ _ _ Hd') as [Hs4 _].
    assert (sameShape a a4) as Hs by (by eapply sameShape_trans).
    pose proof (sameShape_wellFormed rank _ _ Hs Hwf) as Hwf4.
    assert (∀ w', w' ∈ l → w' ∈ children a4 d) as Hl4.
    { intros w' Hw'. rewrite (sameShape_children _ _ _ Hs).
      apply Hl. by right. }
    destruct (IH a4 _ a' loga' Hwf4 (Hnd0 a4 Hs) Hnd Hl4 Hn Hloop)
      as (L' & -> & Hr').
    pose proof (drawLoopLog_fst styles n d l
                  (a4, ((loga ++ [Save]) ++ Lw) ++ [Restore])) as Hheap.
    rewrite Hloop in Hheap. simpl in Hheap. symmetry in Hheap.
    exists ([Save] ++ Lw ++ [Restore] ++ L').
    split; [by rewrite <- !app_assoc|].
    intros cmd rect Hcmd Hrect.
    apply elem_of_app in Hcmd as [Hcmd|Hcmd];
      [apply list_elem_of_singleton in Hcmd as ->; done|].
    apply elem_of_app in Hcmd as [Hcmd|Hcmd].
    + (* painted by the child just drawn *)
      destruct (Hrw cmd rect Hcmd Hrect) as (r & Hr & Hgeo).
      assert (r = w ∨ below a w r) as Hr0.
      { destruct Hr as [->|Hr]; [by left|right].
        by apply (below_sameShape a a3). }
      exists r, w. split; [left|]. split; [done|].
      rewrite (drawLoop_frame n d r l a4 a' Hheap); [done| |].
      * intros ->. apply (not_above_parent rank a d w Hwf Hw).
        destruct Hr0 as [->|?]; auto.
      * intros w' Hw'.
        assert (w' ≠ w) as Hne by (intros ->; done).
        assert (¬ (r = w' ∨ below a w' r)) as Hdis.
        { intros Hin. apply (subtree_disjoint rank a d w w' r); auto.
          apply Hl. by right. }
        split; [intros ->; apply Hdis; by left|].
        intros Hb. apply Hdis. right.
        by apply (below_sameShape a a4).
    + apply elem_of_app in Hcmd as [Hcmd|Hcmd];
        [apply list_elem_of_singleton in Hcmd as ->; done|].
      destruct (Hr' cmd rect Hcmd Hrect) as (r & w' & Hw' & Hr & Hgeo).
      exists r, w'. split; [by right|]. split; [|done].
      destruct Hr as [->|Hr]; [by left|right].
      by apply (below_sameShape a a4).
Qed.

End Step.

Lemma drawLog_rectangles (n : nat) :
  ∀ d s log0 s' log',
    wellFormed rank s → (∀ p, NoDup (children s p)) → (rank d < n)%nat →
    drawLog styles n d (s, log0) = Some (s', log') →
    ∃ L, log' = log0 ++ L ∧ rectanglesWithin s d s' L.
Proof.
  induction n as [|n IH]; intros d s log0 s' log' Hwf Hnd Hn; [lia|].
  intros Hd.
  pose proof (drawLog_fst styles (S n) d (s, log0)) as Hheap.
  rewrite Hd in Hheap. simpl in Hheap. symmetry in Hheap.
  assert (geometry <$> s' !! d = geometry <$> s !! d) as Hself.
  { apply (draw_frame (S n) d s s' d Hheap).
    intros Hb. pose proof (below_rank rank _ _ _ Hwf Hb). lia. }
  simpl in Hd.
  destruct (s !! d) as [t|] eqn:Ht; simpl in Hd; [|done].
  assert (∀ L0, (∀ cmd rect, cmd ∈ L0 → rectangleOf cmd = Some rect →
                   rect = geometry t) → rectanglesWithin s d s' L0)
    as Hown.
  { intros L0 HL0 cmd rect Hcmd Hrect. exists d. split; [by left|].
    rewrite Hself. simpl. f_equal. symmetry. by eapply HL0. }
  destruct (View.kind t) as [|l|c] eqn:Hk.
  - injection Hd as <- <-. eexists. split; [done|].
    apply Hown. apply viewDraw_rectangle.
  - injection Hd as <- <-. eexists. split; [done|].
    apply Hown. apply labelDraw_rectangle.
  - assert (getContainer s d = Some c) as Hc
      by (apply getContainer_Some; eauto).
    destruct (match Container.layoutManager c with
              | Some lm => layoutLog styles lm d _
              | None => _
              end) as [[s1 log1]|] eqn:Hl; simpl in Hd; [|done].
    assert (∃ L1, log1 = (log0 ++ viewDraw (styles d) d t) ++ L1 ∧
                  (∀ cmd, cmd ∈ L1 → rectangleOf cmd = None) ∧
                  sameShape s s1) as (L1 & -> & Hnone & Hs1).
    { destruct (Container.layoutManager c) as [lm|].
      - pose proof (layoutLog_fst styles lm d
                      (s, log0 ++ viewDraw (styles d) d t)) as Hf.
        rewrite Hl in Hf. simpl in Hf. symmetry in Hf.
        apply layout_structure in Hf as [Hshape _].
        apply layoutLog_appends in Hl as (L & HL & _ & Hno).
        simpl in HL. eauto.
      - injection Hl as <- <-. exists []. rewrite app_nil_r.
        split; [done|]. split; [|apply sameShape_refl].
        intros cmd H. by apply elem_of_nil in H. }
    destruct (getContainer s1 d) as [c1|] eqn:Hc1; simpl in Hd; [|done].
    pose proof (sameShape_wellFormed rank _ _ Hs1 Hwf) as Hwf1.
    assert (children s1 d = Container.views c1) as Hch1
      by (by apply children_Some).
    assert (∀ p, NoDup (children s1 p)) as Hnd1.
    { intros p. rewrite (sameShape_children _ _ _ Hs1). apply Hnd. }
    assert (NoDup (Container.views c1)) as Hndl
      by (rewrite <- Hch1; apply Hnd1).
    assert (∀ w, w ∈ Container.views c1 → w ∈ children s1 d) as Hsub
      by (intros w Hw; by rewrite Hch1).
    destruct (drawLoopLog_rectangles n IH d (Container.views c1) s1 _
                s' log' Hwf1 Hnd1 Hndl Hsub ltac:(lia) Hd)
      as (L2 & -> & Hr2).
    + exists (viewDraw (styles d) d t ++ L1 ++ L2).
      split; [by rewrite <- !app_assoc|].
      intros cmd rect Hcmd Hrect.
      apply elem_of_app in Hcmd as [Hcmd|Hcmd].
      * apply (Hown (viewDraw (styles d) d t)
                 (viewDraw_rectangle _ _ _) cmd rect Hcmd Hrect).
      * apply elem_of_app in Hcmd as [Hcmd|Hcmd];
          [rewrite (Hnone cmd Hcmd) in Hrect; done|].
        destruct (Hr2 cmd rect Hcmd Hrect) as (r & w & Hw & Hr & Hgeo).
        exists r. split; [right|done].
        assert (w ∈ children s d) as Hw'
          by (by rewrite <- (sameShape_children _ _ _ Hs1), Hch1).
        destruct Hr as [->|Hr]; [by apply below_child|].
        apply (below_trans _ _ w); [by apply below_child|].
        by apply (below_sameShape s s1).
Qed.

End Rectangles.

(** X17. On a well-formed view tree without repeated children, every
    rectangle that a draw fills or strokes on the canvas is the bounds
    that an object of the drawn subtree has when the draw returns: what
    a frame paints is what hit-testing sees after it. *)
Theorem draw_paints_final_bounds (rank : ref → nat) (styles : Styles)
    (fuel : nat) (this : ref) (s s' : Heap) (calls : list Command) :
  wellFormed rank s →
  (∀ p, NoDup (children s p)) →
  (rank this < fuel)%nat →
  drawLog styles fuel this (s, []) = Some (s', calls) →
  ∀ cmd rect, cmd ∈ calls → rectangleOf cmd = Some rect →
    ∃ r, (r = this ∨ below s this r) ∧ geometry <$> s' !! r = Some rect.
Proof.
  intros Hwf Hnd Hfuel Hd.
  destruct (drawLog_rectangles rank styles fuel this s [] s' calls
              Hwf Hnd Hfuel Hd) as (L & HL & Hrect).
  simpl in HL. by subst L.
Qed.

Lemma draw_paints_final_bounds_witness :
  ∃ s' calls,
    drawLog sampleStyles 3 0%nat (nestedTree, []) = Some (s', calls) ∧
    FillRect 19 44 60 12 ∈ calls ∧
    ∃ r, (r = 0%nat ∨ below nestedTree 0%nat r) ∧
         geometry <$> s' !! r = Some (19, 44, 60, 12).
Proof.
  eexists _, _. split; [vm_compute; reflexivity|].
  assert (ownershipConsistent nestedTree) as Hown
    by (apply ownershipConsistentb_sound; vm_compute; reflexivity).
  match goal with |- ?cmd ∈ ?calls ∧ _ =>
    assert (cmd ∈ calls) as Hin
      by (apply list_elem_of_In; vm_compute; tauto)
  end.
  split; [exact Hin|].
  eapply (draw_paints_final_bounds nestedRank sampleStyles 3 0%nat
            nestedTree).
  - apply wellFormedb_sound. vm_compute. reflexivity.
  - intros p. apply (Hown p).
  - simpl. lia.
  - vm_compute. reflexivity.
  - exact Hin.
  - reflexivity.
Defined.

(** ** A second draw changes nothing *)

Lemma measured_with_x (a : float) (v : View.t) :
  measure v = v → measure (View.with_x a v) = View.with_x a v.
Proof.
  destruct v as [? ? ? ? ? []]; simpl; try done.
  unfold measure, View.with_x, View.with_y, View.with_width,
    View.with_height. simpl. congruence.
Qed.

Lemma measured_with_y (b : float) (v : View.t) :
  measure v = v → measure (View.with_y b v) = View.with_y b v.
Proof.
  destruct v as [? ? ? ? ? []]; simpl; try done.
  unfold measure, View.with_x, View.with_y, View.with_width,
    View.with_height. simpl. congruence.
Qed.

Lemma measured_onContainer (g : Container.t → Container.t) (v : View.t) :
  measure v = v → measure (onContainer g v) = onContainer g v.
Proof. by destruct v as [? ? ? ? ? []]. Qed.

Lemma measured_placed (a b : float) (v : View.t) :
  measure (View.with_y b (View.with_x a (measure v)))
  = View.with_y b (View.with_x a (measure v)).
Proof. by rewrite measure_placed, measure_idem. Qed.

(** Objects that are as their [measure] leaves them stay so from the
    heap [a] to the heap [b]. *)
Lemma measuredKept_alter (f : View.t → View.t) (r0 : ref) (s : Heap) :
  (∀ v, measure v = v → measure (f v) = f v) →
  ∀ r v, s !! r = Some v → measure v = v →
    ∃ v', alter f r0 s !! r = Some v' ∧ measure v' = v'.
Proof.
  intros Hf r v Hv Hm. destruct (decide (r0 = r)) as [->|Hne].
  - rewrite lookup_alter_eq, Hv. simpl. eauto.
  - rewrite lookup_alter_ne by done. eauto.
Qed.

Lemma flowLoop_measured hs vs aw l :
  ∀ x y (s : Heap) xf yf sf,
  flowLoop hs vs aw l (x, y, s) = Some (xf, yf, sf) →
  (∀ r, r ∈ l → ∃ v', sf !! r = Some v' ∧ measure v' = v') ∧
  (∀ r v, s !! r = Some v → measure v = v →
     ∃ v', sf !! r = Some v' ∧ measure v' = v').
Proof.
  unfold flowLoop.
  induction l as [|w l IH]; intros x y s xf yf sf; simpl.
  - intros ?. simplify_eq. split; [|eauto].
    intros r Hr. by apply elem_of_nil in Hr.
  - destruct (flowStep hs vs aw (x, y, s) w) as [[[x1 y1] s1]|] eqn:E;
      simpl; [|done].
    intros Hl. destruct (IH _ _ _ _ _ _ Hl) as [Hin Hkeep].
    apply flowStep_inv in E as (v & a & b & Hv & ->).
    split.
    + intros r Hr. destruct (decide (r = w)) as [->|Hne].
      * apply (Hkeep w _ (lookup_insert_eq _ _ _)). apply measured_placed.
      * apply elem_of_cons in Hr as [?|Hr]; [done|]. by apply Hin.
    + intros r v0 Hv0 Hm. destruct (decide (w = r)) as [->|Hne].
      * apply (Hkeep r _ (lookup_insert_eq _ _ _)). apply measured_placed.
      * apply (Hkeep r v0); [by rewrite lookup_insert_ne|done].
Qed.

Lemma layout_measured_kept (lm : LayoutManager) (d : ref) (s s1 : Heap) :
  layout lm d s = Some s1 →
  ∀ r v, s !! r = Some v → measure v = v →
    ∃ v', s1 !! r = Some v' ∧ measure v' = v'.
Proof.
  destruct lm as [|hs vs]; simpl.
  - intros [= <-]. eauto.
  - destruct (s !! d) as [t|]; simpl; [|done].
    destruct (asContainer t) as [c|]; simpl; [|done].
    destruct (flowLoop _ _ _ _ _) as [[[xf yf] sf]|] eqn:E; simpl; [|done].
    intros [= <-]. by apply (flowLoop_measured _ _ _ _ _ _ _ _ _ _ E).
Qed.

Lemma placeChild_measured_kept (d w : ref) (a a3 : Heap) :
  placeChild d a w = Some a3 →
  ∀ r v, a !! r = Some v → measure v = v →
    ∃ v', a3 !! r = Some v' ∧ measure v' = v'.
Proof.
  intros Hp r v Hv Hm.
  apply placeChild_form in Hp as (c & vw & x & y & _ & _ & ->).
  assert (∀ (a0 : Heap) v1, a0 !! r = Some v1 → measure v1 = v1 →
            ∃ v', alter (View.with_y y) w (alter (View.with_x x) w a0) !! r
                  = Some v' ∧ measure v' = v') as Hxy.
  { intros a0 v1 Hv1 Hm1.
    destruct (measuredKept_alter _ w _ (measured_with_x x) r v1 Hv1 Hm1)
      as (v2 & Hv2 & Hm2).
    apply (measuredKept_alter _ w _ (measured_with_y y) r v2 Hv2 Hm2). }
  destruct (Container.relativePoints c !! w); [by apply (Hxy a v)|].
  destruct (measuredKept_alter _ d a
              (measured_onContainer
                 (setRelativePoint w (Point.mk (View.x vw) (View.y vw))))
              r v Hv Hm) as (v1 & Hv1 & Hm1).
  by apply (Hxy _ v1).
Qed.

Lemma draw_measured_kept (n : nat) :
  ∀ d s s', draw n d s = Some s' →
    ∀ r v, s !! r = Some v → measure v = v →
      ∃ v', s' !! r = Some v' ∧ measure v' = v'.
Proof.
  induction n as [|n IH]; intros d s s'; [done|].
  simpl. destruct (s !! d) as [t|] eqn:Ht; simpl; [|done].
  destruct (View.kind t) as [| |c] eqn:Hk;
    try (intros [= <-]; eauto).
  destruct (match Container.layoutManager c with
            | Some lm => layout lm d s
            | None => Some s
            end) as [s1|] eqn:Hl; simpl; [|done].
  destruct (getContainer s1 d) as [c1|]; simpl; [|done].
  intros Hloop r v Hv Hm.
  assert (∃ v1, s1 !! r = Some v1 ∧ measure v1 = v1) as (v1 & Hv1 & Hm1).
  { destruct (Container.layoutManager c) as [lm|].
    - by apply (layout_measured_kept lm d s s1 Hl r v).
    - injection Hl as <-. eauto. }
  refine (forEachM_preserves
            (λ a b : Heap, ∀ r v, a !! r = Some v → measure v = v →
                      ∃ v', b !! r = Some v' ∧ measure v' = v')
            _ _ _ _ _ s1 s' Hloop r v1 Hv1 Hm1).
  - eauto.
  - intros a b c0 Hab Hbc r0 v0 Hv0 Hm0.
    destruct (Hab r0 v0 Hv0 Hm0) as (v' & Hv' & Hm'). eauto.
  - intros a w a' _ Hbody r0 v0 Hv0 Hm0. unfold drawChild in Hbody.
    destruct (placeChild d a w) as [a3|] eqn:Hp; simpl in Hbody; [|done].
    destruct (placeChild_measured_kept _ _ _ _ Hp r0 v0 Hv0 Hm0)
      as (v3 & Hv3 & Hm3).
    by apply (IH w a3 a' Hbody r0 v3).
Qed.

Lemma measuredIn_frame (s s' : Heap) (e : ref) :
  structureKept s s' →
  geometry <$> s' !! e = geometry <$> s !! e →
  (∀ v, v ∈ children s e → s' !! v = s !! v) →
  measuredIn s e → measuredIn s' e.
Proof.
  intros [Hshape _] _ Hobj Hm c' hs vs v vv Hc' Hlm Hv Hvv.
  apply getContainer_Some in Hc' as (t' & Ht' & Hk').
  destruct (sameShape_container _ _ _ _ _ (sameShape_sym _ _ Hshape) Ht' Hk')
    as (t & c & Ht & Hk & _ & Hviews & Hlm' & _).
  assert (getContainer s e = Some c) as Hc
    by (apply getContainer_Some; eauto).
  apply (Hm c hs vs v vv Hc); [congruence|congruence|].
  rewrite <- Hobj; [done|].
  rewrite (children_Some _ _ _ Hc). congruence.
Qed.


Lemma drawLoop_measured_kept (n : nat) (d : ref) (l : list ref)
    (a a' : Heap) :
  forEachM (drawChild (draw n) d) l a = Some a' →
  ∀ r v, a !! r = Some v → measure v = v →
    ∃ v', a' !! r = Some v' ∧ measure v' = v'.
Proof.
  intros Hloop.
  refine (forEachM_preserves
            (λ a b : Heap, ∀ r v, a !! r = Some v → measure v = v →
                      ∃ v', b !! r = Some v' ∧ measure v' = v')
            _ _ _ _ _ a a' Hloop).
  - eauto.
  - intros a0 b c0 Hab Hbc r0 v0 Hv0 Hm0.
    destruct (Hab r0 v0 Hv0 Hm0) as (v' & Hv' & Hm'). eauto.
  - intros a0 w a0' _ Hbody r0 v0 Hv0 Hm0. unfold drawChild in Hbody.
    destruct (placeChild d a0 w) as [a3|] eqn:Hp; simpl in Hbody; [|done].
    destruct (placeChild_measured_kept _ _ _ _ Hp r0 v0 Hv0 Hm0)
      as (v3 & Hv3 & Hm3).
    by apply (draw_measured_kept n w a3 a0' Hbody r0 v3).
Qed.

Lemma measuredIn_top (rank : ref → nat) (n : nat) (d : ref) (s s' : Heap) :
  wellFormed rank s → (rank d < n)%nat →
  draw n d s = Some s' → measuredIn s' d.
Proof.
  intros Hwf Hn Hd c' hs vs v vv Hc' Hlm Hv Hvv.
  pose proof (draw_structure _ _ _ _ Hd) as [Hshape _].
  apply getContainer_Some in Hc' as (t' & Ht' & Hk').
  destruct (sameShape_container _ _ _ _ _ (sameShape_sym _ _ Hshape) Ht' Hk')
    as (t & c & Ht & Hk & _ & Hviews & Hlm' & _).
  destruct n as [|n]; [lia|].
  simpl in Hd. rewrite Ht in Hd. simpl in Hd. rewrite Hk in Hd.
  rewrite Hlm', Hlm in Hd.
  destruct (layout (FlowLayoutManager hs vs) d s) as [s1|] eqn:Hl;
    simpl in Hd; [|done].
  destruct (getContainer s1 d) as [c1|]; simpl in Hd; [|done].
  rewrite (layout_flow_unfold _ _ _ _ _ _ Ht Hk) in Hl.
  destruct (flowLoop _ _ _ _ _) as [[[xf yf] sf]|] eqn:E; simpl in Hl; [|done].
  injection Hl as ->.
  destruct (flowLoop_measured _ _ _ _ _ _ _ _ _ _ E) as [Hin _].
  destruct (Hin v) as (v1 & Hv1 & Hm1); [congruence|].
  destruct (drawLoop_measured_kept n d _ s1 s' Hd v v1 Hv1 Hm1)
    as (v' & Hv' & Hm').
  congruence.
Qed.

(** After a draw of a well-formed tree every container of the drawn
    subtree is settled. *)
Lemma draw_settled (rank : ref → nat) (n : nat) (d : ref) (s s' : Heap) :
  wellFormed rank s → (rank d < n)%nat →
  draw n d s = Some s' →
  ∀ e, e = d ∨ below s d e → settled s' e.
Proof.
  intros Hwf Hn Hd e He. split.
  - by apply (draw_placed rank n d s s').
  - apply (draw_subtree rank measuredIn measuredIn_frame
             (measuredIn_top rank) n d s s'); done.
Qed.

Lemma collapse_placed (a b x y : float) (v : View.t) :
  View.with_y b (View.with_x a (View.with_y y (View.with_x x v)))
  = View.with_y b (View.with_x a v).
Proof. by destruct v. Qed.

Lemma placed_self (v : View.t) :
  View.with_y (View.y v) (View.with_x (View.x v) v) = v.
Proof. by destruct v. Qed.

Lemma displaced_nil (s a : Heap) : displaced [] s a → a = s.
Proof.
  intros H. apply map_eq. intros r.
  destruct (H r) as [?|[Hr _]]; [done|]. by apply elem_of_nil in Hr.
Qed.

Lemma displaced_sameShape (l : list ref) (s a : Heap) :
  displaced l s a → sameShape s a.
Proof.
  intros H. unfold sameShape. apply map_eq. intros r.
  rewrite !lookup_fmap.
  destruct (H r) as [->|(_ & vs & x & y & -> & ->)]; [done|].
  simpl. by destruct vs.
Qed.

Lemma flowLoop_displaced hs vs aw (L : list ref) (s : Heap) l :
  (∀ r v, r ∈ l → s !! r = Some v → measure v = v) →
  (∀ r, r ∈ l → r ∈ L) →
  ∀ x y a xf yf af,
    displaced L s a →
    flowLoop hs vs aw l (x, y, a) = Some (xf, yf, af) →
    displaced L s af.
Proof.
  unfold flowLoop.
  induction l as [|w l IH]; intros Hm HL x y a xf yf af Ha; simpl.
  - intros ?. by simplify_eq.
  - destruct (flowStep hs vs aw (x, y, a) w) as [[[x1 y1] a1]|] eqn:E;
      simpl; [|done].
    apply IH.
    + intros r v Hr. apply Hm. by right.
    + intros r Hr. apply HL. by right.
    + apply flowStep_inv in E as (v & x0 & y0 & Hv & ->).
      intros r. destruct (decide (w = r)) as [->|Hne].
      * right. split; [apply HL; left|].
        destruct (Ha r) as [Heq|(_ & vs0 & x' & y' & Hs & Ha')].
        -- rewrite Hv in Heq. symmetry in Heq.
           exists v, x0, y0. split; [done|].
           rewrite lookup_insert_eq.
           by rewrite (Hm r v ltac:(left) Heq).
        -- exists vs0, x0, y0. split; [done|].
           rewrite lookup_insert_eq. rewrite Hv in Ha'. injection Ha' as ->.
           rewrite measure_placed, (Hm r vs0 ltac:(left) Hs).
           by rewrite collapse_placed.
      * rewrite lookup_insert_ne by done. apply Ha.
Qed.

Lemma displaced_refl (l : list ref) (s : Heap) : displaced l s s.
Proof. intros r. by left. Qed.

Lemma displaced_getContainer (l : list ref) (s a : Heap) (r : ref) :
  displaced l s a → getContainer a r = getContainer s r.
Proof.
  intros H. unfold getContainer.
  destruct (H r) as [->|(_ & vs & x & y & -> & ->)]; [done|].
  by destruct vs.
Qed.

Lemma displaced_structure (l : list ref) (s a : Heap) :
  displaced l s a → structureKept s a.
Proof.
  intros H. split; [by apply (displaced_sameShape l)|].
  intros e k q. unfold relativePoint.
  by rewrite (displaced_getContainer l s a e H).
Qed.

Lemma displaced_settled (l : list ref) (s a : Heap) (e : ref) :
  displaced l s a → a !! e = s !! e →
  (∀ v, v ∈ children s e → a !! v = s !! v) →
  settled s e → settled a e.
Proof.
  intros H He Hv [Hp Hm].
  pose proof (displaced_structure l s a H) as Hst. split.
  - apply (placedIn_frame s a e Hst); [| |done].
    + unfold position. by rewrite He.
    + intros v Hin. unfold position. by rewrite (Hv v Hin).
  - apply (measuredIn_frame s a e Hst); [|done|done]. by rewrite He.
Qed.

Section Fixed.
Variable rank : ref → nat.

Lemma displaced_subtree (l : list ref) (s a : Heap) (d w : ref) :
  wellFormed rank s → (∀ r, r ∈ l → r ∈ children s d) →
  w ∈ children s d → displaced l s a → a !! w = s !! w →
  ∀ r, r = w ∨ below s w r → a !! r = s !! r.
Proof.
  intros Hwf Hl Hw Ha Haw r [->|Hb]; [done|].
  destruct (Ha r) as [?|[Hr _]]; [done|]. exfalso.
  apply (not_above_parent rank s d w Hwf Hw).
  destruct (below_parent rank s w r d Hwf Hb (Hl r Hr)) as [->|?]; auto.
Qed.

(** Placing a child that already stands where its recorded origin puts
    it gives the child back as it is in the settled heap. *)
Lemma placeChild_settled (l : list ref) (s a : Heap) (d w : ref) :
  wellFormed rank s → placedIn s d →
  (∀ r, r ∈ w :: l → r ∈ children s d) →
  displaced (w :: l) s a →
  ∃ a3, placeChild d a w = Some a3 ∧ displaced l s a3 ∧
        a3 !! w = s !! w.
Proof.
  intros Hwf Hplaced Hl Ha.
  assert (w ∈ children s d) as Hw by (apply Hl; left).
  pose proof (wf_rank _ _ Hwf _ _ Hw) as Hrank.
  assert (w ≠ d) as Hne by (intros ->; lia).
  assert (a !! d = s !! d) as Had.
  { destruct (Ha d) as [?|[Hin _]]; [done|].
    pose proof (wf_rank _ _ Hwf _ _ (Hl d Hin)). lia. }
  assert (is_Some (getContainer s d)) as [c Hc].
  { unfold children in Hw. destruct (getContainer s d); [eauto|].
    by apply elem_of_nil in Hw. }
  pose proof Hc as Hc'.
  apply getContainer_Some in Hc' as (t & Ht & Hk).
  destruct (wellFormed_child_exists rank s d w Hwf Hw) as [vw Hvw].
  assert (∃ va, a !! w = Some va ∧
                ∀ x y, View.with_y y (View.with_x x va)
                       = View.with_y y (View.with_x x vw))
    as (va & Hva & Hcol).
  { destruct (Ha w) as [Heq|(_ & vs0 & x' & y' & Hs & Ha')].
    - exists vw. split; [congruence|done].
    - eexists. split; [exact Ha'|]. intros x y.
      rewrite collapse_placed. congruence. }
  destruct (Hplaced w Hw) as (o & p & Ho & Hrel & Hpos).
  rewrite (contentOrigin_Some s d t c Ht Hk) in Ho. injection Ho as <-.
  unfold relativePoint in Hrel. rewrite Hc in Hrel. simpl in Hrel.
  rewrite <- Had in Ht.
  destruct (placeChild_spec a d w t va c Ht Hk Hva Hne)
    as (a3 & Hp & _ & _ & Hposw & _).
  rewrite Hrel in Hposw. simpl in Hposw.
  exists a3. split; [done|].
  apply placeChild_form in Hp as (c0 & v0 & x0 & y0 & Hc0 & Hv0 & ->).
  assert (c0 = c) as ->.
  { rewrite (displaced_getContainer _ _ _ d Ha) in Hc0. congruence. }
  rewrite Hrel in *.
  assert (alter (View.with_y y0) w (alter (View.with_x x0) w a) !! w
          = s !! w) as Hsame.
  { rewrite position_alter_xy in Hposw by eauto.
    rewrite <- Hposw in Hpos. unfold position in Hpos.
    rewrite Hvw in Hpos. simpl in Hpos. injection Hpos as Hx Hy.
    rewrite !lookup_alter_eq, Hva, Hvw. simpl.
    rewrite Hcol, <- Hx, <- Hy. by rewrite placed_self. }
  split; [|done].
  intros r. destruct (decide (r = w)) as [->|Hr]; [by left|].
  rewrite !lookup_alter_ne by done.
  destruct (Ha r) as [?|(Hin & Hrest)]; [by left|]. right.
  split; [|done]. apply elem_of_cons in Hin as [?|?]; done.
Qed.

(** On a heap whose drawn subtree is settled the layout pass moves
    nothing but, for a while, the positions of the children. *)
Lemma layoutPass_settled (s : Heap) (d : ref) (c : Container.t) :
  wellFormed rank s → getContainer s d = Some c → measuredIn s d →
  ∃ s1, layoutPass d s = Some s1 ∧ displaced (Container.views c) s s1.
Proof.
  intros Hwf Hc Hm. unfold layoutPass. rewrite Hc. simpl.
  pose proof Hc as Hc'.
  apply getContainer_Some in Hc' as (t & Ht & Hk).
  destruct (Container.layoutManager c) as [[|hs vs]|] eqn:Hlm.
  - exists s. split; [done|apply displaced_refl].
  - rewrite (layout_flow_unfold hs vs s d t c Ht Hk).
    destruct (flowLoop_total hs vs
                (View.width t
                 - (Container.paddingLeft c + Container.paddingRight c))
                (Container.views c) 0 0 s) as [[[xf yf] sf] E].
    { intros r Hr. apply (wellFormed_child_exists rank s d r Hwf).
      by rewrite (children_Some _ _ _ Hc). }
    rewrite E. simpl. eexists. split; [done|].
    refine (flowLoop_displaced hs vs _ (Container.views c) s
              (Container.views c) _ _ 0 0 s xf yf sf
              (displaced_refl _ _) E); [|done].
    intros r v Hr Hv. by apply (Hm c hs vs r v).
  - exists s. split; [done|apply displaced_refl].
Qed.

Lemma draw_settled_fix (n : nat) :
  ∀ d s, wellFormed rank s → (rank d < n)%nat → is_Some (s !! d) →
    (∀ e, e = d ∨ below s d e → settled s e) →
    draw n d s = Some s.
Proof.
  induction n as [|n IH]; intros d s Hwf Hn [t Ht] Hset; [lia|].
  destruct (asContainer t) as [c|] eqn:Hk;
    [|by apply (draw_leaf n d s t)].
  assert (View.kind t = KContainer c) as Hk'.
  { unfold asContainer in Hk. destruct (View.kind t); congruence. }
  assert (getContainer s d = Some c) as Hc
    by (apply getContainer_Some; eauto).
  destruct (Hset d (or_introl eq_refl)) as [Hplaced Hmeasured].
  rewrite (draw_container n d s t c Ht Hk').
  destruct (layoutPass_settled s d c Hwf Hc Hmeasured) as (s1 & -> & Hdis).
  simpl. rewrite (displaced_getContainer _ _ _ d Hdis), Hc. simpl.
  assert (∀ r, r ∈ Container.views c → r ∈ children s d) as Hsub.
  { intros r Hr. by rewrite (children_Some _ _ _ Hc). }
  revert s1 Hdis Hsub. generalize (Container.views c).
  induction l as [|w l IHl]; intros a Ha Hl; cbn [forEachM].
  - by rewrite (displaced_nil _ _ Ha).
  - assert (w ∈ children s d) as Hw by (apply Hl; left).
    destruct (placeChild_settled l s a d w Hwf Hplaced Hl Ha)
      as (a3 & Hp & Ha3 & Hsame).
    assert (∀ r, r ∈ l → r ∈ children s d) as Hl'
      by (intros r Hr; apply Hl; by right).
    pose proof (displaced_sameShape _ _ _ Ha3) as Hshape.
    assert (drawChild (draw n) d a w = Some a3) as ->;
      [unfold drawChild; rewrite Hp; simpl; apply (IH w a3)
      |simpl; by apply IHl].
    + by apply (sameShape_wellFormed rank s).
    + pose proof (wf_rank _ _ Hwf _ _ Hw). lia.
    + rewrite Hsame. by apply (wellFormed_child_exists rank s d w).
    + intros e He.
      assert (e = w ∨ below s w e) as He'.
      { destruct He as [->|He]; [by left|right].
        by apply (below_sameShape s a3). }
      apply (displaced_settled l s a3 e Ha3).
      * by apply (displaced_subtree l s a3 d w).
      * intros v Hv. apply (displaced_subtree l s a3 d w); try done.
        right. destruct He' as [->|Hb].
        -- by apply below_child.
        -- by apply (below_step s w e).
      * apply Hset. right. destruct He' as [->|Hb].
        -- by apply below_child.
        -- apply (below_trans s d w e); [by apply below_child|done].
Qed.

End Fixed.

Lemma draw_twice (rank : ref → nat) (n : nat) (d : ref) (s s' : Heap) :
  wellFormed rank s → (rank d < n)%nat →
  draw n d s = Some s' → draw n d s' = Some s'.
Proof.
  intros Hwf Hn Hd.
  pose proof (draw_structure _ _ _ _ Hd) as [Hshape _].
  apply (draw_settled_fix rank); [|done| |].
  - by apply (sameShape_wellFormed rank s).
  - apply (sameShape_is_Some s s'); [done|].
    destruct n as [|n]; [done|]. simpl in Hd.
    destruct (s !! d); [eauto|done].
  - intros e He. apply (draw_settled rank n d s s'); try done.
    destruct He as [->|He]; [by left|right].
    by apply (below_sameShape s s').
Qed.

(** X18. On a well-formed view tree a [draw] returns, and the heap it
    leaves is a fixed point of [draw]: any number of further draws of
    the same object returns and leaves every field of every object, the
    sizes, the positions and the recorded relative origins, exactly as
    the first draw left them. *)
Theorem draw_reaches_fixed_heap (rank : ref → nat) (fuel : nat)
    (this : ref) (s : Heap) :
  wellFormed rank s →
  (rank this < fuel)%nat →
  is_Some (s !! this) →
  ∃ s', draw fuel this s = Some s' ∧
        ∀ k, drawTimes fuel k this s' = Some s'.
Proof.
  intros Hwf Hfuel Hsome.
  destruct (draw_keeps rank fuel this s Hwf Hfuel Hsome) as (s' & Hd & _).
  exists s'. split; [done|].
  pose proof (draw_twice rank fuel this s s' Hwf Hfuel Hd) as Hfix.
  induction k as [|k IHk]; simpl; [done|].
  rewrite Hfix. simpl. exact IHk.
Qed.

Lemma draw_reaches_fixed_heap_witness :
  ∃ s', draw 3 0%nat nestedTree = Some s' ∧
        drawTimes 3 5 0%nat s' = Some s'.
Proof.
  destruct (draw_reaches_fixed_heap nestedRank 3 0%nat nestedTree)
    as (s' & Hd & Hfix).
  - apply wellFormedb_sound. vm_compute. reflexivity.
  - simpl. lia.
  - vm_compute. eauto.
  - exists s'. split; [exact Hd|apply Hfix].
Defined.

(** ** The frames of [Drawer.run] *)

Lemma runFrame_draw (styles : Styles) (n : nat) (d : ref) (s s' : Heap)
    (t : View.t) :
  s !! d = Some t → draw n d s = Some s' → ¬ below s d d →
  ∃ calls t',
    runFrame styles n d s
    = Some (s', ClearRect (View.x t) (View.y t) (View.width t) (View.height t)
                  :: calls) ∧
    neutral calls ∧
    s' !! d = Some t' ∧ geometry t' = geometry t.
Proof.
  intros Ht Hd Hnb. unfold runFrame. rewrite Ht. simpl.
  pose proof (drawLog_fst styles n d
                (s, [ClearRect (View.x t) (View.y t)
                       (View.width t) (View.height t)])) as Hfst.
  simpl in Hfst. rewrite Hd in Hfst.
  destruct (drawLog styles n d _) as [[s2 log]|] eqn:Hlog; [|done].
  simpl in Hfst. injection Hfst as ->.
  destruct (drawLog_neutral _ _ _ _ _ Hlog) as (calls & Hcalls & Hneutral).
  simpl in Hcalls. subst log.
  destruct (draw_frame n d s s' d Hd Hnb) as [Hgeo _].
  rewrite Ht in Hgeo. simpl in Hgeo.
  destruct (s' !! d) as [t'|]; [|done].
  apply (inj Some) in Hgeo.
  by exists calls, t'.
Qed.

(** X19. The frames of [Drawer.run] on a well-formed view tree: the first
    frame returns; it clears the rectangle of the root container and then
    makes the calls of the root's [draw], in which every [save] is closed
    by a [restore].  It leaves the bounds of the root as they were, so
    the next frame clears the same rectangle, and the next frame leaves
    the heap of the first exactly as it found it: from the second frame
    on every frame starts from the same heap and so makes the same
    calls. *)
Theorem runFrame_steady (rank : ref → nat) (styles : Styles) (fuel : nat)
    (container : ref) (s : Heap) (t : View.t) :
  wellFormed rank s →
  (rank container < fuel)%nat →
  s !! container = Some t →
  let clear :=
    ClearRect (View.x t) (View.y t) (View.width t) (View.height t) in
  ∃ s' first later,
    runFrame styles fuel container s = Some (s', clear :: first) ∧
    neutral first ∧
    runFrame styles fuel container s' = Some (s', clear :: later) ∧
    neutral later.
Proof.
  intros Hwf Hfuel Ht clear.
  destruct (draw_keeps rank fuel container s Hwf Hfuel (mk_is_Some _ _ Ht))
    as (s' & Hd & [Hshape _]).
  assert (∀ h, wellFormed rank h → ¬ below h container container) as Hnb.
  { intros h Hh Hb. pose proof (below_rank rank h _ _ Hh Hb). lia. }
  destruct (runFrame_draw styles fuel container s s' t Ht Hd (Hnb s Hwf))
    as (first & t' & Hrun & Hneutral & Ht' & Hgeo).
  pose proof (sameShape_wellFormed rank s s' Hshape Hwf) as Hwf'.
  pose proof (draw_twice rank fuel container s s' Hwf Hfuel Hd) as Hfix.
  destruct (runFrame_draw styles fuel container s' s' t' Ht' Hfix (Hnb s' Hwf'))
    as (later & t'' & Hrun' & Hneutral' & _ & _).
  exists s', first, later. unfold clear.
  unfold geometry in Hgeo. injection Hgeo as Hx Hy Hw Hh.
  rewrite Hx, Hy, Hw, Hh in Hrun'. done.
Qed.

Lemma runFrame_steady_witness :
  ∃ s' first later,
    runFrame sampleStyles 3 0%nat nestedTree
    = Some (s', ClearRect 10 20 200 100 :: first) ∧
    neutral first ∧
    runFrame sampleStyles 3 0%nat s'
    = Some (s', ClearRect 10 20 200 100 :: later) ∧
    neutral later.
Proof.
  apply (runFrame_steady nestedRank sampleStyles 3 0%nat nestedTree
           (containerView 10 20 200 100 None [1%nat; 2%nat] None 3 4)).
  - apply wellFormedb_sound. vm_compute. reflexivity.
  - simpl. lia.
  - vm_compute. reflexivity.
Defined.
